(** * metadev: translation-key extraction (i18n.go) and dictionary merge
      (join_i18n.go)

    Shallow embedding of the two commands of the repository.

    - Go strings are byte strings: file contents are [list ascii] while they
      are scanned and [string] once they are map keys or record fields.
    - [regexp] patterns are values of a small pattern syntax covering what
      the two patterns of i18n.go use (literals, character classes, greedy
      class repetition, the word boundary and unnested capture groups).
      Matching is the backtracking search of the package documentation: of
      the matches that begin leftmost, the one a backtracking search finds
      first.
    - Go maps are [gmap string _]; every [range] over a map takes the order
      of iteration as an explicit enumeration of the map, since the language
      leaves it unspecified. *)

From Stdlib Require Import Ascii String List Arith Lia Bool.
From Stdlib Require Import OrdersEx.
From stdpp Require Import base option list gmap strings sorting.

Local Open Scope string_scope.
Local Open Scope list_scope.

(** ** Bytes and character classes *)

Module Chars.

Definition code (a : ascii) : nat := nat_of_ascii a.

Definition between (lo hi : nat) (a : ascii) : bool :=
  (lo <=? code a)%nat && (code a <=? hi)%nat.

Definition is_upper : ascii -> bool := between 65 90.
Definition is_lower : ascii -> bool := between 97 122.
Definition is_digit : ascii -> bool := between 48 57.

(** [[A-Za-z]] *)
Definition is_letter (a : ascii) : bool := is_upper a || is_lower a.

(** [[A-Za-z0-9]] *)
Definition is_alnum (a : ascii) : bool := is_letter a || is_digit a.

(** [\w] is [[0-9A-Za-z_]] *)
Definition is_word (a : ascii) : bool := is_alnum a || Ascii.eqb a "_".

(** [\s] is [[\t\n\f\r ]] *)
Definition is_space (a : ascii) : bool :=
  (code a =? 9)%nat || (code a =? 10)%nat || (code a =? 12)%nat
  || (code a =? 13)%nat || (code a =? 32)%nat.

(** The double quote, byte 34. *)
Definition dquote : ascii := ascii_of_nat 34.

(** The class of the two quote characters, single and double. *)
Definition is_quote (a : ascii) : bool :=
  Ascii.eqb a "'" || Ascii.eqb a dquote.

(** The class of every byte but the two quote characters. *)
Definition not_quote (a : ascii) : bool := negb (is_quote a).

(** unicode.ToLower on an ASCII byte; bytes outside A-Z are unchanged. *)
Definition to_lower (a : ascii) : ascii :=
  if is_upper a then ascii_of_nat (code a + 32) else a.

End Chars.

(** ** The pattern syntax and its backtracking matcher *)

Module Regexp.

Import Chars.

(** An item that carries no capture group. *)
Inductive item : Type :=
| Chr (c : ascii)                 (* a literal byte *)
| Cls (p : ascii -> bool)         (* one byte of a class *)
| Star (p : ascii -> bool)        (* class*, greedy *)
| Plus (p : ascii -> bool)        (* class+, greedy *)
| WordBoundary.                   (* \b *)

(** A pattern is a sequence of plain items and capture groups. *)
Inductive node : Type :=
| Plain (i : item)
| Group (body : list item).

Definition regexp : Type := list node.

(** A literal word such as [const]. *)
Definition word (s : string) : regexp :=
  map (fun c => Plain (Chr c)) (list_ascii_of_string s).

(** The byte before the current position, when there is one. *)
Definition context : Type := option ascii.

Definition after (prev : context) (txt : list ascii) : context :=
  match last txt with Some a => Some a | None => prev end.

Definition word_before (prev : context) : bool :=
  match prev with Some a => is_word a | None => false end.

Definition word_next (s : list ascii) : bool :=
  match s with a :: _ => is_word a | [] => false end.

Definition at_boundary (prev : context) (s : list ascii) : bool :=
  xorb (word_before prev) (word_next s).

(** All the ways [p*] can take a prefix of [s], longest first. *)
Fixpoint star (p : ascii -> bool) (s : list ascii)
  : list (list ascii * list ascii) :=
  match s with
  | a :: s' =>
      if p a
      then map (fun r => (a :: fst r, snd r)) (star p s') ++ [([], s)]
      else [([], s)]
  | [] => [([], [])]
  end.

(** All the ways one item can match at the start of [s], in the order a
    backtracking search tries them: the text taken and what is left. *)
Definition match_item (i : item) (prev : context) (s : list ascii)
  : list (list ascii * list ascii) :=
  match i with
  | Chr c =>
      match s with
      | a :: s' => if Ascii.eqb a c then [([a], s')] else []
      | [] => []
      end
  | Cls p =>
      match s with
      | a :: s' => if p a then [([a], s')] else []
      | [] => []
      end
  | Star p => star p s
  | Plus p =>
      match s with
      | a :: s' =>
          if p a then map (fun r => (a :: fst r, snd r)) (star p s') else []
      | [] => []
      end
  | WordBoundary => if at_boundary prev s then [([], s)] else []
  end.

Fixpoint match_items (its : list item) (prev : context) (s : list ascii)
  : list (list ascii * list ascii) :=
  match its with
  | [] => [([], s)]
  | i :: its' =>
      flat_map
        (fun r1 =>
           map (fun r2 => (fst r1 ++ fst r2, snd r2))
               (match_items its' (after prev (fst r1)) (snd r1)))
        (match_item i prev s)
  end.

(** The outcome of a match: the whole text matched, the text of each group
    in order, and what is left of the input. *)
Record result : Type := Result {
  whole : list ascii;
  groups : list (list ascii);
  rest : list ascii
}.

Fixpoint match_nodes (re : regexp) (prev : context) (s : list ascii)
  : list result :=
  match re with
  | [] => [Result [] [] s]
  | Plain i :: re' =>
      flat_map
        (fun r1 =>
           map (fun r2 => Result (fst r1 ++ whole r2) (groups r2) (rest r2))
               (match_nodes re' (after prev (fst r1)) (snd r1)))
        (match_item i prev s)
  | Group body :: re' =>
      flat_map
        (fun r1 =>
           map (fun r2 =>
                  Result (fst r1 ++ whole r2) (fst r1 :: groups r2) (rest r2))
               (match_nodes re' (after prev (fst r1)) (snd r1)))
        (match_items body prev s)
  end.

(** The match at the current position that the search finds first. *)
Definition match_here (re : regexp) (prev : context) (s : list ascii)
  : option result :=
  head (match_nodes re prev s).

(** The leftmost match at or after the current position. *)
Fixpoint search (re : regexp) (prev : context) (s : list ascii)
  : option result :=
  match match_here re prev s with
  | Some r => Some r
  | None =>
      match s with
      | [] => None
      | a :: s' => search re (Some a) s'
      end
  end.

(** The loop of FindAll: search, record the match, go on from its end. After
    an empty match the loop moves one byte on. *)
Fixpoint find_all_from (fuel : nat) (re : regexp) (prev : context)
  (s : list ascii) : list result :=
  match fuel with
  | O => []
  | S fuel' =>
      match search re prev s with
      | None => []
      | Some r =>
          match whole r, rest r with
          | [], a :: s' => r :: find_all_from fuel' re (Some a) s'
          | [], [] => [r]
          | _ :: _, s' => r :: find_all_from fuel' re (last (whole r)) s'
          end
      end
  end.

(** A submatch as Go returns it: index 0 is the whole match, index [n] the
    text of group [n]. *)
Definition submatch (r : result) : list string :=
  map string_of_list_ascii (whole r :: groups r).

(** [re.FindAllStringSubmatch(s, -1)] *)
Definition FindAllStringSubmatch (re : regexp) (s : string)
  : list (list string) :=
  let bytes := list_ascii_of_string s in
  map submatch (find_all_from (S (length bytes)) re None bytes).

End Regexp.

(** ** path/filepath, for paths separated by slashes *)

Module Filepath.

(** The elements of a path, the texts between its separators. *)
Fixpoint elements (path : string) : list string :=
  match path with
  | EmptyString => [EmptyString]
  | String a path' =>
      if Ascii.eqb a "/" then EmptyString :: elements path'
      else
        match elements path' with
        | e :: es => String a e :: es
        | [] => [String a EmptyString]
        end
  end.

(** One turn of the loop of [Clean] over the elements, with the elements
    kept so far, the last first: an empty element and a dot are dropped; two
    dots remove the element before them, are dropped at the root, and are
    kept at the start of a path that is not rooted. *)
Definition clean_step (rooted : bool) (kept : list string) (e : string)
  : list string :=
  if String.eqb e "" || String.eqb e "." then kept
  else if String.eqb e ".." then
    match kept with
    | top :: kept' => if String.eqb top ".." then e :: kept else kept'
    | [] => if rooted then [] else [e]
    end
  else e :: kept.

(** [filepath.Clean] *)
Definition Clean (path : string) : string :=
  if String.eqb path "" then "."
  else
    let rooted := String.prefix "/" path in
    let kept := rev (foldl (clean_step rooted) [] (elements path)) in
    if rooted then "/" ++ String.concat "/" kept
    else
      match kept with
      | [] => "."
      | _ :: _ => String.concat "/" kept
      end.

(** [filepath.Join] of two elements: the elements from the first that is
    not empty on, joined by the separator and cleaned. *)
Definition Join (dir name : string) : string :=
  if negb (String.eqb dir "") then Clean (dir ++ "/" ++ name)
  else if negb (String.eqb name "") then Clean name
  else "".

End Filepath.

(** ** i18n.go: the two patterns *)

Module I18n.

Import Chars Regexp.

(** The patterns are quoted below item by item, with blanks between the
    items, Q for the class of the two quote characters and NQ for its
    complement.

    extractUseTranslationDeclarations:
    const \s* { \s* t: \s* ( \w+ ) \s* } \s* = \s* useTranslation \s* \( \s*
    Q ( NQ+ ) Q \s* \) *)
Definition useTranslationRegex : regexp :=
  word "const" ++ [Plain (Star is_space); Plain (Chr "{");
    Plain (Star is_space); Plain (Chr "t"); Plain (Chr ":");
    Plain (Star is_space); Group [Plus is_word]; Plain (Star is_space);
    Plain (Chr "}"); Plain (Star is_space); Plain (Chr "=");
    Plain (Star is_space)]
  ++ word "useTranslation" ++ [Plain (Star is_space); Plain (Chr "(");
    Plain (Star is_space); Plain (Cls is_quote); Group [Plus not_quote];
    Plain (Cls is_quote); Plain (Star is_space); Plain (Chr ")")].

(** parseFileWithMapping:
    \b ( t [A-Za-z] [A-Za-z0-9]* ) \s* \( \s* Q ( NQ+ ) Q \s* \) *)
Definition allCallsRegex : regexp :=
  [Plain WordBoundary; Group [Chr "t"; Cls is_letter; Star is_alnum];
   Plain (Star is_space); Plain (Chr "("); Plain (Star is_space);
   Plain (Cls is_quote); Group [Plus not_quote]; Plain (Cls is_quote);
   Plain (Star is_space); Plain (Chr ")")].

(** *** Strings *)

(** [strings.HasPrefix] *)
Definition HasPrefix (s prefix : string) : bool := String.prefix prefix s.

(** [strings.HasSuffix] *)
Definition HasSuffix (s suffix : string) : bool :=
  let n := String.length s in
  let k := String.length suffix in
  (k <=? n)%nat && String.eqb (String.substring (n - k) k s) suffix.

(** [strings.ToLower], on the bytes of the string. The only argument the
    program passes is the tail of a matched alias, which is ASCII. *)
Fixpoint ToLower (s : string) : string :=
  match s with
  | EmptyString => EmptyString
  | String a s' => String (to_lower a) (ToLower s')
  end.

(** [s[1:]]; the program takes it only under the guard [len(s) > 1]. *)
Definition from1 (s : string) : string :=
  match s with
  | EmptyString => EmptyString
  | String _ s' => s'
  end.

(** *** The disk *)

(** A path names a regular file with its content, a directory, or something
    else that exists and cannot be read (a file without permission). *)
Inductive inode : Type :=
| Regular (content : string)
| Directory
| Unreadable.

Abbreviation disk := (gmap string inode).

(** [os.Stat] followed by [os.IsNotExist] on its error. *)
Definition IsNotExist (d : disk) (path : string) : bool :=
  match d !! path with Some _ => false | None => true end.

(** [os.ReadFile]; [None] is the error result. *)
Definition ReadFile (d : disk) (path : string) : option string :=
  match d !! path with
  | Some (Regular content) => Some content
  | _ => None
  end.

(** What a call of [os.WriteFile] that fails leaves behind. The call opens
    the file, which creates or truncates it, writes the data and closes the
    file. [failure path] is [None] when the file is not opened, and the disk
    is as before; it is [Some n] when the call fails later, and the file
    holds the first [n] bytes of the data (all of them when there are fewer):
    nothing, a part, or all of what was to be written. *)
Definition left_by (failure : string -> option nat) (d : disk)
  (path data : string) : disk :=
  match failure path with
  | None => d
  | Some n => <[path := Regular (String.substring 0 n data)]> d
  end.

(** [os.WriteFile]: whether the error is nil, and the disk after the call.
    [writable] tells for which paths the call succeeds, which is up to the
    system (permissions, room on the device, a directory of that name), and
    [failure] what a call that fails leaves. *)
Definition WriteFile (writable : string -> bool)
  (failure : string -> option nat) (d : disk) (path : string)
  (data : string) : bool * disk :=
  if writable path then (true, <[path := Regular data]> d)
  else (false, left_by failure d path data).

(** [os.MkdirAll] of a path whose parent exists; [None] is the error result.
    A directory that is there is left as it is, anything else of that name is
    an error, and [mkdir] tells whether a directory that is missing can be
    made. *)
Definition MkdirAll (mkdir : bool) (d : disk) (path : string) : option disk :=
  match d !! path with
  | Some Directory => Some d
  | Some _ => None
  | None => if mkdir then Some (<[path := Directory]> d) else None
  end.

(** *** Extraction *)

Record TranslationKey : Type := mkTranslationKey {
  Key : string;
  Namespace : string;
  File : string
}.

(** The loop over the matches of extractUseTranslationDeclarations:
    [if len(match) >= 3 { translationMap[match[1]] = match[2] }]. *)
Definition declare (translationMap : gmap string string)
  (match_ : list string) : gmap string string :=
  match match_ !! 1%nat, match_ !! 2%nat with
  | Some tVariable, Some namespace => <[tVariable := namespace]> translationMap
  | _, _ => translationMap
  end.

(** The body of extractUseTranslationDeclarations once the file is read. *)
Definition declarations (contentStr : string) : gmap string string :=
  foldl declare ∅ (FindAllStringSubmatch useTranslationRegex contentStr).

Definition extractUseTranslationDeclarations (d : disk) (filePath : string)
  : option (gmap string string) :=
  match ReadFile d filePath with
  | None => None
  | Some content => Some (declarations content)
  end.

(** The guard of the inference branch of parseFileWithMapping. *)
Definition inferable (tVariable : string) : bool :=
  HasPrefix tVariable "t" && (1 <? String.length tVariable)%nat.

(** The namespace parseFileWithMapping gives to a matched alias. *)
Definition resolve (globalMapping : gmap string string) (tVariable : string)
  : string :=
  match globalMapping !! tVariable with
  | Some ns => ns
  | None =>
      if inferable tVariable then ToLower (from1 tVariable) else "common"
  end.

(** The loop over the matches of parseFileWithMapping. *)
Definition record_call (filePath : string)
  (globalMapping : gmap string string) (keys : list TranslationKey)
  (callMatch : list string) : list TranslationKey :=
  match callMatch !! 1%nat, callMatch !! 2%nat with
  | Some tVariable, Some key =>
      keys ++ [mkTranslationKey key (resolve globalMapping tVariable) filePath]
  | _, _ => keys
  end.

(** The body of parseFileWithMapping once the file is read. *)
Definition calls (filePath contentStr : string)
  (globalMapping : gmap string string) : list TranslationKey :=
  foldl (record_call filePath globalMapping) []
        (FindAllStringSubmatch allCallsRegex contentStr).

Definition parseFileWithMapping (d : disk) (filePath : string)
  (globalMapping : gmap string string) : option (list TranslationKey) :=
  match ReadFile d filePath with
  | None => None
  | Some content => Some (calls filePath content globalMapping)
  end.

(** [for k, v := range src { dst[k] = v }] over an enumeration of [src]. *)
Definition assign_all (dst : gmap string string)
  (enumeration : list (string * string)) : gmap string string :=
  foldl (fun m kv => <[kv.1 := kv.2]> m) dst enumeration.

Section Extraction.

(** The order in which the [n]-th [range] statement of a run enumerates a
    map. *)
Variable range : forall V : Type, nat -> gmap string V -> list (string * V).

(** First pass of extractTranslationKeys over the paths [filepath.WalkDir]
    hands to the callback, in that order; [i] counts the files visited. A
    file that cannot be read is reported and skipped. *)
Fixpoint first_pass (d : disk) (i : nat) (walk : list string)
  (globalTranslationMap : gmap string string) : gmap string string :=
  match walk with
  | [] => globalTranslationMap
  | path :: walk' =>
      if negb (HasSuffix path ".tsx")
      then first_pass d (S i) walk' globalTranslationMap
      else
        match extractUseTranslationDeclarations d path with
        | None => first_pass d (S i) walk' globalTranslationMap
        | Some fileMap =>
            first_pass d (S i) walk'
              (assign_all globalTranslationMap (range _ i fileMap))
        end
  end.

(** Second pass of extractTranslationKeys. *)
Fixpoint second_pass (d : disk) (walk : list string)
  (globalTranslationMap : gmap string string) (keys : list TranslationKey)
  : list TranslationKey :=
  match walk with
  | [] => keys
  | path :: walk' =>
      if negb (HasSuffix path ".tsx")
      then second_pass d walk' globalTranslationMap keys
      else
        match parseFileWithMapping d path globalTranslationMap with
        | None => second_pass d walk' globalTranslationMap keys
        | Some fileKeys =>
            second_pass d walk' globalTranslationMap (keys ++ fileKeys)
        end
  end.

Definition extractTranslationKeys (d : disk) (walk : list string)
  : list TranslationKey :=
  second_pass d walk (first_pass d 0 walk ∅) [].

End Extraction.

(** *** JSON output *)

(** Byte-wise lexical order, the order of [sort.Strings] and of the keys of
    a marshalled map. *)
Definition string_le (a b : string) : Prop := String.leb a b = true.

#[global] Instance string_le_dec (a b : string) : Decision (string_le a b).
Proof. unfold string_le. apply _. Defined.

Definition sort_strings (l : list string) : list string :=
  merge_sort string_le l.

Definition newline : string := String (ascii_of_nat 10) EmptyString.

Section Marshal.

(** The JSON text of a string, quotes and escapes included, as encoding/json
    writes it. *)
Variable quote : string -> string.

Definition member (m : gmap string string) (key : string) : string :=
  "  " ++ quote key ++ ": " ++ quote (default "" (m !! key)).

(** [json.MarshalIndent(m, "", "  ")] of a map of strings: the keys sorted,
    one member a line, [{}] for the empty map. It has no error result for
    this type. *)
Definition MarshalIndent (m : gmap string string) : string :=
  match sort_strings (map fst (map_to_list m)) with
  | [] => "{}"
  | sorted =>
      "{" ++ newline
      ++ String.concat ("," ++ newline) (map (member m) sorted)
      ++ newline ++ "}"
  end.

End Marshal.

(** *** generateTranslationFiles *)

(** [namespaceKeys[key.Namespace] = append(namespaceKeys[key.Namespace],
    key.Key)] *)
Definition group_key (namespaceKeys : gmap string (list string))
  (key : TranslationKey) : gmap string (list string) :=
  <[Namespace key :=
      default [] (namespaceKeys !! Namespace key) ++ [Key key]]>
    namespaceKeys.

(** [uniqueKeys[key] = true] *)
Definition mark_key (uniqueKeys : gmap string bool) (key : string)
  : gmap string bool :=
  <[key := true]> uniqueKeys.

(** [translationMap[key] = ""] *)
Definition blank_key (translationMap : gmap string string)
  (kv : string * bool) : gmap string string :=
  <[kv.1 := ""]> translationMap.

Section Generate.

Variable range : forall V : Type, nat -> gmap string V -> list (string * V).
Variable quote : string -> string.

(** [filepath.Join] of a directory and a name. *)
Variable Join : string -> string -> string.

(** What one turn of the loop over the namespaces computes, [j] being the
    number of the turn: the dictionary, its JSON text, the file name. *)
Definition translationMap_of (j : nat) (keysList : list string)
  : gmap string string :=
  foldl blank_key ∅ (range _ (S j) (foldl mark_key ∅ keysList)).

Definition render (j : nat) (entry : string * list string)
  : string * string :=
  (entry.1, MarshalIndent quote (translationMap_of j entry.2)).

Definition fileName_of (rootDir namespace : string) : string :=
  Join (Join rootDir ".i18n") (namespace ++ ".json").

(** The namespaces of a run with their JSON text, in the order the loop
    reaches them. *)
Definition rendered (keys : list TranslationKey) : list (string * string) :=
  imap render (range _ 0 (foldl group_key ∅ keys)).

(** The files of a run, name and content, in the same order. *)
Definition generated (rootDir : string) (keys : list TranslationKey)
  : list (string * string) :=
  map (fun nj => (fileName_of rootDir nj.1, nj.2)) (rendered keys).

(** The writes of the loop, up to the first one that fails; the flag tells
    whether the function returns nil. *)
Fixpoint write_files (writable : string -> bool)
  (failure : string -> option nat) (files : list (string * string))
  (d : disk) : bool * disk :=
  match files with
  | [] => (true, d)
  | (fileName, jsonData) :: files' =>
      let '(written, d') := WriteFile writable failure d fileName jsonData in
      if written then write_files writable failure files' d' else (false, d')
  end.

Definition generateTranslationFiles (writable : string -> bool)
  (failure : string -> option nat) (rootDir : string)
  (keys : list TranslationKey) (d : disk) : bool * disk :=
  write_files writable failure (generated rootDir keys) d.

End Generate.

(** *** The walk of the tree *)

(** [shouldSkipDir] *)
Definition skipDirs : list string :=
  ["node_modules"; "vendor"; ".git"; ".next"; "dist"; "build"].

Definition shouldSkipDir (dirName : string) : bool :=
  existsb (String.eqb dirName) skipDirs.

(** What [filepath.WalkDir] finds: a file, or a directory with its entries
    in the order of the walk; [None] stands for a directory that cannot be
    listed. *)
#[local] Unset Elimination Schemes.

Inductive entry : Type :=
| File_ (name : string)
| Dir (name : string) (listing : option (list entry)).

#[local] Set Elimination Schemes.

Definition entry_name (e : entry) : string :=
  match e with
  | File_ name => name
  | Dir name _ => name
  end.

Section Walk.

Variable Join : string -> string -> string.

(** The paths for which the callbacks of extractTranslationKeys go past the
    test of shouldSkipDir, in order, and whether the walk ends with an
    error: WalkDir calls the function on a directory before it lists it, and
    once more with the error when the listing fails, which the callbacks
    return at once. *)
Fixpoint WalkDir (path : string) (e : entry) : list string * bool :=
  match e with
  | File_ _ => ([path], false)
  | Dir name listing =>
      if shouldSkipDir name then ([], false)
      else
        match listing with
        | None => ([path], true)
        | Some entries =>
            let inside :=
              (fix walk_all (es : list entry) : list string * bool :=
                 match es with
                 | [] => ([], false)
                 | e' :: es' =>
                     let '(seen, failed) :=
                       WalkDir (Join path (entry_name e')) e' in
                     if failed then (seen, true)
                     else
                       let '(seen', failed') := walk_all es' in
                       (seen ++ seen', failed')
                 end) entries in
            (path :: inside.1, inside.2)
        end
  end.

Variable range : forall V : Type, nat -> gmap string V -> list (string * V).

(** extractTranslationKeys on a tree: the error of the first walk is
    returned with no keys. *)
Definition extractTranslationKeys_in (d : disk) (rootDir : string)
  (root : entry) : option (list TranslationKey) :=
  let '(walk, failed) := WalkDir rootDir root in
  if failed then None else Some (extractTranslationKeys range d walk).

End Walk.

(** *** updateGitignore *)

(** [strings.Contains] *)
Fixpoint Contains (s substr : string) : bool :=
  String.prefix substr s
  || match s with
     | EmptyString => false
     | String _ s' => Contains s' substr
     end.

Definition ignore_line : string := ".i18n/" ++ newline.

(** The content updateGitignore writes, from what it has read. *)
Definition ignore_content (gitignoreExists : bool) (contentStr : string)
  : string :=
  if negb gitignoreExists then ignore_line
  else
    (if negb (HasSuffix contentStr newline) then contentStr ++ newline
     else contentStr) ++ ignore_line.

(** updateGitignore: whether it returns nil, and the disk it leaves. *)
Definition updateGitignore (Join : string -> string -> string)
  (writable : string -> bool) (failure : string -> option nat)
  (rootDir : string) (d : disk) : bool * disk :=
  let gitignorePath := Join rootDir ".gitignore" in
  match ReadFile d gitignorePath, IsNotExist d gitignorePath with
  | None, false => (false, d)
  | read, missing =>
      let gitignoreExists := negb missing in
      let contentStr := default "" read in
      if Contains contentStr ".i18n/" then (true, d)
      else
        WriteFile writable failure d gitignorePath
          (ignore_content gitignoreExists contentStr)
  end.

(** *** setupI18nDirectory *)

(** setupI18nDirectory; [None] is the error result. The root directory is
    the working directory of the process, so at most the one directory is
    made. *)
Definition setupI18nDirectory (Join : string -> string -> string)
  (mkdir : bool) (rootDir : string) (d : disk) : option disk :=
  MkdirAll mkdir d (Join rootDir ".i18n").

(** *** runI18n *)

(** runI18n: the exit status and the disk it leaves. [getwd] is the result
    of os.Getwd. *)
Definition runI18n
  (range : forall V : Type, nat -> gmap string V -> list (string * V))
  (quote : string -> string) (Join : string -> string -> string)
  (writable : string -> bool) (failure : string -> option nat)
  (getwd : option string) (mkdir : bool) (root : entry) (d : disk)
  : nat * disk :=
  match getwd with
  | None => (1, d)
  | Some workDir =>
      match extractTranslationKeys_in Join range d workDir root with
      | None => (1, d)
      | Some keys =>
          match setupI18nDirectory Join mkdir workDir d with
          | None => (1, d)
          | Some d0 =>
              let '(updated, d1) :=
                updateGitignore Join writable failure workDir d0 in
              if negb updated then (1, d1)
              else
                let '(written, d2) :=
                  generateTranslationFiles range quote Join writable failure
                    workDir keys d1 in
                if written then (0, d2) else (1, d2)
          end
      end
  end.

End I18n.

(** ** i18n.go: parseFile, the one-file extraction of the first revision,
    which the second revision keeps and no longer calls *)

Module I18nFirst.

Import Chars Regexp I18n.

(** The pattern parseFile builds for a declared alias: the alias, quoted by
    regexp.QuoteMeta so that it stands for itself, then as in
    parseFileWithMapping: \s* \( \s* Q ( NQ+ ) Q \s* \) *)
Definition callRegex (tVar : string) : regexp :=
  word tVar ++ [Plain (Star is_space); Plain (Chr "(");
    Plain (Star is_space); Plain (Cls is_quote); Group [Plus not_quote];
    Plain (Cls is_quote); Plain (Star is_space); Plain (Chr ")")].

(** [if len(callMatch) >= 2 { keys = append(keys, ...) }] *)
Definition record_key (filePath namespace : string)
  (keys : list TranslationKey) (callMatch : list string)
  : list TranslationKey :=
  match callMatch !! 1%nat with
  | Some key => keys ++ [mkTranslationKey key namespace filePath]
  | None => keys
  end.

(** One turn of the loop over the aliases the file declares. *)
Definition record_alias (filePath contentStr : string)
  (keys : list TranslationKey) (binding : string * string)
  : list TranslationKey :=
  foldl (record_key filePath binding.2) keys
    (FindAllStringSubmatch (callRegex binding.1) contentStr).

Section FirstRevision.

Variable range : forall V : Type, nat -> gmap string V -> list (string * V).

(** The body of parseFile once the file is read; [i] numbers the range
    over the map of the file. *)
Definition parsed_keys (i : nat) (filePath contentStr : string)
  : list TranslationKey :=
  foldl (record_alias filePath contentStr) []
    (range _ i (declarations contentStr)).

Definition parseFile (d : disk) (i : nat) (filePath : string)
  : option (list TranslationKey) :=
  match ReadFile d filePath with
  | None => None
  | Some content => Some (parsed_keys i filePath content)
  end.

End FirstRevision.

End I18nFirst.

(** ** join_i18n.go *)

Module JoinI18n.

Import I18n.

(** The calls the command makes on the file system, in order. *)
Inductive syscall : Type :=
| SysStat (path : string)
| SysRead (path : string)
| SysWrite (path : string) (data : string).

Record world : Type := World {
  fs : disk;
  trace : list syscall
}.

Definition os_Stat (w : world) (path : string) : bool * world :=
  (IsNotExist (fs w) path, World (fs w) (trace w ++ [SysStat path])).

Definition os_ReadFile (w : world) (path : string) : option string * world :=
  (ReadFile (fs w) path, World (fs w) (trace w ++ [SysRead path])).

Definition os_WriteFile (writable : string -> bool)
  (failure : string -> option nat) (w : world) (path data : string)
  : bool * world :=
  let '(written, d) := WriteFile writable failure (fs w) path data in
  (written, World d (trace w ++ [SysWrite path data])).

(** The body of the loop over the entries of one file in mergeJSONFiles. *)
Definition merge_entry (merged : gmap string string) (kv : string * string)
  : gmap string string :=
  match merged !! kv.1 with
  | None => <[kv.1 := kv.2]> merged
  | Some existingValue =>
      if String.eqb existingValue "" && negb (String.eqb kv.2 "")
      then <[kv.1 := kv.2]> merged
      else merged
  end.

Section Join.

Variable range : forall V : Type, nat -> gmap string V -> list (string * V).

(** [json.Unmarshal] into a [map[string]string]; [None] is the error
    result. *)
Variable Unmarshal : string -> option (gmap string string).

Variable quote : string -> string.
Variable writable : string -> bool.
Variable failure : string -> option nat.

(** The validation loop of runJoinI18n; [false] stands for [os.Exit(1)]. *)
Fixpoint validate (args : list string) (w : world) : bool * world :=
  match args with
  | [] => (true, w)
  | file :: args' =>
      if negb (HasSuffix file ".json") then (false, w)
      else
        let '(missing, w1) := os_Stat w file in
        if missing then (false, w1) else validate args' w1
  end.

(** The loop over the entries of the [i]-th file in mergeJSONFiles. *)
Definition merge_data (i : nat) (merged data : gmap string string)
  : gmap string string :=
  foldl merge_entry merged (range _ i data).

(** The loop of mergeJSONFiles; [i] counts the files read. *)
Fixpoint merge_from (i : nat) (files : list string)
  (merged : gmap string string) (w : world)
  : option (gmap string string) * world :=
  match files with
  | [] => (Some merged, w)
  | file :: files' =>
      let '(content, w1) := os_ReadFile w file in
      match content with
      | None => (None, w1)
      | Some content =>
          match Unmarshal content with
          | None => (None, w1)
          | Some data => merge_from (S i) files' (merge_data i merged data) w1
          end
      end
  end.

Definition mergeJSONFiles (files : list string) (w : world)
  : option (gmap string string) * world :=
  merge_from 0 files ∅ w.

(** writeJSONFile; the range over [data] is the one after those of the
    [n] files merged. *)
Definition writeJSONFile (n : nat) (filename : string)
  (data : gmap string string) (w : world) : bool * world :=
  let keys := sort_strings (map fst (range _ n data)) in
  let orderedData :=
    foldl (fun m key => <[key := default "" (data !! key)]> m) ∅ keys in
  os_WriteFile writable failure w filename
    (MarshalIndent quote orderedData).

(** [generateRandomFileName], given the hexadecimal text of the random
    bytes. *)
Definition generateRandomFileName (hex : string) : string :=
  "merged_i18n_" ++ hex.

(** The name of the output file in runJoinI18n. *)
Definition output_path (outputFile hex : string) : string :=
  let output :=
    if String.eqb outputFile "" then generateRandomFileName hex
    else outputFile in
  if negb (HasSuffix output ".json") then (output ++ ".json")%string
  else output.

(** runJoinI18n: the exit status (0 when the function returns) and the
    world it leaves. *)
Definition runJoinI18n (args : list string) (outputFile hex : string)
  (w : world) : nat * world :=
  let '(valid, w1) := validate args w in
  if negb valid then (1, w1)
  else
    let '(merged, w2) := mergeJSONFiles args w1 in
    match merged with
    | None => (1, w2)
    | Some merged =>
        let '(written, w3) :=
          writeJSONFile (length args) (output_path outputFile hex) merged w2
        in
        if negb written then (1, w3) else (0, w3)
    end.

End Join.

End JoinI18n.


(** * Notions used to state the properties *)

Module Notions.

Import Chars Regexp I18n.

Abbreviation str := string_of_list_ascii.
Abbreviation bytes := list_ascii_of_string.

(** The bodies of the groups of a pattern, in order. *)
Fixpoint bodies (re : regexp) : list (list item) :=
  match re with
  | [] => []
  | Plain _ :: re' => bodies re'
  | Group body :: re' => body :: bodies re'
  end.

(** [g] is a text that the items [body] can take somewhere. *)
Definition taken_by (body : list item) (g : list ascii) : Prop :=
  exists prev s r, In (g, r) (match_items body prev s).

(** The next byte, if any, is outside the class. *)
Definition stops (p : ascii -> bool) (r : list ascii) : Prop :=
  match r with
  | a :: _ => p a = false
  | [] => True
  end.

(** No match begins at a byte of [pre]. *)
Definition barren (re : regexp) (pre : list ascii) : Prop :=
  Forall (fun a => forall prev s, match_here re prev (a :: s) = None) pre.

(** Every match takes at least one byte. *)
Definition productive (re : regexp) : Prop :=
  forall prev s r, In r (match_nodes re prev s) -> whole r <> [].

(** The items of a pattern, those of its groups included, in order. *)
Definition items_of (re : regexp) : list item :=
  flat_map (fun n => match n with Plain i => [i] | Group body => body end) re.

(** The texts an item takes. *)
Definition item_text (i : item) (t : list ascii) : Prop :=
  match i with
  | Chr c => t = [c]
  | Cls p => exists a, t = [a] /\ p a = true
  | Star p => forallb p t = true
  | Plus p => t <> [] /\ forallb p t = true
  | WordBoundary => t = []
  end.

(** The item can take a text that holds the byte. *)
Definition takes_byte (i : item) (c : ascii) : bool :=
  match i with
  | Chr c' => Ascii.eqb c c'
  | Cls p | Star p | Plus p => p c
  | WordBoundary => false
  end.

(** The places, counted from [n], of the items that can take the byte. *)
Fixpoint positions (c : ascii) (n : nat) (its : list item) : list nat :=
  match its with
  | [] => []
  | i :: its' =>
      (if takes_byte i c then [n] else []) ++ positions c (S n) its'
  end.

(** Every match that begins at a byte of [pre], in the text [pre ++ s]
    scanned from the context [prev], ends within [pre]. *)
Definition clear_of (re : regexp) (prev : context) (pre s : list ascii)
  : Prop :=
  forall a b r,
    pre = a ++ b -> b <> [] ->
    In r (match_nodes re (after prev a) (b ++ s)) ->
    length (whole r) <= length b.

(** What is left of a text after its leading bytes of a class. *)
Fixpoint skip (p : ascii -> bool) (s : list ascii) : list ascii :=
  match s with
  | a :: s' => if p a then skip p s' else s
  | [] => []
  end.

(** The text ends inside a quoted argument that is still open: it holds a
    quote, and before the last one stand an opening parenthesis and
    blanks. The text is read from its end. *)
Definition open_key (pre : list ascii) : bool :=
  match skip not_quote (rev pre) with
  | _ :: before =>
      match skip is_space before with
      | a :: _ => Ascii.eqb a "("
      | [] => false
      end
  | [] => false
  end.

(** The shape of an alias of the call pattern. *)
Definition alias_shape (g : list ascii) : Prop :=
  exists c tl,
    g = "t"%char :: c :: tl /\ is_letter c = true
    /\ forallb is_alnum tl = true.

(** The text of a call: alias, blanks, the parenthesised quoted key. *)
Definition call_text (alias ws1 ws2 : list ascii) (q1 : ascii)
  (key : list ascii) (q2 : ascii) (ws3 : list ascii) : list ascii :=
  alias ++ ws1 ++ "("%char :: ws2 ++ q1 :: key ++ q2 :: ws3 ++ [")"%char].

Record call_form (alias ws1 ws2 : list ascii) (q1 : ascii)
  (key : list ascii) (q2 : ascii) (ws3 : list ascii) : Prop := {
  cf_alias : alias_shape alias;
  cf_ws1 : forallb is_space ws1 = true;
  cf_ws2 : forallb is_space ws2 = true;
  cf_ws3 : forallb is_space ws3 = true;
  cf_q1 : is_quote q1 = true;
  cf_q2 : is_quote q2 = true;
  cf_key : key <> [];
  cf_nq : forallb not_quote key = true
}.

(** The blanks a declaration may hold, in order. *)
Record blanks : Type := Blanks {
  after_const : list ascii;
  after_brace : list ascii;
  after_colon : list ascii;
  after_alias : list ascii;
  after_close : list ascii;
  after_equal : list ascii;
  after_name : list ascii;
  after_paren : list ascii;
  after_quote : list ascii
}.

Definition all_blank (b : blanks) : Prop :=
  Forall (fun ws => forallb is_space ws = true)
    [after_const b; after_brace b; after_colon b; after_alias b;
     after_close b; after_equal b; after_name b; after_paren b;
     after_quote b].

(** The text of a declaration. *)
Definition declaration_text (b : blanks) (alias : list ascii) (q1 : ascii)
  (namespace : list ascii) (q2 : ascii) : list ascii :=
  list_ascii_of_string "const" ++ after_const b ++ "{"%char :: after_brace b
  ++ "t"%char :: ":"%char :: after_colon b ++ alias ++ after_alias b
  ++ "}"%char :: after_close b ++ "="%char :: after_equal b
  ++ list_ascii_of_string "useTranslation" ++ after_name b
  ++ "("%char :: after_paren b ++ q1 :: namespace ++ q2 :: after_quote b
  ++ [")"%char].

Record declaration_form (b : blanks) (alias : list ascii) (q1 : ascii)
  (namespace : list ascii) (q2 : ascii) : Prop := {
  df_blanks : all_blank b;
  df_alias : alias <> [];
  df_word : forallb is_word alias = true;
  df_q1 : is_quote q1 = true;
  df_q2 : is_quote q2 = true;
  df_namespace : namespace <> [];
  df_nq : forallb not_quote namespace = true
}.

(** The entry the loop of parseFileWithMapping adds for one match. *)
Definition entry_of (filePath : string) (m : gmap string string)
  (callMatch : list string) : list TranslationKey :=
  match callMatch !! 1%nat, callMatch !! 2%nat with
  | Some tVariable, Some key =>
      [mkTranslationKey key (resolve m tVariable) filePath]
  | _, _ => []
  end.

(** The shape of a submatch of the call pattern, as strings. *)
Definition call_submatch (callMatch : list string) : Prop :=
  exists text c tl key,
    callMatch = [text; String "t" (String c tl); key]
    /\ is_letter c = true
    /\ forallb is_alnum (bytes tl) = true
    /\ key <> ""
    /\ forallb not_quote (bytes key) = true.

(** The alias and the namespace a submatch of the declaration pattern
    binds. *)
Definition binding_of (match_ : list string) : option (string * string) :=
  match match_ !! 1%nat, match_ !! 2%nat with
  | Some tVariable, Some namespace => Some (tVariable, namespace)
  | _, _ => None
  end.

(** The declarations the scan finds in a text, in the order of the scan. *)
Definition scanned (contentStr : string) : list (string * string) :=
  omap binding_of (FindAllStringSubmatch useTranslationRegex contentStr).

(** The declarations found in one path of the walk: none unless the path
    ends in .tsx and can be read. *)
Definition file_bindings (d : gmap string inode) (path : string)
  : list (string * string) :=
  if HasSuffix path ".tsx"
  then match ReadFile d path with
       | Some content => scanned content
       | None => []
       end
  else [].

(** The declarations found in the whole walk, in order. *)
Definition walk_bindings (d : gmap string inode) (walk : list string)
  : list (string * string) :=
  flat_map (file_bindings d) walk.

(** The namespace of the last declaration of [x] in a list of them. *)
Definition last_binding (x : string) (bindings : list (string * string))
  : option string :=
  snd <$> last (filter (fun b => b.1 = x) bindings).

(** The shape of a submatch of the declaration pattern, as strings. *)
Definition declaration_submatch (match_ : list string) : Prop :=
  exists text alias namespace,
    match_ = [text; alias; namespace]
    /\ alias <> "" /\ forallb is_word (bytes alias) = true
    /\ namespace <> "" /\ forallb not_quote (bytes namespace) = true.

(** A string that is not empty and holds neither quote character. *)
Definition plain_text (s : string) : Prop :=
  s <> "" /\ forallb not_quote (bytes s) = true.

(** Every [range] enumerates the entries of its map, each once. *)
Definition enumerates
  (range : forall V : Type, nat -> gmap string V -> list (string * V))
  : Prop :=
  forall (V : Type) (n : nat) (m : gmap string V),
    range V n m ≡ₚ map_to_list m.

(** *** Notions for the merge *)

(** Merging dictionaries already read and parsed, from the [i]-th on. *)
Fixpoint merge_dicts
  (range : forall V : Type, nat -> gmap string V -> list (string * V))
  (i : nat) (ds : list (gmap string string)) (merged : gmap string string)
  : gmap string string :=
  match ds with
  | [] => merged
  | data :: ds' =>
      merge_dicts range (S i) ds' (JoinI18n.merge_data range i merged data)
  end.

(** The files [files] can be read and parse to the dictionaries [ds]. *)
Definition parsed (Unmarshal : string -> option (gmap string string))
  (d : gmap string inode) (files : list string)
  (ds : list (gmap string string)) : Prop :=
  Forall2
    (fun file data =>
       exists content,
         ReadFile d file = Some content /\ Unmarshal content = Some data)
    files ds.

(** The first value that is not empty, the empty string when all are, and
    nothing when there is no value. *)
Definition first_nonempty (values : list string) : option string :=
  match filter (fun v => v <> "") values with
  | v :: _ => Some v
  | [] => match values with [] => None | _ :: _ => Some "" end
  end.

(** The values a key has in a list of dictionaries, in order. *)
Definition values_of (key : string) (ds : list (gmap string string))
  : list string :=
  omap (fun data : gmap string string => data !! key) ds.

(** A path passes the validation loop of runJoinI18n. *)
Definition valid_input (d : gmap string inode) (file : string) : bool :=
  HasSuffix file ".json" && negb (IsNotExist d file).

(** A path can be read and its content parses. *)
Definition parses (Unmarshal : string -> option (gmap string string))
  (d : gmap string inode) (file : string) : bool :=
  match ReadFile d file with
  | Some content =>
      match Unmarshal content with Some _ => true | None => false end
  | None => false
  end.

(** What one more value for a key does to the value merged so far. *)
Definition merge_value (existing : option string) (value : string)
  : option string :=
  match existing with
  | None => Some value
  | Some existingValue =>
      if String.eqb existingValue "" && negb (String.eqb value "")
      then Some value
      else Some existingValue
  end.

(** The JSON text of a string that needs no escape. *)
Definition quote_plain (s : string) : string :=
  String dquote (s ++ String dquote "").

(** A parser that knows the text of the dictionaries [known]. *)
Definition Unmarshal_among (known : list (gmap string string))
  (content : string) : option (gmap string string) :=
  head (filter (fun m => MarshalIndent quote_plain m = content) known).

(** *** Notions for the writer *)

(** Strict byte-wise lexical order. *)
Definition string_lt (a b : string) : Prop := String.ltb a b = true.

(** The keys of the entries of a namespace, in the order of the entries. *)
Definition keys_of (ns : string) (keys : list TranslationKey)
  : list string :=
  map Key (filter (fun e => Namespace e = ns) keys).

(** The dictionary that gives the empty string to each key of a list. *)
Definition blank_dictionary (keysList : list string) : gmap string string :=
  gset_to_gmap "" (list_to_set keysList).

(** A member line for a key with the empty value, two blanks before it. *)
Definition blank_member (quote : string -> string) (key : string) : string :=
  "  " ++ quote key ++ ": " ++ quote "".

(** A JSON object of at least one member, a member a line. *)
Definition object_text (members : list string) : string :=
  "{" ++ newline ++ String.concat ("," ++ newline) members ++ newline ++ "}".

(** *** Notions for the walk *)

(** The entries of a directory, walked one after the other. *)
Fixpoint walk_entries (Join : string -> string -> string) (path : string)
  (es : list entry) : list string * bool :=
  match es with
  | [] => ([], false)
  | e :: es' =>
      let '(seen, failed) := WalkDir Join (Join path (entry_name e)) e in
      if failed then (seen, true)
      else
        let '(seen', failed') := walk_entries Join path es' in
        (seen ++ seen', failed')
  end.

(** [p] is the path of [e], or of an entry below it, and no directory from
    [e] down to it bears a name that shouldSkipDir refuses. *)
Inductive reaches (Join : string -> string -> string)
  : string -> entry -> string -> Prop :=
| reaches_file path name : reaches Join path (File_ name) path
| reaches_dir path name listing :
    shouldSkipDir name = false -> reaches Join path (Dir name listing) path
| reaches_inside path name entries e p :
    shouldSkipDir name = false -> e ∈ entries ->
    reaches Join (Join path (entry_name e)) e p ->
    reaches Join path (Dir name (Some entries)) p.

(** The walk of [e] meets a directory that cannot be listed, under no
    directory that shouldSkipDir refuses. *)
Inductive blocked : entry -> Prop :=
| blocked_here name : shouldSkipDir name = false -> blocked (Dir name None)
| blocked_inside name entries e :
    shouldSkipDir name = false -> e ∈ entries -> blocked e ->
    blocked (Dir name (Some entries)).

(** Induction on a tree, with the property for the entries of a
    directory. *)
Fixpoint entry_induction (P : entry -> Prop)
  (Hfile : forall name, P (File_ name))
  (Hclosed : forall name, P (Dir name None))
  (Hdir : forall name es, Forall P es -> P (Dir name (Some es)))
  (e : entry) {struct e} : P e :=
  match e with
  | File_ name => Hfile name
  | Dir name None => Hclosed name
  | Dir name (Some es) =>
      Hdir name es
        ((fix all (l : list entry) : Forall P l :=
            match l with
            | [] => @List.Forall_nil entry P
            | x :: l' =>
                @List.Forall_cons entry P x l'
                  (entry_induction P Hfile Hclosed Hdir x) (all l')
            end) es)
  end.

(** The entries parseFileWithMapping adds for one path of the walk. *)
Definition file_calls (d : gmap string inode) (m : gmap string string)
  (path : string) : list TranslationKey :=
  if HasSuffix path ".tsx"
  then match ReadFile d path with
       | Some content => calls path content m
       | None => []
       end
  else [].

(** *** Notions for the files written *)

(** The disk after the files of a list are written, one after the other. *)
Definition store (d : gmap string inode) (files : list (string * string))
  : gmap string inode :=
  foldl (fun d' file => <[file.1 := Regular file.2]> d') d files.

(** The files of a list before the first whose name cannot be written. *)
Fixpoint writable_prefix (writable : string -> bool)
  (files : list (string * string)) : list (string * string) :=
  match files with
  | [] => []
  | file :: files' =>
      if writable file.1 then file :: writable_prefix writable files'
      else []
  end.

(** The first file of a list whose name cannot be written. *)
Fixpoint first_unwritable (writable : string -> bool)
  (files : list (string * string)) : option (string * string) :=
  match files with
  | [] => None
  | file :: files' =>
      if writable file.1 then first_unwritable writable files'
      else Some file
  end.

(** The disk after the files of a list are written up to the first that
    cannot be, and that one is tried. *)
Definition attempted (writable : string -> bool)
  (failure : string -> option nat) (d : gmap string inode)
  (files : list (string * string)) : gmap string inode :=
  match first_unwritable writable files with
  | None => store d files
  | Some file =>
      left_by failure (store d (writable_prefix writable files))
        file.1 file.2
  end.

(** Entries of different namespaces go to different files. *)
Definition separate_files (Join : string -> string -> string)
  (rootDir : string) (keys : list TranslationKey) : Prop :=
  forall e1 e2,
    e1 ∈ keys -> e2 ∈ keys ->
    fileName_of Join rootDir (Namespace e1)
    = fileName_of Join rootDir (Namespace e2) ->
    Namespace e1 = Namespace e2.

(** The file of every entry can be written. *)
Definition all_writable (Join : string -> string -> string)
  (writable : string -> bool) (rootDir : string)
  (keys : list TranslationKey) : Prop :=
  forall e,
    e ∈ keys -> writable (fileName_of Join rootDir (Namespace e)) = true.

(** *** Notions for the first revision *)

(** The entry parseFile adds for one match of the pattern of an alias. *)
Definition key_entry (filePath namespace : string) (callMatch : list string)
  : list TranslationKey :=
  match callMatch !! 1%nat with
  | Some key => [mkTranslationKey key namespace filePath]
  | None => []
  end.

(** The entries parseFile adds for one declared alias. *)
Definition alias_entries (filePath contentStr : string)
  (binding : string * string) : list TranslationKey :=
  flat_map (key_entry filePath binding.2)
    (FindAllStringSubmatch (I18nFirst.callRegex binding.1) contentStr).

End Notions.

(** * Facts about the matcher *)

Module RegexpFacts.

Import Chars Regexp Notions.

(** ** What a match is made of *)

Lemma star_split p s t r : In (t, r) (star p s) -> s = t ++ r.
Proof.
  revert t r. induction s as [|a s IH]; intros t r; simpl.
  - intros [[= <- <-]|[]]. reflexivity.
  - destruct (p a).
    + rewrite in_app_iff, in_map_iff. intros [[[t' r'] [[= <- <-] Hin]]|[[= <- <-]|[]]].
      * simpl. f_equal. apply IH. exact Hin.
      * reflexivity.
    + intros [[= <- <-]|[]]. reflexivity.
Qed.

Lemma star_class p s t r : In (t, r) (star p s) -> forallb p t = true.
Proof.
  revert t r. induction s as [|a s IH]; intros t r; simpl.
  - intros [[= <- <-]|[]]. reflexivity.
  - destruct (p a) eqn:Hp.
    + rewrite in_app_iff, in_map_iff. intros [[[t' r'] [[= <- <-] Hin]]|[[= <- <-]|[]]].
      * simpl. rewrite Hp. simpl. eapply IH. exact Hin.
      * reflexivity.
    + intros [[= <- <-]|[]]. reflexivity.
Qed.

(** What an item takes is a prefix of the input. *)
Lemma match_item_split i prev s t r :
  In (t, r) (match_item i prev s) -> s = t ++ r.
Proof.
  destruct i as [c|p|p|p|]; simpl.
  - destruct s as [|a s]; [intros []|]. destruct (Ascii.eqb a c); [|intros []].
    intros [[= <- <-]|[]]. reflexivity.
  - destruct s as [|a s]; [intros []|]. destruct (p a); [|intros []].
    intros [[= <- <-]|[]]. reflexivity.
  - apply star_split.
  - destruct s as [|a s]; [intros []|]. destruct (p a); [|intros []].
    rewrite in_map_iff. intros [[t' r'] [[= <- <-] Hin]]. simpl. f_equal.
    eapply star_split. exact Hin.
  - destruct (at_boundary prev s); [|intros []].
    intros [[= <- <-]|[]]. reflexivity.
Qed.

Lemma match_items_split its prev s t r :
  In (t, r) (match_items its prev s) -> s = t ++ r.
Proof.
  revert prev s t r. induction its as [|i its IH]; intros prev s t r; simpl.
  - intros [[= <- <-]|[]]. reflexivity.
  - rewrite in_flat_map. intros [[t1 r1] [H1 H2]].
    apply in_map_iff in H2 as [[t2 r2] [[= <- <-] H2]]. simpl in *.
    apply match_item_split in H1. apply IH in H2. subst. apply app_assoc.
Qed.

(** A match splits the input into its text and the rest. *)
Lemma match_nodes_split re prev s r :
  In r (match_nodes re prev s) -> s = whole r ++ rest r.
Proof.
  revert prev s r. induction re as [|[i|body] re IH]; intros prev s r; simpl.
  - intros [<-|[]]. reflexivity.
  - rewrite in_flat_map. intros [[t1 r1] [H1 H2]].
    apply in_map_iff in H2 as [r2 [<- H2]]. simpl in *.
    apply match_item_split in H1. apply IH in H2. subst. apply app_assoc.
  - rewrite in_flat_map. intros [[t1 r1] [H1 H2]].
    apply in_map_iff in H2 as [r2 [<- H2]]. simpl in *.
    apply match_items_split in H1. apply IH in H2. subst. apply app_assoc.
Qed.

(** The groups of a match are texts taken by the bodies of the groups. *)
Lemma match_nodes_groups re prev s r :
  In r (match_nodes re prev s) -> Forall2 taken_by (bodies re) (groups r).
Proof.
  revert prev s r. induction re as [|[i|body] re IH]; intros prev s r; simpl.
  - intros [<-|[]]. constructor.
  - rewrite in_flat_map. intros [[t1 r1] [H1 H2]].
    apply in_map_iff in H2 as [r2 [<- H2]]. simpl. eapply IH. exact H2.
  - rewrite in_flat_map. intros [[t1 r1] [H1 H2]].
    apply in_map_iff in H2 as [r2 [<- H2]]. simpl. constructor.
    + exists prev, s, r1. exact H1.
    + eapply IH. exact H2.
Qed.

(** The text of a match holds the text of all its groups. *)
Lemma match_nodes_groups_length re prev s r :
  In r (match_nodes re prev s) ->
  length (concat (groups r)) <= length (whole r).
Proof.
  revert prev s r. induction re as [|[i|body] re IH]; intros prev s r; simpl.
  - intros [<-|[]]. simpl. lia.
  - rewrite in_flat_map. intros [[t1 r1] [H1 H2]].
    apply in_map_iff in H2 as [r2 [<- H2]]. simpl. apply IH in H2.
    rewrite length_app. lia.
  - rewrite in_flat_map. intros [[t1 r1] [H1 H2]].
    apply in_map_iff in H2 as [r2 [<- H2]]. simpl. apply IH in H2.
    rewrite !length_app. lia.
Qed.

(** ** The match found first *)

Lemma star_longest p t r :
  forallb p t = true -> stops p r -> head (star p (t ++ r)) = Some (t, r).
Proof.
  intros Ht Hr. induction t as [|a t IH]; simpl.
  - destruct r as [|b r]; [reflexivity|]. simpl in *. rewrite Hr. reflexivity.
  - simpl in Ht. apply andb_true_iff in Ht as [Ha Ht]. rewrite Ha.
    specialize (IH Ht). destruct (star p (t ++ r)) as [|[t' r'] l]; [discriminate|].
    simpl in *. congruence.
Qed.

Lemma head_flat_map {A B : Type} (f : A -> list B) l x y :
  head l = Some x -> head (f x) = Some y -> head (flat_map f l) = Some y.
Proof.
  destruct l as [|x' l]; [discriminate|]. intros [= ->]. simpl.
  destruct (f x) as [|y' l']; [discriminate|]. intros [= ->]. reflexivity.
Qed.

Lemma head_map {A B : Type} (f : A -> B) l x :
  head l = Some x -> head (map f l) = Some (f x).
Proof. destruct l; [discriminate|]. intros [= ->]. reflexivity. Qed.

Lemma take_chr c prev s :
  head (match_item (Chr c) prev (c :: s)) = Some ([c], s).
Proof. simpl. rewrite Ascii.eqb_refl. reflexivity. Qed.

Lemma take_cls p a prev s :
  p a = true -> head (match_item (Cls p) prev (a :: s)) = Some ([a], s).
Proof. intros H. simpl. rewrite H. reflexivity. Qed.

Lemma take_star p t r prev :
  forallb p t = true -> stops p r ->
  head (match_item (Star p) prev (t ++ r)) = Some (t, r).
Proof. apply star_longest. Qed.

Lemma take_plus p t r prev :
  t <> [] -> forallb p t = true -> stops p r ->
  head (match_item (Plus p) prev (t ++ r)) = Some (t, r).
Proof.
  destruct t as [|a t]; [congruence|]. intros _ Ht Hr. simpl in *.
  apply andb_true_iff in Ht as [Ha Ht]. rewrite Ha.
  apply (head_map (fun r0 => (a :: fst r0, snd r0)) _ (t, r)).
  apply star_longest; assumption.
Qed.

Lemma take_boundary prev s :
  at_boundary prev s = true ->
  head (match_item WordBoundary prev s) = Some ([], s).
Proof. intros H. simpl. rewrite H. reflexivity. Qed.

Lemma take_items_nil prev s : head (match_items [] prev s) = Some ([], s).
Proof. reflexivity. Qed.

Lemma take_items_cons i its prev s t1 s1 t2 s2 :
  head (match_item i prev s) = Some (t1, s1) ->
  head (match_items its (after prev t1) s1) = Some (t2, s2) ->
  head (match_items (i :: its) prev s) = Some (t1 ++ t2, s2).
Proof.
  intros H1 H2. simpl. eapply head_flat_map; [exact H1|]. simpl.
  apply (head_map (fun r2 => (t1 ++ fst r2, snd r2)) _ (t2, s2)). exact H2.
Qed.

Lemma match_here_nil prev s : match_here [] prev s = Some (Result [] [] s).
Proof. reflexivity. Qed.

Lemma match_here_plain i re prev s t s1 w g r :
  head (match_item i prev s) = Some (t, s1) ->
  match_here re (after prev t) s1 = Some (Result w g r) ->
  match_here (Plain i :: re) prev s = Some (Result (t ++ w) g r).
Proof.
  intros H1 H2. unfold match_here in *. simpl.
  eapply head_flat_map; [exact H1|]. simpl.
  apply (head_map (fun r2 => Result (t ++ whole r2) (groups r2) (rest r2))
           _ (Result w g r)).
  exact H2.
Qed.

Lemma match_here_group body re prev s t s1 w g r :
  head (match_items body prev s) = Some (t, s1) ->
  match_here re (after prev t) s1 = Some (Result w g r) ->
  match_here (Group body :: re) prev s = Some (Result (t ++ w) (t :: g) r).
Proof.
  intros H1 H2. unfold match_here in *. simpl.
  eapply head_flat_map; [exact H1|]. simpl.
  apply (head_map
           (fun r2 => Result (t ++ whole r2) (t :: groups r2) (rest r2))
           _ (Result w g r)).
  exact H2.
Qed.

Lemma match_here_In re prev s r :
  match_here re prev s = Some r -> In r (match_nodes re prev s).
Proof.
  unfold match_here. destruct (match_nodes re prev s); [discriminate|].
  intros [= ->]. left. reflexivity.
Qed.

(** ** The byte before the position only matters as word or not *)

Lemma after_nil prev : after prev [] = prev.
Proof. reflexivity. Qed.

Lemma after_after prev t1 t2 : after (after prev t1) t2 = after prev (t1 ++ t2).
Proof.
  unfold after. rewrite last_app. destruct (last t2); [reflexivity|].
  destruct (last t1); reflexivity.
Qed.

Lemma after_context p1 p2 t :
  word_before p1 = word_before p2 ->
  word_before (after p1 t) = word_before (after p2 t).
Proof. intros H. unfold after. destruct (last t); [reflexivity|exact H]. Qed.

Lemma match_item_context i p1 p2 s :
  word_before p1 = word_before p2 -> match_item i p1 s = match_item i p2 s.
Proof.
  intros H. destruct i; try reflexivity. simpl. unfold at_boundary.
  rewrite H. reflexivity.
Qed.

Lemma match_items_context its p1 p2 s :
  word_before p1 = word_before p2 ->
  match_items its p1 s = match_items its p2 s.
Proof.
  revert p1 p2 s. induction its as [|i its IH]; intros p1 p2 s H; simpl.
  - reflexivity.
  - rewrite (match_item_context i p1 p2 s H).
    apply flat_map_ext. intros [t1 r1]. simpl.
    rewrite (IH (after p1 t1) (after p2 t1)); [reflexivity|].
    apply after_context. exact H.
Qed.

Lemma match_nodes_context re p1 p2 s :
  word_before p1 = word_before p2 ->
  match_nodes re p1 s = match_nodes re p2 s.
Proof.
  revert p1 p2 s. induction re as [|[i|body] re IH]; intros p1 p2 s H; simpl.
  - reflexivity.
  - rewrite (match_item_context i p1 p2 s H).
    apply flat_map_ext. intros [t1 r1]. simpl.
    rewrite (IH (after p1 t1) (after p2 t1)); [reflexivity|].
    apply after_context. exact H.
  - rewrite (match_items_context body p1 p2 s H).
    apply flat_map_ext. intros [t1 r1]. simpl.
    rewrite (IH (after p1 t1) (after p2 t1)); [reflexivity|].
    apply after_context. exact H.
Qed.

Lemma search_context re p1 p2 s :
  word_before p1 = word_before p2 -> search re p1 s = search re p2 s.
Proof.
  intros H. destruct s as [|a s]; simpl; unfold match_here;
    rewrite (match_nodes_context re p1 p2 _ H); reflexivity.
Qed.

Lemma find_all_context fuel re p1 p2 s :
  word_before p1 = word_before p2 ->
  find_all_from fuel re p1 s = find_all_from fuel re p2 s.
Proof.
  intros H. destruct fuel as [|fuel]; simpl; [reflexivity|].
  rewrite (search_context re p1 p2 s H). reflexivity.
Qed.

(** ** The search and the loop *)

Lemma search_here re prev s r :
  match_here re prev s = Some r -> search re prev s = Some r.
Proof. intros H. destruct s; simpl; rewrite H; reflexivity. Qed.

Lemma search_sound re prev s r :
  search re prev s = Some r ->
  exists skipped,
    s = skipped ++ whole r ++ rest r
    /\ In r (match_nodes re (after prev skipped) (whole r ++ rest r)).
Proof.
  revert prev. induction s as [|a s IH]; intros prev; simpl.
  - destruct (match_here re prev []) as [r'|] eqn:E; [|discriminate].
    intros [= ->]. exists []. apply match_here_In in E.
    pose proof (match_nodes_split _ _ _ _ E) as Hs. rewrite <- Hs.
    split; [reflexivity|exact E].
  - destruct (match_here re prev (a :: s)) as [r'|] eqn:E.
    + intros [= ->]. exists []. apply match_here_In in E.
      pose proof (match_nodes_split _ _ _ _ E) as Hs. rewrite <- Hs.
      split; [reflexivity|exact E].
    + intros H. apply IH in H as [skipped [Hs Hin]].
      exists (a :: skipped). split; [simpl; congruence|].
      change (a :: skipped) with ([a] ++ skipped).
      rewrite <- (after_after prev [a] skipped). exact Hin.
Qed.

Lemma search_skip re prev pre s :
  barren re pre -> search re prev (pre ++ s) = search re (after prev pre) s.
Proof.
  intros H. revert prev. induction H as [|a pre Ha H IH]; intros prev.
  - reflexivity.
  - simpl. rewrite Ha. rewrite IH.
    change (a :: pre) with ([a] ++ pre).
    rewrite <- (after_after prev [a] pre). reflexivity.
Qed.

Lemma search_shorter re prev s r :
  productive re -> search re prev s = Some r -> length (rest r) < length s.
Proof.
  intros Hp H. apply search_sound in H as [skipped [Hs Hin]].
  apply Hp in Hin. rewrite Hs, !length_app.
  destruct (whole r); [congruence|]. simpl. lia.
Qed.

(** The loop does not depend on the fuel once there is more of it than
    bytes to scan. *)
Lemma find_all_fuel re n m prev s :
  productive re -> length s < n -> length s < m ->
  find_all_from n re prev s = find_all_from m re prev s.
Proof.
  intros Hp. revert m prev s. induction n as [|n IH]; intros m prev s Hn Hm.
  - lia.
  - destruct m as [|m]; [lia|]. simpl.
    destruct (search re prev s) as [r|] eqn:E; [|reflexivity].
    pose proof (search_shorter _ _ _ _ Hp E) as Hlt.
    apply search_sound in E as [skipped [Hs Hin]]. apply Hp in Hin.
    destruct (whole r) as [|b t] eqn:Ew; [congruence|].
    f_equal. apply IH; lia.
Qed.

(** What holds of every match at a position holds of every match found. *)
Lemma find_all_Forall (P : result -> Prop) re :
  (forall prev s r, In r (match_nodes re prev s) -> P r) ->
  forall fuel prev s, Forall P (find_all_from fuel re prev s).
Proof.
  intros HP fuel. induction fuel as [|fuel IH]; intros prev s; simpl.
  - constructor.
  - destruct (search re prev s) as [r|] eqn:E; [|constructor].
    apply search_sound in E as [skipped [Hs Hin]]. apply HP in Hin.
    destruct (whole r), (rest r); repeat constructor; try assumption;
      apply IH.
Qed.

(** One turn of the loop: bytes where nothing begins, then a match. *)
Lemma find_all_step re fuel prev pre s r :
  productive re -> barren re pre ->
  match_here re (after prev pre) s = Some r ->
  length (pre ++ s) < fuel ->
  find_all_from fuel re prev (pre ++ s)
  = r :: find_all_from (S (length (rest r))) re (last (whole r)) (rest r).
Proof.
  intros Hp Hb Hm Hfuel. destruct fuel as [|fuel]; [lia|].
  remember (find_all_from (S (length (rest r))) re (last (whole r)) (rest r))
    as found eqn:Ef.
  simpl. rewrite (search_skip _ _ _ _ Hb), (search_here _ _ _ _ Hm).
  pose proof (match_here_In _ _ _ _ Hm) as Hin.
  pose proof (match_nodes_split _ _ _ _ Hin) as Hs.
  apply Hp in Hin. destruct (whole r) as [|b t] eqn:Ew; [congruence|].
  f_equal. rewrite Ef. apply find_all_fuel; [exact Hp| |lia].
  rewrite length_app, Hs, length_app in Hfuel. simpl in Hfuel. lia.
Qed.

(** A pattern that begins with a literal fails at any other byte. *)
Lemma match_here_other c re prev a s :
  a <> c -> match_here (Plain (Chr c) :: re) prev (a :: s) = None.
Proof.
  intros H. apply Ascii.eqb_neq in H. unfold match_here.
  cbn [match_nodes match_item]. rewrite H. reflexivity.
Qed.

(** Nothing is found where no match begins. *)
Lemma find_all_barren re fuel prev pre :
  barren re pre -> match_here re (after prev pre) [] = None ->
  find_all_from fuel re prev pre = [].
Proof.
  intros Hb Hn. destruct fuel as [|fuel]; [reflexivity|]. simpl.
  rewrite <- (app_nil_r pre), (search_skip _ _ _ _ Hb). simpl.
  rewrite Hn. reflexivity.
Qed.

(** ** The pieces of a match *)

Lemma match_item_text i prev s t r :
  In (t, r) (match_item i prev s) -> item_text i t.
Proof.
  destruct i as [c|p|p|p|]; simpl.
  - destruct s as [|a s]; [intros []|].
    destruct (Ascii.eqb_spec a c); [|intros []].
    intros [[= <- <-]|[]]. congruence.
  - destruct s as [|a s]; [intros []|]. destruct (p a) eqn:E; [|intros []].
    intros [[= <- <-]|[]]. eauto.
  - apply star_class.
  - destruct s as [|a s]; [intros []|]. destruct (p a) eqn:E; [|intros []].
    rewrite in_map_iff. intros [[t' r'] [[= <- <-] Hin]]. simpl.
    split; [discriminate|]. rewrite E. simpl. eapply star_class. exact Hin.
  - destruct (at_boundary prev s); [|intros []].
    intros [[= <- <-]|[]]. reflexivity.
Qed.

Lemma match_items_pieces its prev s t r :
  In (t, r) (match_items its prev s) ->
  exists pieces, Forall2 item_text its pieces /\ t = concat pieces.
Proof.
  revert prev s t r. induction its as [|i its IH]; intros prev s t r; simpl.
  - intros [[= <- <-]|[]]. exists []. split; [constructor|reflexivity].
  - rewrite in_flat_map. intros [[t1 r1] [H1 H2]].
    apply in_map_iff in H2 as [[t2 r2] [[= <- <-] H2]]. simpl in *.
    apply match_item_text in H1. apply IH in H2 as (pieces & Hp & ->).
    exists (t1 :: pieces). split; [constructor; assumption|reflexivity].
Qed.

(** The text of a match is made of one text for each item of the pattern. *)
Lemma match_nodes_pieces re prev s r :
  In r (match_nodes re prev s) ->
  exists pieces, Forall2 item_text (items_of re) pieces
                 /\ whole r = concat pieces.
Proof.
  revert prev s r. induction re as [|[i|body] re IH]; intros prev s r; simpl.
  - intros [<-|[]]. exists []. split; [constructor|reflexivity].
  - rewrite in_flat_map. intros [[t1 r1] [H1 H2]].
    apply in_map_iff in H2 as [r2 [<- H2]]. simpl in *.
    apply match_item_text in H1. apply IH in H2 as (pieces & Hp & ->).
    exists (t1 :: pieces). split; [constructor; assumption|reflexivity].
  - rewrite in_flat_map. intros [[t1 r1] [H1 H2]].
    apply in_map_iff in H2 as [r2 [<- H2]]. simpl in *.
    apply match_items_pieces in H1 as (ps1 & Hp1 & ->).
    apply IH in H2 as (pieces & Hp & ->).
    exists (ps1 ++ pieces). split.
    + unfold items_of in *. simpl. apply Forall2_app; assumption.
    + rewrite concat_app. reflexivity.
Qed.

Lemma app_eq_cons_split {A : Type} (p q b : list A) c R :
  p ++ q = b ++ c :: R ->
  (exists y, p = b ++ c :: y /\ R = y ++ q)
  \/ (exists b', b = p ++ b' /\ q = b' ++ c :: R).
Proof.
  revert b. induction p as [|x p IH]; intros b; simpl.
  - intros ->. right. exists b. auto.
  - destruct b as [|x' b]; simpl.
    + intros [= -> <-]. left. exists p. auto.
    + intros [= <- H]. destruct (IH b H) as [(y & -> & ->)|(b' & -> & ->)].
      * left. exists y. auto.
      * right. exists b'. auto.
Qed.

Lemma takes_byte_text i x c y :
  item_text i (x ++ c :: y) -> takes_byte i c = true.
Proof.
  assert (forall a : ascii, x ++ c :: y = [a] -> a = c) as Hone.
  { intros a E. destruct x as [|a' x]; simpl in E; [congruence|].
    injection E as _ E. destruct x; discriminate. }
  destruct i as [c'|p|p|p|]; simpl.
  - intros E. apply Hone in E as ->. apply Ascii.eqb_refl.
  - intros (a & E & Ha). apply Hone in E as ->. exact Ha.
  - rewrite forallb_app. simpl. intros H. apply andb_true_iff in H as [_ H].
    apply andb_true_iff in H as [H _]. exact H.
  - rewrite forallb_app. simpl. intros [_ H]. apply andb_true_iff in H as [_ H].
    apply andb_true_iff in H as [H _]. exact H.
  - destruct x; discriminate.
Qed.

Lemma positions_In c n its its1 i its2 :
  its = its1 ++ i :: its2 -> takes_byte i c = true ->
  In (n + length its1) (positions c n its).
Proof.
  revert n its. induction its1 as [|j its1 IH]; intros n its ->; simpl.
  - intros ->. rewrite Nat.add_0_r. left. reflexivity.
  - intros H. apply in_or_app. right.
    specialize (IH (S n) _ eq_refl H).
    rewrite <- Nat.add_succ_comm. exact IH.
Qed.

(** A byte of the text of a match lies in the text of one of the items,
    which can take it. *)
Lemma pieces_inside its pieces b c R :
  Forall2 item_text its pieces -> concat pieces = b ++ c :: R ->
  exists n ps1 x y ps2,
    In n (positions c 0 its)
    /\ Forall2 item_text (take n its) ps1
    /\ Forall2 item_text (drop n its) ((x ++ c :: y) :: ps2)
    /\ b = concat ps1 ++ x /\ R = y ++ concat ps2.
Proof.
  intros H E.
  assert (exists its1 i its2 ps1 x y ps2,
    its = its1 ++ i :: its2
    /\ Forall2 item_text its1 ps1 /\ item_text i (x ++ c :: y)
    /\ Forall2 item_text its2 ps2
    /\ b = concat ps1 ++ x /\ R = y ++ concat ps2)
    as (its1 & i & its2 & ps1 & x & y & ps2 & -> & H1 & Hi & H2 & Hb & HR).
  { revert b E. induction H as [|i p its ps Hi H IH]; intros b E; simpl in E.
    - destruct b; discriminate.
    - apply app_eq_cons_split in E as [(y & -> & ->)|(b' & -> & E)].
      + exists [], i, its, [], b, y, ps. repeat split; auto; constructor.
      + destruct (IH b' E)
          as (its1 & j & its2 & ps1 & x & y & ps2 & -> & H1 & Hj & H2 & -> & ->).
        exists (i :: its1), j, its2, (p :: ps1), x, y, ps2.
        repeat split; auto; try (constructor; assumption).
        simpl. rewrite <- app_assoc. reflexivity. }
  exists (length its1), ps1, x, y, ps2. repeat split; auto.
  - apply (positions_In c 0 _ its1 i its2 eq_refl). eapply takes_byte_text.
    exact Hi.
  - rewrite take_app_length. exact H1.
  - rewrite drop_app_length. constructor; assumption.
Qed.

(** A match that goes past the end of [b] holds the byte behind [b]. *)
Lemma longer_prefix {A : Type} (l r b : list A) c R :
  l ++ r = b ++ c :: R -> length b < length l ->
  exists y, l = b ++ c :: y /\ R = y ++ r.
Proof.
  intros E Hl. apply app_eq_cons_split in E as [(y & -> & ->)|(b' & -> & _)].
  - eauto.
  - rewrite length_app in Hl. lia.
Qed.

(** A run of bytes of a class that stops is the same run however the text
    is cut. *)
Lemma run_unique p t1 r1 t2 r2 :
  forallb p t1 = true -> stops p r1 -> forallb p t2 = true -> stops p r2 ->
  t1 ++ r1 = t2 ++ r2 -> t1 = t2 /\ r1 = r2.
Proof.
  revert t2. induction t1 as [|a t1 IH]; intros t2 H1 Hr1 H2 Hr2 E.
  - destruct t2 as [|a t2]; [auto|]. simpl in *. subst r1. simpl in Hr1.
    apply andb_true_iff in H2 as [H2 _]. congruence.
  - destruct t2 as [|a' t2]; simpl in *.
    + subst r2. simpl in Hr2. apply andb_true_iff in H1 as [H1 _]. congruence.
    + injection E as <- E. apply andb_true_iff in H1 as [_ H1].
      apply andb_true_iff in H2 as [_ H2].
      destruct (IH t2 H1 Hr1 H2 Hr2 E) as [-> ->]. auto.
Qed.

Lemma one_inside {A : Type} (x : list A) c y a :
  x ++ c :: y = [a] -> x = [] /\ y = [] /\ a = c.
Proof.
  destruct x as [|a' x]; simpl.
  - intros [= -> ->]. auto.
  - intros [= _ E]. destruct x; discriminate.
Qed.

(** ** The scan up to a position *)

Lemma after_whole prev t : t <> [] -> after prev t = last t.
Proof.
  intros H. unfold after. destruct (last t) eqn:E; [reflexivity|].
  apply last_None in E. contradiction.
Qed.

Lemma find_all_found fuel re prev s r :
  search re prev s = Some r -> whole r <> [] ->
  find_all_from (S fuel) re prev s
  = r :: find_all_from fuel re (last (whole r)) (rest r).
Proof.
  intros H Hw. simpl. rewrite H. destruct (whole r); [congruence|reflexivity].
Qed.

Lemma find_all_next fuel re prev c s :
  match_here re prev (c :: s) = None ->
  find_all_from (S fuel) re prev (c :: s)
  = find_all_from (S fuel) re (Some c) s.
Proof. intros H. simpl. rewrite H. reflexivity. Qed.

(** When every match that begins in [pre] ends in [pre], the loop comes to
    the end of [pre] and goes on from there. *)
Lemma find_all_reaches re :
  productive re ->
  forall n prev pre s,
    length pre <= n -> clear_of re prev pre s ->
    exists earlier,
      find_all_from (S (length (pre ++ s))) re prev (pre ++ s)
      = earlier ++ find_all_from (S (length s)) re (after prev pre) s.
Proof.
  intros Hp. induction n as [|n IH]; intros prev pre s Hn Hc.
  - destruct pre; [|simpl in Hn; lia]. exists []. reflexivity.
  - destruct pre as [|c pre]; [exists []; reflexivity|].
    destruct (match_here re prev ((c :: pre) ++ s)) as [r|] eqn:E.
    + pose proof (match_here_In _ _ _ _ E) as Hin.
      pose proof (match_nodes_split _ _ _ _ Hin) as Hs.
      pose proof (Hp _ _ _ Hin) as Hw.
      assert (length (whole r) <= length (c :: pre)) as Hlen.
      { apply (Hc [] (c :: pre) r); [reflexivity|discriminate|exact Hin]. }
      assert (exists b', c :: pre = whole r ++ b' /\ rest r = b' ++ s)
        as (b' & Hpre & Hrest).
      { exists (drop (length (whole r)) (c :: pre)).
        assert (whole r = take (length (whole r)) (c :: pre)) as Ht.
        { apply (f_equal (take (length (whole r)))) in Hs.
          rewrite take_app_le in Hs by exact Hlen.
          rewrite take_app_length in Hs. symmetry. exact Hs. }
        split.
        - rewrite Ht at 1. symmetry. apply take_drop.
        - apply (f_equal (drop (length (whole r)))) in Hs.
          rewrite drop_app_le in Hs by exact Hlen.
          rewrite drop_app_length in Hs. symmetry. exact Hs. }
      assert (length b' < length (c :: pre)) as Hshort.
      { apply (f_equal (@length ascii)) in Hpre. rewrite length_app in Hpre.
        destruct (whole r); [congruence|]. simpl in Hpre |- *. lia. }
      destruct (IH (last (whole r)) b' s) as [earlier He].
      { simpl in Hshort, Hn. lia. }
      { intros a b r' Hb' Hb Hr'. apply (Hc (whole r ++ a) b r').
        - rewrite Hpre, Hb', app_assoc. reflexivity.
        - exact Hb.
        - rewrite <- after_after, (after_whole prev _ Hw). exact Hr'. }
      exists (r :: earlier).
      rewrite (find_all_found _ _ _ _ r (search_here _ _ _ _ E) Hw).
      rewrite Hrest.
      rewrite (find_all_fuel re _ (S (length (b' ++ s))) _ _ Hp).
      * rewrite He. simpl. do 2 f_equal.
        rewrite Hpre, <- after_after, (after_whole prev _ Hw). reflexivity.
      * rewrite !length_app in *. lia.
      * lia.
    + destruct (IH (Some c) pre s) as [earlier He].
      { simpl in Hn. lia. }
      { intros a b r' Hb' Hb Hr'. apply (Hc (c :: a) b r').
        - rewrite Hb'. reflexivity.
        - exact Hb.
        - change (c :: a) with ([c] ++ a). rewrite <- after_after. exact Hr'. }
      exists earlier. change ((c :: pre) ++ s) with (c :: pre ++ s) in *.
      rewrite (find_all_next _ _ _ _ _ E).
      rewrite (find_all_fuel re _ (S (length (pre ++ s))) _ _ Hp).
      * rewrite He. change (c :: pre) with ([c] ++ pre).
        rewrite <- after_after. reflexivity.
      * simpl. lia.
      * lia.
Qed.

Lemma last_app_nonempty {A : Type} (l1 l2 : list A) :
  l2 <> [] -> last (l1 ++ l2) = last l2.
Proof.
  intros H. rewrite last_app. destruct l2 as [|x l2] using rev_ind;
    [congruence|]. rewrite last_snoc. reflexivity.
Qed.

End RegexpFacts.

(** * Facts about the two patterns *)

Module PatternFacts.

Import Chars Regexp Notions RegexpFacts I18n.

(** ** Character classes *)

Ltac by_bytes a :=
  destruct a as [[|] [|] [|] [|] [|] [|] [|] [|]]; vm_compute;
  try reflexivity; try discriminate; try (intros; discriminate).

Lemma space_not_word a : is_space a = true -> is_word a = false.
Proof. by_bytes a. Qed.

Lemma word_not_space a : is_word a = true -> is_space a = false.
Proof. by_bytes a. Qed.

Lemma alnum_word a : is_alnum a = true -> is_word a = true.
Proof. unfold is_word. intros ->. reflexivity. Qed.

Lemma letter_alnum a : is_letter a = true -> is_alnum a = true.
Proof. unfold is_alnum. intros ->. reflexivity. Qed.

Lemma space_not_alnum a : is_space a = true -> is_alnum a = false.
Proof. by_bytes a. Qed.

Lemma quote_not_space a : is_quote a = true -> is_space a = false.
Proof. by_bytes a. Qed.

Lemma quote_not_word a : is_quote a = true -> is_word a = false.
Proof. by_bytes a. Qed.

Lemma quote_not_not_quote a : is_quote a = true -> not_quote a = false.
Proof. unfold not_quote. intros ->. reflexivity. Qed.

Lemma alnum_not_quote a : is_alnum a = true -> not_quote a = true.
Proof. by_bytes a. Qed.

Lemma lower_alnum a : is_alnum a = true -> is_alnum (to_lower a) = true.
Proof. by_bytes a. Qed.

(** [stops] for a run of one class followed by a byte outside another. *)
Lemma stops_run (p q : ascii -> bool) ws b r :
  forallb q ws = true -> (forall a, q a = true -> p a = false) ->
  p b = false -> stops p (ws ++ b :: r).
Proof.
  intros Hws Hqp Hb. destruct ws as [|a ws]; simpl in *; [exact Hb|].
  apply andb_true_iff in Hws as [Ha _]. apply Hqp. exact Ha.
Qed.

(** ** What the items of the groups take *)

Lemma plus_taken p g : taken_by [Plus p] g -> g <> [] /\ forallb p g = true.
Proof.
  intros (prev & s & r & H). simpl in H.
  apply in_flat_map in H as [[t1 r1] [H1 [[= <- <-]|[]]]]. simpl.
  rewrite app_nil_r. destruct s as [|a s]; [destruct H1|]. simpl in H1.
  destruct (p a) eqn:Hp; [|destruct H1].
  apply in_map_iff in H1 as [[t' r'] [[= <- <-] Hin]]. simpl.
  split; [discriminate|]. rewrite Hp. simpl. eapply star_class. exact Hin.
Qed.

Lemma alias_taken g :
  taken_by [Chr "t"; Cls is_letter; Star is_alnum] g -> alias_shape g.
Proof.
  intros (prev & s & r & H). simpl in H.
  apply in_flat_map in H as [[t1 r1] [H1 H]].
  apply in_map_iff in H as [[t2 r2] [[= <- <-] H]]. simpl in *.
  apply in_flat_map in H as [[t3 r3] [H3 H]].
  apply in_map_iff in H as [[t4 r4] [[= <- <-] H]]. simpl in *.
  apply in_flat_map in H as [[t5 r5] [H5 [[= <- <-]|[]]]]. simpl in *.
  destruct s as [|a s]; [destruct H1|].
  destruct (Ascii.eqb_spec a "t"); [|destruct H1]. subst a.
  destruct H1 as [[= <- <-]|[]].
  destruct s as [|c s]; [destruct H3|].
  destruct (is_letter c) eqn:Hc; [|destruct H3].
  destruct H3 as [[= <- <-]|[]].
  exists c, t5. rewrite app_nil_r. split; [reflexivity|]. split; [exact Hc|].
  eapply star_class. exact H5.
Qed.

(** ** The call pattern *)

Lemma allCalls_groups prev s r :
  In r (match_nodes allCallsRegex prev s) ->
  exists alias key,
    groups r = [alias; key] /\ alias_shape alias
    /\ key <> [] /\ forallb not_quote key = true.
Proof.
  intros H. apply match_nodes_groups in H. simpl in H.
  inversion H as [|b1 g1 bs1 gs1 H1 Ht1 E1 E2]; subst.
  inversion Ht1 as [|b2 g2 bs2 gs2 H2 Ht2 E3 E4]; subst.
  inversion Ht2; subst.
  exists g1, g2. split; [congruence|]. split; [apply alias_taken; exact H1|].
  apply plus_taken. exact H2.
Qed.

Lemma allCalls_productive : productive allCallsRegex.
Proof.
  intros prev s r H. pose proof (match_nodes_groups_length _ _ _ _ H) as Hl.
  apply allCalls_groups in H as (alias & key & Hg & (c & tl & -> & _) & _).
  rewrite Hg in Hl. simpl in Hl. destruct (whole r); [simpl in Hl; lia|].
  discriminate.
Qed.

(** No call begins at a byte other than [t]. *)
Lemma allCalls_barren pre :
  Forall (fun a => a <> "t"%char) pre -> barren allCallsRegex pre.
Proof.
  intros H. induction H as [|a pre Ha H IH]; constructor; [|exact IH].
  intros prev s. unfold match_here, allCallsRegex.
  apply Ascii.eqb_neq in Ha. simpl.
  destruct (at_boundary prev (a :: s)); simpl; rewrite ?Ha; reflexivity.
Qed.

Lemma allCalls_end prev : match_here allCallsRegex prev [] = None.
Proof.
  unfold match_here, allCallsRegex. simpl.
  destruct (at_boundary prev []); reflexivity.
Qed.

Lemma allCalls_match prev alias ws1 ws2 q1 key q2 ws3 post :
  word_before prev = false ->
  call_form alias ws1 ws2 q1 key q2 ws3 ->
  match_here allCallsRegex prev
    (call_text alias ws1 ws2 q1 key q2 ws3 ++ post)
  = Some (Result (call_text alias ws1 ws2 q1 key q2 ws3) [alias; key] post).
Proof.
  intros Hprev [(c & tl & -> & Hc & Htl) H1 H2 H3 Hq1 Hq2 Hk Hnq].
  assert (exists w g,
    match_here allCallsRegex prev
      (call_text ("t"%char :: c :: tl) ws1 ws2 q1 key q2 ws3 ++ post)
    = Some (Result w g post) /\ g = ["t"%char :: c :: tl; key])
    as (w & g & Hr & ->).
  { unfold call_text. repeat (rewrite <- app_assoc; simpl).
    do 2 eexists. split.
    - unfold allCallsRegex.
      eapply match_here_plain.
      { apply take_boundary. unfold at_boundary. rewrite Hprev. reflexivity. }
      eapply match_here_group.
      { eapply take_items_cons; [apply take_chr|].
        eapply take_items_cons; [apply take_cls; exact Hc|].
        eapply take_items_cons; [|apply take_items_nil].
        apply (take_star is_alnum tl); [exact Htl|].
        apply (stops_run is_alnum is_space);
          [exact H1|exact space_not_alnum|reflexivity]. }
      eapply match_here_plain.
      { apply (take_star is_space ws1); [exact H1|reflexivity]. }
      eapply match_here_plain; [apply take_chr|].
      eapply match_here_plain.
      { apply (take_star is_space ws2); [exact H2|].
        simpl. apply quote_not_space. exact Hq1. }
      eapply match_here_plain; [apply take_cls; exact Hq1|].
      eapply match_here_group.
      { eapply take_items_cons; [|apply take_items_nil].
        apply (take_plus not_quote key); [exact Hk|exact Hnq|].
        simpl. apply quote_not_not_quote. exact Hq2. }
      eapply match_here_plain; [apply take_cls; exact Hq2|].
      eapply match_here_plain.
      { apply (take_star is_space ws3); [exact H3|reflexivity]. }
      eapply match_here_plain; [apply take_chr|].
      apply match_here_nil.
    - simpl. rewrite !app_nil_r. reflexivity. }
  rewrite Hr. do 2 f_equal.
  pose proof (match_nodes_split _ _ _ _ (match_here_In _ _ _ _ Hr)) as Hs.
  cbn [whole rest] in Hs. apply app_inv_tail in Hs. congruence.
Qed.

(** ** The declaration pattern *)

Lemma useTranslation_groups prev s r :
  In r (match_nodes useTranslationRegex prev s) ->
  exists alias namespace,
    groups r = [alias; namespace]
    /\ (alias <> [] /\ forallb is_word alias = true)
    /\ (namespace <> [] /\ forallb not_quote namespace = true).
Proof.
  intros H. apply match_nodes_groups in H. simpl in H.
  inversion H as [|b1 g1 bs1 gs1 H1 Ht1 E1 E2]; subst.
  inversion Ht1 as [|b2 g2 bs2 gs2 H2 Ht2 E3 E4]; subst.
  inversion Ht2; subst.
  exists g1, g2. split; [congruence|]. split; apply plus_taken; assumption.
Qed.

Lemma useTranslation_productive : productive useTranslationRegex.
Proof.
  intros prev s r H. pose proof (match_nodes_groups_length _ _ _ _ H) as Hl.
  apply useTranslation_groups in H as (alias & ns & Hg & [Ha _] & _).
  rewrite Hg in Hl. simpl in Hl. rewrite length_app in Hl.
  destruct alias; [congruence|]. destruct (whole r); [simpl in Hl; lia|].
  discriminate.
Qed.

(** No declaration begins at a byte other than [c]. *)
Lemma useTranslation_barren pre :
  Forall (fun a => a <> "c"%char) pre -> barren useTranslationRegex pre.
Proof.
  intros H. induction H as [|a pre Ha H IH]; constructor; [|exact IH].
  intros prev s.
  change useTranslationRegex
    with (Plain (Chr "c") :: List.tl useTranslationRegex).
  apply match_here_other. exact Ha.
Qed.

Lemma useTranslation_end prev : match_here useTranslationRegex prev [] = None.
Proof. reflexivity. Qed.

Ltac literal := eapply match_here_plain; [apply take_chr|].

Lemma useTranslation_match prev b alias q1 namespace q2 post :
  declaration_form b alias q1 namespace q2 ->
  match_here useTranslationRegex prev
    (declaration_text b alias q1 namespace q2 ++ post)
  = Some (Result (declaration_text b alias q1 namespace q2)
                 [alias; namespace] post).
Proof.
  intros [Hb Ha Hw Hq1 Hq2 Hn Hnq].
  destruct b as [w1 w2 w3 w4 w5 w6 w7 w8 w9]. unfold all_blank in Hb.
  simpl in Hb. repeat (apply Forall_cons in Hb as [? Hb]).
  assert (exists w g,
    match_here useTranslationRegex prev
      (declaration_text (Blanks w1 w2 w3 w4 w5 w6 w7 w8 w9)
         alias q1 namespace q2 ++ post)
    = Some (Result w g post) /\ g = [alias; namespace])
    as (w & g & Hr & ->).
  { unfold declaration_text. repeat (rewrite <- app_assoc; simpl).
    do 2 eexists. split.
    - unfold useTranslationRegex, word.
      cbn [list_ascii_of_string map app].
      do 5 literal.
      eapply match_here_plain.
      { apply (take_star is_space w1); [assumption|reflexivity]. }
      literal.
      eapply match_here_plain.
      { apply (take_star is_space w2); [assumption|reflexivity]. }
      do 2 literal.
      eapply match_here_plain.
      { apply (take_star is_space w3); [assumption|].
        destruct alias as [|a alias]; [congruence|]. simpl in *.
        apply andb_true_iff in Hw as [Hw _]. apply word_not_space. exact Hw. }
      eapply match_here_group.
      { eapply take_items_cons; [|apply take_items_nil].
        apply (take_plus is_word alias); [exact Ha|exact Hw|].
        apply (stops_run is_word is_space);
          [assumption|exact space_not_word|reflexivity]. }
      eapply match_here_plain.
      { apply (take_star is_space w4); [assumption|reflexivity]. }
      literal.
      eapply match_here_plain.
      { apply (take_star is_space w5); [assumption|reflexivity]. }
      literal.
      eapply match_here_plain.
      { apply (take_star is_space w6); [assumption|reflexivity]. }
      do 14 literal.
      eapply match_here_plain.
      { apply (take_star is_space w7); [assumption|reflexivity]. }
      literal.
      eapply match_here_plain.
      { apply (take_star is_space w8); [assumption|].
        simpl. apply quote_not_space. exact Hq1. }
      eapply match_here_plain; [apply take_cls; exact Hq1|].
      eapply match_here_group.
      { eapply take_items_cons; [|apply take_items_nil].
        apply (take_plus not_quote namespace); [exact Hn|exact Hnq|].
        simpl. apply quote_not_not_quote. exact Hq2. }
      eapply match_here_plain; [apply take_cls; exact Hq2|].
      eapply match_here_plain.
      { apply (take_star is_space w9); [assumption|reflexivity]. }
      literal.
      apply match_here_nil.
    - rewrite !app_nil_r. reflexivity. }
  rewrite Hr. do 2 f_equal.
  pose proof (match_nodes_split _ _ _ _ (match_here_In _ _ _ _ Hr)) as Hs.
  cbn [whole rest] in Hs. apply app_inv_tail in Hs. congruence.
Qed.

(** ** Matches that begin before a call or a declaration *)

Lemma skip_run p t r : forallb p t = true -> stops p r -> skip p (t ++ r) = r.
Proof.
  intros Ht Hr. induction t as [|a t IH]; simpl in *.
  - destruct r as [|b r]; [reflexivity|]. simpl in *. rewrite Hr. reflexivity.
  - apply andb_true_iff in Ht as [-> Ht]. apply IH. exact Ht.
Qed.

Lemma forallb_rev {A : Type} (p : A -> bool) l :
  forallb p l = true -> forallb p (rev l) = true.
Proof.
  rewrite !forallb_forall. intros H a Ha. apply H. apply in_rev. exact Ha.
Qed.

(** A text that ends with an opening parenthesis, blanks, a quote and bytes
    that are no quotes ends inside an open argument. *)
Lemma open_key_intro pre ws q x :
  forallb is_space ws = true -> is_quote q = true ->
  forallb not_quote x = true ->
  ("("%char :: ws ++ q :: x) `suffix_of` pre -> open_key pre = true.
Proof.
  intros Hws Hq Hx [l ->]. unfold open_key.
  rewrite rev_app_distr. simpl. rewrite rev_app_distr. simpl.
  rewrite <- !app_assoc. simpl.
  rewrite (skip_run not_quote (rev x)).
  - rewrite (skip_run is_space (rev ws)); [reflexivity| |reflexivity].
    apply forallb_rev. exact Hws.
  - apply forallb_rev. exact Hx.
  - simpl. apply quote_not_not_quote. exact Hq.
Qed.

Lemma last_word a l :
  l <> [] -> forallb is_word l = true -> word_before (last (a ++ l)) = true.
Proof.
  intros Hl Hw. rewrite (last_app_nonempty a l Hl).
  destruct l as [|x l] using rev_ind; [congruence|].
  rewrite last_snoc. simpl. rewrite forallb_app in Hw.
  apply andb_true_iff in Hw as [_ Hw]. simpl in Hw.
  apply andb_true_iff in Hw as [Hw _]. exact Hw.
Qed.

Lemma forallb_app_l {A : Type} (p : A -> bool) l1 l2 :
  forallb p (l1 ++ l2) = true -> forallb p l1 = true.
Proof. rewrite forallb_app. intros H. apply andb_true_iff in H as [H _]. exact H. Qed.

Lemma forallb_cons_r {A : Type} (p : A -> bool) l1 c l2 :
  forallb p (l1 ++ c :: l2) = true -> forallb p l2 = true.
Proof.
  rewrite forallb_app. simpl. intros H. apply andb_true_iff in H as [_ H].
  apply andb_true_iff in H as [_ H]. exact H.
Qed.

Lemma forallb_alnum_word l : forallb is_alnum l = true -> forallb is_word l = true.
Proof.
  rewrite !forallb_forall. intros H a Ha. apply alnum_word, H, Ha.
Qed.

Ltac invert_pieces :=
  repeat match goal with
  | H : Forall2 item_text [] _ |- _ => apply Forall2_nil_inv_l in H; subst
  | H : Forall2 item_text (_ :: _) (_ :: _) |- _ =>
      let Hi := fresh "Hi" in apply Forall2_cons_1 in H as [Hi H]
  | H : Forall2 item_text (_ :: _) _ |- _ =>
      let Hi := fresh "Hi" in
      let p := fresh "p" in
      let ps := fresh "ps" in
      apply Forall2_cons_inv_l in H as (p & ps & Hi & H & ->)
  end.

Ltac flatten := repeat progress (rewrite <- ?app_assoc; cbn [app concat]).

Ltac solve_suffix :=
  first [ reflexivity
        | apply suffix_app_r; solve_suffix
        | apply suffix_cons_r; solve_suffix ].

Lemma allCalls_clear prev pre alias ws1 ws2 q1 key q2 ws3 post :
  open_key pre = false -> word_before (last pre) = false ->
  call_form alias ws1 ws2 q1 key q2 ws3 ->
  clear_of allCallsRegex prev pre
    (call_text alias ws1 ws2 q1 key q2 ws3 ++ post).
Proof.
  intros Hopen Hlast [(c & tl & -> & Hc & Htl) _ _ _ _ _ _ _] a b r -> Hb Hin.
  destruct (le_lt_dec (length (whole r)) (length b)) as [|Hlt];
    [assumption|exfalso].
  pose proof (match_nodes_split _ _ _ _ Hin) as Hs.
  unfold call_text in Hs. simpl in Hs. symmetry in Hs.
  apply longer_prefix in Hs as (y0 & Hy & _); [|exact Hlt].
  apply match_nodes_pieces in Hin as (pieces & Hp & Hw). rewrite Hw in Hy.
  destruct (pieces_inside _ _ _ _ _ Hp Hy)
    as (n & ps1 & x & y & ps2 & Hn & H1 & H2 & -> & _).
  vm_compute in Hn.
  destruct Hn as [<-|[<-|[<-|[<-|[]]]]];
    cbn [firstn skipn take drop items_of flat_map app allCallsRegex] in H1, H2;
    invert_pieces; cbn [item_text] in *.
  - apply one_inside in Hi as (-> & _ & _). subst. apply Hb. reflexivity.
  - destruct Hi as (a' & Hi & _). apply one_inside in Hi as (-> & _ & _).
    subst. simpl in Hlast. rewrite last_snoc in Hlast. discriminate.
  - destruct Hi2 as (cl & -> & Hcl). subst. simpl in Hlast.
    rewrite (last_word a ("t"%char :: cl :: x)) in Hlast; [discriminate..|].
    simpl. rewrite (alnum_word _ (letter_alnum _ Hcl)).
    apply forallb_alnum_word. eapply forallb_app_l. exact Hi.
  - destruct Hi as [_ Hx]. apply forallb_app_l in Hx.
    destruct Hi7 as (q & -> & Hq). subst.
    rewrite (open_key_intro _ p5 q x) in Hopen; [discriminate|assumption..|].
    flatten. solve_suffix.
Qed.

Lemma useTranslation_clear prev pre b alias q1 namespace q2 post :
  open_key pre = false ->
  declaration_form b alias q1 namespace q2 ->
  clear_of useTranslationRegex prev pre
    (declaration_text b alias q1 namespace q2 ++ post).
Proof.
  intros Hopen [Hblank _ _ _ _ _ _] a0 b0 r -> Hb Hin.
  destruct b as [w1 w2 w3 w4 w5 w6 w7 w8 w9]. unfold all_blank in Hblank.
  simpl in Hblank. apply Forall_cons in Hblank as [Hw1 _].
  destruct (le_lt_dec (length (whole r)) (length b0)) as [|Hlt];
    [assumption|exfalso].
  pose proof (match_nodes_split _ _ _ _ Hin) as Hs.
  unfold declaration_text in Hs. simpl in Hs. symmetry in Hs.
  apply longer_prefix in Hs as (y0 & Hy & HR); [|exact Hlt].
  apply match_nodes_pieces in Hin as (pieces & Hp & Hw). rewrite Hw in Hy.
  destruct (pieces_inside _ _ _ _ _ Hp Hy)
    as (n & ps1 & x & y & ps2 & Hn & H1 & H2 & -> & ->).
  vm_compute in Hn.
  destruct Hn as [<-|[<-|[<-|[]]]];
    cbn [firstn skipn take drop items_of flat_map app useTranslationRegex
         word map list_ascii_of_string] in H1, H2;
    invert_pieces; cbn [item_text] in *.
  - apply one_inside in Hi as (-> & _ & _). subst. apply Hb. reflexivity.
  - subst. destruct Hi as [_ Hword]. apply forallb_cons_r in Hword.
    revert HR. flatten. intros HR. symmetry in HR.
    apply (run_unique is_word y _ (bytes "onst") _) in HR as [_ HR];
      [|exact Hword
       |apply (stops_run is_word is_space);
          [assumption|exact space_not_word|reflexivity]
       |reflexivity
       |apply (stops_run is_word is_space);
          [assumption|exact space_not_word|reflexivity]].
    apply (run_unique is_space _ _ w1 _) in HR as [_ HR];
      [discriminate|assumption|reflexivity|assumption|reflexivity].
  - destruct Hi as [_ Hx]. apply forallb_app_l in Hx.
    match goal with
    | H : exists a, ?p = [a] /\ is_quote a = true |- _ =>
        lazymatch type of Hopen with
        | context [p] => destruct H as (q & -> & Hq)
        end
    end.
    subst.
    match type of Hopen with
    | context [ ?ws :: [q] :: [] ] =>
        rewrite (open_key_intro _ ws q x) in Hopen;
          [discriminate|assumption..|]
    end.
    flatten. solve_suffix.
Qed.

End PatternFacts.

(** * The Key Resolver *)

Module KeyResolver.

Import Chars Regexp Notions RegexpFacts I18n PatternFacts.

Lemma str_nonempty l : l <> [] -> str l <> "".
Proof. destruct l; [congruence|discriminate]. Qed.

Lemma after_start pre : after None pre = last pre.
Proof. unfold after. destruct (last pre); reflexivity. Qed.

Lemma call_text_last alias ws1 ws2 q1 key q2 ws3 :
  last (call_text alias ws1 ws2 q1 key q2 ws3) = Some ")"%char.
Proof.
  unfold call_text.
  change ("("%char :: ws2 ++ q1 :: key ++ q2 :: ws3 ++ [")"%char])
    with (["("%char] ++ ws2 ++ [q1] ++ key ++ [q2] ++ ws3 ++ [")"%char]).
  rewrite !app_assoc. apply last_snoc.
Qed.

Lemma record_calls filePath m matches keys :
  foldl (record_call filePath m) keys matches
  = keys ++ flat_map (entry_of filePath m) matches.
Proof.
  revert keys. induction matches as [|x l IH]; intros keys; simpl.
  - rewrite app_nil_r. reflexivity.
  - rewrite IH. unfold record_call, entry_of.
    destruct (x !! 1%nat), (x !! 2%nat); simpl;
      rewrite <- ?app_assoc; reflexivity.
Qed.

Lemma calls_flat_map filePath contentStr m :
  calls filePath contentStr m
  = flat_map (entry_of filePath m)
      (FindAllStringSubmatch allCallsRegex contentStr).
Proof. unfold calls. rewrite record_calls. reflexivity. Qed.

Lemma allCalls_submatches contentStr :
  Forall call_submatch (FindAllStringSubmatch allCallsRegex contentStr).
Proof.
  unfold FindAllStringSubmatch. apply Forall_map.
  apply find_all_Forall. intros prev s r H.
  apply allCalls_groups in H
    as (alias & key & Hg & (c & tl & -> & Hc & Htl) & Hk & Hnq).
  exists (str (whole r)), c, (str tl), (str key).
  unfold submatch. rewrite Hg. simpl.
  rewrite !list_ascii_of_string_of_list_ascii.
  repeat split; try assumption. apply str_nonempty. exact Hk.
Qed.

Lemma inferable_matched c tl : inferable (String "t" (String c tl)) = true.
Proof.
  unfold inferable, HasPrefix. simpl.
  destruct (ascii_dec "t" "t"); [reflexivity|congruence].
Qed.

(** One call, after bytes where no call begins. *)
Lemma FindAll_call pre alias ws1 ws2 q1 key q2 ws3 post :
  Forall (fun a => a <> "t"%char) pre ->
  word_before (last pre) = false ->
  call_form alias ws1 ws2 q1 key q2 ws3 ->
  FindAllStringSubmatch allCallsRegex
    (str (pre ++ call_text alias ws1 ws2 q1 key q2 ws3 ++ post))
  = [str (call_text alias ws1 ws2 q1 key q2 ws3); str alias; str key]
    :: FindAllStringSubmatch allCallsRegex (str post).
Proof.
  intros Hpre Hlast Hform. unfold FindAllStringSubmatch.
  rewrite !list_ascii_of_string_of_list_ascii.
  rewrite (find_all_step allCallsRegex _ None pre _
             (Result (call_text alias ws1 ws2 q1 key q2 ws3) [alias; key] post)).
  - change (whole (Result (call_text alias ws1 ws2 q1 key q2 ws3)
                          [alias; key] post))
      with (call_text alias ws1 ws2 q1 key q2 ws3).
    change (rest (Result (call_text alias ws1 ws2 q1 key q2 ws3)
                         [alias; key] post)) with post.
    rewrite (find_all_context _ _
               (last (call_text alias ws1 ws2 q1 key q2 ws3)) None)
      by (rewrite call_text_last; reflexivity).
    reflexivity.
  - exact allCalls_productive.
  - apply allCalls_barren. exact Hpre.
  - apply allCalls_match; [|exact Hform]. rewrite after_start. exact Hlast.
  - lia.
Qed.

(** The entry of one call, after bytes where no call begins. *)
Lemma call_sites_matched_aux filePath m pre alias ws1 ws2 q1 key q2 ws3 post :
  Forall (fun a => a <> "t"%char) pre ->
  word_before (last pre) = false ->
  call_form alias ws1 ws2 q1 key q2 ws3 ->
  calls filePath (str (pre ++ call_text alias ws1 ws2 q1 key q2 ws3 ++ post)) m
  = mkTranslationKey (str key) (resolve m (str alias)) filePath
    :: calls filePath (str post) m.
Proof.
  intros Hpre Hlast Hform.
  rewrite !calls_flat_map, (FindAll_call _ _ _ _ _ _ _ _ _ Hpre Hlast Hform).
  reflexivity.
Qed.

(** One call, wherever it stands outside an open argument: the scan comes
    to it, matches it and goes on behind it. *)
Lemma FindAll_call_reached pre alias ws1 ws2 q1 key q2 ws3 post :
  open_key pre = false ->
  word_before (last pre) = false ->
  call_form alias ws1 ws2 q1 key q2 ws3 ->
  exists found,
    FindAllStringSubmatch allCallsRegex
      (str (pre ++ call_text alias ws1 ws2 q1 key q2 ws3 ++ post))
    = found
      ++ [str (call_text alias ws1 ws2 q1 key q2 ws3); str alias; str key]
         :: FindAllStringSubmatch allCallsRegex (str post).
Proof.
  intros Hopen Hlast Hform. unfold FindAllStringSubmatch.
  rewrite !list_ascii_of_string_of_list_ascii.
  destruct (find_all_reaches allCallsRegex allCalls_productive (length pre)
              None pre (call_text alias ws1 ws2 q1 key q2 ws3 ++ post)
              (le_n _)
              (allCalls_clear None pre _ _ _ _ _ _ _ post Hopen Hlast Hform))
    as [earlier He].
  exists (map submatch earlier). rewrite He, map_app. f_equal.
  pose proof (find_all_step allCallsRegex
                (S (length (call_text alias ws1 ws2 q1 key q2 ws3 ++ post)))
                (after None pre) []
                (call_text alias ws1 ws2 q1 key q2 ws3 ++ post)
                (Result (call_text alias ws1 ws2 q1 key q2 ws3)
                        [alias; key] post)
                allCalls_productive) as Hstep.
  cbn [app whole rest] in Hstep. rewrite Hstep.
  - rewrite (find_all_context _ _
               (last (call_text alias ws1 ws2 q1 key q2 ws3)) None)
      by (rewrite call_text_last; reflexivity).
    reflexivity.
  - constructor.
  - apply allCalls_match; [|exact Hform]. rewrite after_nil, after_start.
    exact Hlast.
  - lia.
Qed.

(** The entry of one call, wherever it stands outside an open argument. *)
Lemma calls_reached filePath m pre alias ws1 ws2 q1 key q2 ws3 post :
  open_key pre = false ->
  word_before (last pre) = false ->
  call_form alias ws1 ws2 q1 key q2 ws3 ->
  exists earlier,
    calls filePath
      (str (pre ++ call_text alias ws1 ws2 q1 key q2 ws3 ++ post)) m
    = earlier
      ++ mkTranslationKey (str key) (resolve m (str alias)) filePath
         :: calls filePath (str post) m.
Proof.
  intros Hopen Hlast Hform.
  destruct (FindAll_call_reached _ _ _ _ _ _ _ _ post Hopen Hlast Hform)
    as [found Hf].
  exists (flat_map (entry_of filePath m) found).
  rewrite !calls_flat_map, Hf, flat_map_app. reflexivity.
Qed.

(** Each match of the call pattern adds exactly one entry. *)
Lemma entries_of_matches filePath m matches :
  Forall call_submatch matches ->
  Forall2
    (fun callMatch entry =>
       exists text c tl key,
         callMatch = [text; String "t" (String c tl); key]
         /\ is_letter c = true
         /\ entry
            = mkTranslationKey key (resolve m (String "t" (String c tl)))
                filePath)
    matches (flat_map (entry_of filePath m) matches).
Proof.
  induction 1 as [|x l (text & c & tl & key & -> & Hc & _) _ IH]; simpl.
  - constructor.
  - constructor; [|exact IH]. exists text, c, tl, key. auto.
Qed.

(** C1: a matched alias resolves to the namespace the project-wide map
    gives it; an alias the map does not know resolves to its spelling
    without the leading t, in lower case (tAgent gives agent); the alias t
    alone, unknown to the map, resolves to common; and the namespace of
    every entry is this function of the alias and the map only. *)
Theorem resolution_rule (filePath contentStr : string)
  (m : gmap string string) (a ns : string) (c : ascii) (tl : string) :
  resolve (<[a := ns]> m) a = ns
  /\ resolve (delete (String "t" (String c tl)) m) (String "t" (String c tl))
     = ToLower (String c tl)
  /\ resolve ∅ "tAgent" = "agent"
  /\ resolve (delete "t" m) "t" = "common"
  /\ Forall2
       (fun callMatch entry =>
          exists text tVariable key,
            callMatch = [text; tVariable; key]
            /\ entry
               = mkTranslationKey key (resolve m tVariable) filePath)
       (FindAllStringSubmatch allCallsRegex contentStr)
       (calls filePath contentStr m).
Proof.
  repeat split.
  - unfold resolve. rewrite lookup_insert_eq. reflexivity.
  - unfold resolve. rewrite lookup_delete_eq, inferable_matched. reflexivity.
  - unfold resolve. rewrite lookup_delete_eq. reflexivity.
  - rewrite calls_flat_map.
    eapply Forall2_impl;
      [apply entries_of_matches, allCalls_submatches|].
    intros callMatch entry (text & c' & tl' & key & -> & _ & ->).
    eauto.
Qed.

(** C9: every alias the call pattern matches is t, then a letter, then
    letters and digits, so it is at least two bytes long; the bare call
    t('key') gives no entry; and no entry takes the branch of the literal
    common: its namespace comes from the map or from the spelling. *)
Theorem matched_alias_has_letter (filePath contentStr : string)
  (m : gmap string string) :
  Forall
    (fun callMatch =>
       exists text c tl key,
         callMatch = [text; String "t" (String c tl); key]
         /\ is_letter c = true
         /\ 2 <= String.length (String "t" (String c tl))
         /\ inferable (String "t" (String c tl)) = true)
    (FindAllStringSubmatch allCallsRegex contentStr)
  /\ calls filePath "t('key')" m = []
  /\ Forall2
       (fun callMatch entry =>
          exists tVariable,
            callMatch !! 1%nat = Some tVariable
            /\ Namespace entry
               = match m !! tVariable with
                 | Some ns => ns
                 | None => ToLower (from1 tVariable)
                 end)
       (FindAllStringSubmatch allCallsRegex contentStr)
       (calls filePath contentStr m).
Proof.
  split; [|split].
  - eapply Forall_impl; [apply allCalls_submatches|].
    intros callMatch (text & c & tl & key & -> & Hc & _).
    exists text, c, tl, key. split; [reflexivity|]. split; [exact Hc|].
    split; [simpl; lia|apply inferable_matched].
  - reflexivity.
  - rewrite calls_flat_map.
    eapply Forall2_impl;
      [apply entries_of_matches, allCalls_submatches|].
    intros callMatch entry (text & c & tl & key & -> & _ & ->).
    exists (String "t" (String c tl)). split; [reflexivity|].
    cbn [Namespace]. unfold resolve. rewrite inferable_matched. reflexivity.
Qed.




End KeyResolver.

(** * The Declaration Collector *)

Module Collector.

Import Chars Regexp Notions RegexpFacts I18n PatternFacts KeyResolver.

Lemma useTranslation_submatches contentStr :
  Forall declaration_submatch
    (FindAllStringSubmatch useTranslationRegex contentStr).
Proof.
  unfold FindAllStringSubmatch. apply Forall_map.
  apply find_all_Forall. intros prev s r H.
  apply useTranslation_groups in H
    as (alias & ns & Hg & [Ha Hw] & [Hn Hnq]).
  exists (str (whole r)), (str alias), (str ns).
  unfold submatch. rewrite Hg. simpl.
  rewrite !list_ascii_of_string_of_list_ascii.
  repeat split; try assumption; apply str_nonempty; assumption.
Qed.

Lemma declaration_text_last b alias q1 namespace q2 :
  last (declaration_text b alias q1 namespace q2) = Some ")"%char.
Proof.
  unfold declaration_text.
  rewrite !app_assoc, !app_comm_cons, !app_assoc. apply last_snoc.
Qed.

(** One declaration, after bytes where no declaration begins. *)
Lemma FindAll_declaration pre b alias q1 namespace q2 post :
  Forall (fun a => a <> "c"%char) pre ->
  declaration_form b alias q1 namespace q2 ->
  FindAllStringSubmatch useTranslationRegex
    (str (pre ++ declaration_text b alias q1 namespace q2 ++ post))
  = [str (declaration_text b alias q1 namespace q2); str alias; str namespace]
    :: FindAllStringSubmatch useTranslationRegex (str post).
Proof.
  intros Hpre Hform. unfold FindAllStringSubmatch.
  rewrite !list_ascii_of_string_of_list_ascii.
  rewrite (find_all_step useTranslationRegex _ None pre _
             (Result (declaration_text b alias q1 namespace q2)
                     [alias; namespace] post)).
  - change (whole (Result (declaration_text b alias q1 namespace q2)
                          [alias; namespace] post))
      with (declaration_text b alias q1 namespace q2).
    change (rest (Result (declaration_text b alias q1 namespace q2)
                         [alias; namespace] post)) with post.
    rewrite (find_all_context _ _
               (last (declaration_text b alias q1 namespace q2)) None)
      by (rewrite declaration_text_last; reflexivity).
    reflexivity.
  - exact useTranslation_productive.
  - apply useTranslation_barren. exact Hpre.
  - apply useTranslation_match. exact Hform.
  - lia.
Qed.

(** One declaration, wherever it stands outside an open argument: the scan
    comes to it, matches it and goes on behind it. *)
Lemma FindAll_declaration_reached pre b alias q1 namespace q2 post :
  open_key pre = false ->
  declaration_form b alias q1 namespace q2 ->
  exists found,
    FindAllStringSubmatch useTranslationRegex
      (str (pre ++ declaration_text b alias q1 namespace q2 ++ post))
    = found
      ++ [str (declaration_text b alias q1 namespace q2); str alias;
          str namespace]
         :: FindAllStringSubmatch useTranslationRegex (str post).
Proof.
  intros Hopen Hform. unfold FindAllStringSubmatch.
  rewrite !list_ascii_of_string_of_list_ascii.
  destruct (find_all_reaches useTranslationRegex useTranslation_productive
              (length pre) None pre
              (declaration_text b alias q1 namespace q2 ++ post) (le_n _)
              (useTranslation_clear None pre _ _ _ _ _ post Hopen Hform))
    as [earlier He].
  exists (map submatch earlier). rewrite He, map_app. f_equal.
  pose proof (find_all_step useTranslationRegex
                (S (length (declaration_text b alias q1 namespace q2 ++ post)))
                (after None pre) []
                (declaration_text b alias q1 namespace q2 ++ post)
                (Result (declaration_text b alias q1 namespace q2)
                        [alias; namespace] post)
                useTranslation_productive) as Hstep.
  cbn [app whole rest] in Hstep. rewrite Hstep.
  - rewrite (find_all_context _ _
               (last (declaration_text b alias q1 namespace q2)) None)
      by (rewrite declaration_text_last; reflexivity).
    reflexivity.
  - constructor.
  - apply useTranslation_match. exact Hform.
  - lia.
Qed.

(** ** Last writer wins *)

Lemma last_binding_nil x : last_binding x [] = None.
Proof. reflexivity. Qed.

Lemma last_binding_snoc x l k v :
  last_binding x (l ++ [(k, v)])
  = if decide (k = x) then Some v else last_binding x l.
Proof.
  unfold last_binding. rewrite filter_app, filter_cons, filter_nil. simpl.
  destruct (decide (k = x)).
  - rewrite last_snoc. reflexivity.
  - rewrite app_nil_r. reflexivity.
Qed.

Lemma last_binding_app x l1 l2 :
  last_binding x (l1 ++ l2)
  = match last_binding x l2 with
    | Some v => Some v
    | None => last_binding x l1
    end.
Proof.
  induction l2 as [|[k v] l2 IH] using rev_ind.
  - rewrite app_nil_r. reflexivity.
  - rewrite app_assoc, !last_binding_snoc.
    destruct (decide (k = x)); [reflexivity|exact IH].
Qed.

Lemma last_binding_elem x l v :
  last_binding x l = Some v -> (x, v) ∈ l.
Proof.
  unfold last_binding. destruct (last _) as [[k v']|] eqn:E; [|discriminate].
  intros [= <-]. apply last_Some_elem_of in E.
  apply list_elem_of_filter in E as [Hk Hin]. simpl in Hk. subst k.
  exact Hin.
Qed.

Lemma last_binding_None x l :
  last_binding x l = None -> forall v, (x, v) ∉ l.
Proof.
  unfold last_binding. destruct (last _) as [b|] eqn:E; [discriminate|].
  intros _ v Hin. apply last_None in E.
  assert ((x, v) ∈ filter (fun b => b.1 = x) l) as H'
    by (apply list_elem_of_filter; auto).
  rewrite E in H'. inversion H'.
Qed.

Lemma assign_all_snoc m l kv :
  assign_all m (l ++ [kv]) = <[kv.1 := kv.2]> (assign_all m l).
Proof. unfold assign_all. rewrite foldl_app. reflexivity. Qed.

Lemma assign_all_lookup m l x :
  assign_all m l !! x
  = match last_binding x l with
    | Some v => Some v
    | None => m !! x
    end.
Proof.
  induction l as [|[k v] l IH] using rev_ind.
  - reflexivity.
  - rewrite assign_all_snoc, last_binding_snoc. simpl.
    destruct (decide (k = x)) as [->|Hne].
    + apply lookup_insert_eq.
    + rewrite lookup_insert_ne by exact Hne. exact IH.
Qed.

Lemma declare_all m matches :
  foldl declare m matches = assign_all m (omap binding_of matches).
Proof.
  revert m. induction matches as [|x l IH]; intros m; [reflexivity|].
  simpl. rewrite IH. unfold declare, binding_of.
  destruct (x !! 1%nat), (x !! 2%nat); reflexivity.
Qed.

(** The map of one file binds each alias to its last declaration. *)
Lemma declarations_lookup contentStr x :
  declarations contentStr !! x = last_binding x (scanned contentStr).
Proof.
  unfold declarations, scanned. rewrite declare_all, assign_all_lookup.
  destruct (last_binding _ _); [reflexivity|apply lookup_empty].
Qed.

(** Under any order of enumeration the loop that merges a file map into the
    global map gives precedence to the file map. *)
Lemma assign_range_lookup
  (range : forall V : Type, nat -> gmap string V -> list (string * V))
  (i : nat) (global fileMap : gmap string string) (x : string) :
  enumerates range ->
  assign_all global (range _ i fileMap) !! x
  = match fileMap !! x with
    | Some v => Some v
    | None => global !! x
    end.
Proof.
  intros Hr. rewrite assign_all_lookup.
  destruct (last_binding x (range _ i fileMap)) as [v|] eqn:E.
  - apply last_binding_elem in E. rewrite (Hr _ i fileMap) in E.
    apply elem_of_map_to_list in E. rewrite E. reflexivity.
  - destruct (fileMap !! x) as [v|] eqn:Ev; [|reflexivity].
    apply elem_of_map_to_list in Ev. rewrite <- (Hr _ i fileMap) in Ev.
    exfalso. eapply last_binding_None; eassumption.
Qed.

(** The project-wide map binds each alias to its last declaration of the
    whole walk. *)
Lemma first_pass_lookup
  (range : forall V : Type, nat -> gmap string V -> list (string * V))
  (d : disk) (walk : list string) (i : nat) (global : gmap string string)
  (x : string) :
  enumerates range ->
  first_pass range d i walk global !! x
  = match last_binding x (walk_bindings d walk) with
    | Some v => Some v
    | None => global !! x
    end.
Proof.
  intros Hr. revert i global.
  induction walk as [|path walk IH]; intros i global; [reflexivity|].
  simpl. unfold walk_bindings in *. simpl.
  rewrite last_binding_app. unfold file_bindings at 2.
  unfold extractUseTranslationDeclarations.
  destruct (HasSuffix path ".tsx"); simpl.
  - destruct (ReadFile d path) as [content|].
    + rewrite IH. destruct (last_binding x (flat_map _ walk));
        [reflexivity|].
      rewrite (assign_range_lookup range i _ _ x Hr), declarations_lookup.
      reflexivity.
    + rewrite IH. destruct (last_binding x (flat_map _ walk)); reflexivity.
  - rewrite IH. destruct (last_binding x (flat_map _ walk)); reflexivity.
Qed.

Lemma walk_bindings_app d walk1 walk2 :
  walk_bindings d (walk1 ++ walk2)
  = walk_bindings d walk1 ++ walk_bindings d walk2.
Proof. apply flat_map_app. Qed.

Lemma scanned_declaration pre b alias q1 namespace q2 post :
  Forall (fun a => a <> "c"%char) pre ->
  declaration_form b alias q1 namespace q2 ->
  scanned (str (pre ++ declaration_text b alias q1 namespace q2 ++ post))
  = (str alias, str namespace) :: scanned (str post).
Proof.
  intros Hpre Hform. unfold scanned.
  rewrite (FindAll_declaration _ _ _ _ _ _ _ Hpre Hform). reflexivity.
Qed.

Lemma scanned_reached pre b alias q1 namespace q2 post :
  open_key pre = false ->
  declaration_form b alias q1 namespace q2 ->
  exists earlier,
    scanned (str (pre ++ declaration_text b alias q1 namespace q2 ++ post))
    = earlier ++ (str alias, str namespace) :: scanned (str post).
Proof.
  intros Hopen Hform.
  destruct (FindAll_declaration_reached _ _ _ _ _ _ post Hopen Hform)
    as [found Hf].
  exists (omap binding_of found). unfold scanned.
  rewrite Hf, omap_app. reflexivity.
Qed.

(** A declaration is bound unless a later one of the same alias replaces
    it. *)
Lemma last_binding_later x v earlier later :
  last_binding x (earlier ++ (x, v) :: later)
  = Some (default v (last_binding x later)).
Proof.
  change (earlier ++ (x, v) :: later) with (earlier ++ [(x, v)] ++ later).
  rewrite app_assoc, last_binding_app.
  destruct (last_binding x later); [reflexivity|].
  rewrite last_binding_snoc, decide_True by reflexivity. reflexivity.
Qed.

Lemma scanned_plain contentStr :
  Forall (fun b => plain_text b.2) (scanned contentStr).
Proof.
  unfold scanned.
  pose proof (useTranslation_submatches contentStr) as H.
  induction H as [|x l (text & alias & ns & -> & _ & _ & Hn & Hq) _ IH].
  - constructor.
  - simpl. constructor; [split; assumption|exact IH].
Qed.

(** C3, as stated, fails: a declaration inside the text of an earlier match
    is not scanned, nor is one whose alias holds a byte outside the word
    class, nor one whose namespace holds a quote. *)
Lemma declaration_not_collected :
  declarations
    "const{t:a}=useTranslation('zconst { t: x } = useTranslation(')')"
  !! "x" = None
  /\ declarations "const { t: $t } = useTranslation('ns')" = ∅
  /\ declarations
       ("const { t: x } = useTranslation("
        ++ String dquote ("it's" ++ String dquote ")")) = ∅.
Proof. repeat split; reflexivity. Qed.

(** C3, amended: a declaration with an alias of word bytes and a namespace
    that is not empty and holds no quote, either quote on each side, blanks
    allowed between its tokens but not between t and the colon, is scanned
    wherever it stands in a readable .tsx file of the walk, unless it lies
    inside the quoted argument of a call that is still open (the text before
    it ends with an opening parenthesis, blanks, a quote and bytes that are
    no quotes); the map of a file binds an alias to the namespace of the
    declaration of it scanned last, and the project-wide map to the one
    scanned last in the walk, so the scanned declaration is bound unless a
    later one replaces it. *)
Theorem declaration_collected
  (range : forall V : Type, nat -> gmap string V -> list (string * V))
  (d : disk) (walk1 : list string) (path : string) (walk2 : list string)
  (pre : list ascii) (b : blanks) (alias : list ascii) (q1 : ascii)
  (namespace : list ascii) (q2 : ascii) (post : list ascii) (x : string) :
  enumerates range ->
  open_key pre = false ->
  declaration_form b alias q1 namespace q2 ->
  HasSuffix path ".tsx" = true ->
  ReadFile d path
  = Some (str (pre ++ declaration_text b alias q1 namespace q2 ++ post)) ->
  (exists earlier,
     scanned (str (pre ++ declaration_text b alias q1 namespace q2 ++ post))
     = earlier ++ (str alias, str namespace) :: scanned (str post))
  /\ (forall contentStr,
        declarations contentStr !! x = last_binding x (scanned contentStr))
  /\ declarations
       (str (pre ++ declaration_text b alias q1 namespace q2 ++ post))
     !! str alias
     = Some (default (str namespace)
               (last_binding (str alias) (scanned (str post))))
  /\ first_pass range d 0 (walk1 ++ path :: walk2) ∅ !! x
     = last_binding x (walk_bindings d (walk1 ++ path :: walk2))
  /\ first_pass range d 0 (walk1 ++ path :: walk2) ∅ !! str alias
     = Some (default (str namespace)
               (last_binding (str alias)
                  (scanned (str post) ++ walk_bindings d walk2))).
Proof.
  intros Hr Hpre Hform Hsuffix Hread.
  destruct (scanned_reached _ _ _ _ _ _ post Hpre Hform) as [earlier Hscan].
  split; [eauto|]. split; [intros c; apply declarations_lookup|].
  split; [|split].
  - rewrite declarations_lookup, Hscan. apply last_binding_later.
  - rewrite (first_pass_lookup range d _ 0 ∅ x Hr).
    destruct (last_binding _ _); [reflexivity|apply lookup_empty].
  - rewrite (first_pass_lookup range d _ 0 ∅ (str alias) Hr).
    rewrite walk_bindings_app. unfold walk_bindings at 2. simpl flat_map.
    unfold file_bindings at 1. rewrite Hsuffix, Hread, Hscan.
    fold (walk_bindings d walk2).
    assert (walk_bindings d walk1
            ++ (earlier ++ (str alias, str namespace) :: scanned (str post))
            ++ walk_bindings d walk2
            = (walk_bindings d walk1 ++ earlier)
              ++ (str alias, str namespace)
                 :: (scanned (str post) ++ walk_bindings d walk2)) as ->
      by (rewrite <- !app_assoc; reflexivity).
    rewrite last_binding_later. reflexivity.
Qed.

Lemma declaration_collected_witness :
  first_pass (fun V _ m => map_to_list m)
    {[ "a.tsx" :=
         Regular "import c from 'c'; const { t: tUser } = useTranslation('user') y" ]}
    0 ["a.tsx"] ∅ !! "tUser"
  = Some "user".
Proof.
  refine (proj2 (proj2 (proj2 (proj2
    (declaration_collected (fun V _ m => map_to_list m)
       {[ "a.tsx" :=
            Regular "import c from 'c'; const { t: tUser } = useTranslation('user') y" ]}
       [] "a.tsx" [] (bytes "import c from 'c'; ")
       (Blanks (bytes " ") (bytes " ") (bytes " ") (bytes " ") (bytes " ")
               (bytes " ") [] [] [])
       (bytes "tUser") "'"%char (bytes "user") "'"%char (bytes " y")
       "tUser" _ _ _ _ _))))).
  - intros V n m. reflexivity.
  - reflexivity.
  - constructor; try reflexivity; try discriminate.
    repeat constructor.
  - reflexivity.
  - reflexivity.
Defined.

End Collector.

(** * What the extraction yields *)

Module Extracted.

Import Chars Regexp Notions RegexpFacts I18n PatternFacts KeyResolver
  Collector.

Lemma ToLower_plain s :
  forallb is_alnum (bytes s) = true ->
  forallb not_quote (bytes (ToLower s)) = true.
Proof.
  induction s as [|a s IH]; simpl; [reflexivity|].
  intros H. apply andb_true_iff in H as [Ha Hs].
  rewrite (alnum_not_quote _ (lower_alnum _ Ha)). apply IH. exact Hs.
Qed.

Lemma resolve_plain m c tl :
  map_Forall (fun _ ns => plain_text ns) m ->
  is_letter c = true -> forallb is_alnum (bytes tl) = true ->
  plain_text (resolve m (String "t" (String c tl))).
Proof.
  intros Hm Hc Htl. unfold resolve.
  destruct (m !! String "t" (String c tl)) as [ns|] eqn:E.
  - eapply Hm. exact E.
  - rewrite inferable_matched. split; [discriminate|].
    apply ToLower_plain. simpl. rewrite (letter_alnum _ Hc). exact Htl.
Qed.

Lemma calls_plain filePath contentStr m :
  map_Forall (fun _ ns => plain_text ns) m ->
  Forall (fun e => plain_text (Key e) /\ plain_text (Namespace e))
    (calls filePath contentStr m).
Proof.
  intros Hm. rewrite calls_flat_map.
  pose proof (allCalls_submatches contentStr) as H.
  induction H as [|x l (text & c & tl & key & -> & Hc & Htl & Hk & Hq) _ IH].
  - constructor.
  - simpl. constructor; [|exact IH]. simpl. split; [split; assumption|].
    apply resolve_plain; assumption.
Qed.

Lemma walk_bindings_plain d walk :
  Forall (fun b => plain_text b.2) (walk_bindings d walk).
Proof.
  unfold walk_bindings. induction walk as [|path walk IH]; simpl.
  - constructor.
  - apply Forall_app. split; [|exact IH]. unfold file_bindings.
    destruct (HasSuffix path ".tsx"); [|constructor].
    destruct (ReadFile d path); [apply scanned_plain|constructor].
Qed.

Lemma first_pass_plain
  (range : forall V : Type, nat -> gmap string V -> list (string * V))
  d walk :
  enumerates range ->
  map_Forall (fun _ ns => plain_text ns) (first_pass range d 0 walk ∅).
Proof.
  intros Hr x ns H. rewrite (first_pass_lookup range d walk 0 ∅ x Hr) in H.
  destruct (last_binding x (walk_bindings d walk)) as [v|] eqn:E.
  - injection H as ->. apply last_binding_elem in E.
    pose proof (walk_bindings_plain d walk) as Hall.
    rewrite Forall_forall in Hall. apply (Hall _ E).
  - rewrite lookup_empty in H. discriminate.
Qed.

Lemma second_pass_Forall (P : TranslationKey -> Prop) d walk m keys :
  (forall filePath contentStr, Forall P (calls filePath contentStr m)) ->
  Forall P keys -> Forall P (second_pass d walk m keys).
Proof.
  intros Hc. revert keys. induction walk as [|path walk IH]; intros keys Hk.
  - exact Hk.
  - simpl. destruct (HasSuffix path ".tsx"); simpl; [|apply IH; exact Hk].
    unfold parseFileWithMapping. destruct (ReadFile d path).
    + apply IH. apply Forall_app. split; [exact Hk|apply Hc].
    + apply IH. exact Hk.
Qed.

Lemma declarations_plain contentStr :
  map_Forall (fun _ ns => plain_text ns) (declarations contentStr).
Proof.
  intros x ns H. rewrite declarations_lookup in H.
  apply last_binding_elem in H.
  pose proof (scanned_plain contentStr) as Hall.
  rewrite Forall_forall in Hall. apply (Hall _ H).
Qed.

(** C10: in both patterns either quote may open and either may close the
    literal, whether they agree or not: the map that
    extractUseTranslationDeclarations builds binds the alias to the
    namespace between the two quotes, and parseFileWithMapping yields the
    key between them; and every namespace of that map and of the
    project-wide map, and every key and every namespace the extraction
    yields, is not empty and holds neither quote. *)
Theorem quotes_need_not_agree
  (range : forall V : Type, nat -> gmap string V -> list (string * V))
  (d : disk) (walk : list string) (contentStr : string) (q1 q2 : ascii) :
  enumerates range ->
  is_quote q1 = true ->
  is_quote q2 = true ->
  declarations
    (str (bytes "const { t: tC } = useTranslation("
          ++ q1 :: bytes "common" ++ q2 :: bytes ")"))
  = {[ "tC" := "common" ]}
  /\ calls "a.tsx" (str (bytes "tC(" ++ q1 :: bytes "save" ++ q2 :: bytes ")"))
       (<["tC" := "common"]> ∅)
     = [mkTranslationKey "save" "common" "a.tsx"]
  /\ map_Forall (fun _ ns => plain_text ns) (declarations contentStr)
  /\ map_Forall (fun _ ns => plain_text ns) (first_pass range d 0 walk ∅)
  /\ Forall (fun e => plain_text (Key e) /\ plain_text (Namespace e))
       (extractTranslationKeys range d walk).
Proof.
  intros Hr Hq1 Hq2. split; [|split; [|split; [|split]]].
  - unfold declarations.
    assert (FindAllStringSubmatch useTranslationRegex
              (str (bytes "const { t: tC } = useTranslation("
                    ++ q1 :: bytes "common" ++ q2 :: bytes ")"))
            = [str (declaration_text
                      (Blanks (bytes " ") (bytes " ") (bytes " ") (bytes " ")
                              (bytes " ") (bytes " ") [] [] [])
                      (bytes "tC") q1 (bytes "common") q2);
               "tC"; "common"]
              :: FindAllStringSubmatch useTranslationRegex (str [])) as ->.
    { apply (FindAll_declaration []
               (Blanks (bytes " ") (bytes " ") (bytes " ") (bytes " ")
                       (bytes " ") (bytes " ") [] [] [])
               (bytes "tC") q1 (bytes "common") q2 []).
      - constructor.
      - constructor; try assumption; try reflexivity; try discriminate.
        repeat constructor. }
    reflexivity.
  - change (str (bytes "tC(" ++ q1 :: bytes "save" ++ q2 :: bytes ")"))
      with (str ([] ++ call_text (bytes "tC") [] [] q1 (bytes "save") q2 []
                 ++ [])).
    rewrite (call_sites_matched_aux "a.tsx" (<["tC" := "common"]> ∅) []
               (bytes "tC") [] [] q1 (bytes "save") q2 [] []).
    + reflexivity.
    + constructor.
    + reflexivity.
    + constructor; try assumption; try reflexivity; try discriminate.
      exists "C"%char, []. repeat split; reflexivity.
  - apply declarations_plain.
  - apply first_pass_plain. exact Hr.
  - unfold extractTranslationKeys. apply second_pass_Forall; [|constructor].
    intros filePath c. apply calls_plain. apply first_pass_plain. exact Hr.
Qed.

Lemma quotes_need_not_agree_witness :
  declarations
    ("const { t: tC } = useTranslation('common" ++ String dquote ")")
  = {[ "tC" := "common" ]}.
Proof.
  refine (proj1 (quotes_need_not_agree (fun V _ m => map_to_list m) ∅ []
                   "" "'"%char dquote _ _ _)).
  - intros V n m. reflexivity.
  - reflexivity.
  - reflexivity.
Defined.

End Extracted.

(** * The Merger *)

Module Merger.

Import Chars Notions I18n JoinI18n.

Lemma merge_entry_lookup (m : gmap string string) kv key :
  merge_entry m kv !! key
  = if decide (kv.1 = key) then merge_value (m !! key) kv.2 else m !! key.
Proof.
  unfold merge_entry, merge_value. destruct kv as [k v]. simpl.
  destruct (decide (k = key)) as [->|Hne].
  - destruct (m !! key) as [e|] eqn:E.
    + destruct (String.eqb e "" && negb (String.eqb v "")).
      * apply lookup_insert_eq.
      * exact E.
    + apply lookup_insert_eq.
  - destruct (m !! k) as [e|].
    + destruct (String.eqb e "" && negb (String.eqb v ""));
        [apply lookup_insert_ne; exact Hne|reflexivity].
    + apply lookup_insert_ne. exact Hne.
Qed.

(** The value of a key after the loop depends on the entries of that key
    only. *)
Lemma foldl_merge_lookup (m : gmap string string) l key :
  foldl merge_entry m l !! key
  = foldl merge_value (m !! key)
      (map snd (filter (fun kv => kv.1 = key) l)).
Proof.
  revert m. induction l as [|kv l IH]; intros m; [reflexivity|].
  simpl. rewrite IH, merge_entry_lookup, filter_cons.
  destruct (decide (kv.1 = key)); reflexivity.
Qed.

Lemma filter_key_map_to_list (m : gmap string string) key :
  filter (fun kv => kv.1 = key) (map_to_list m)
  ≡ₚ match m !! key with Some v => [(key, v)] | None => [] end.
Proof.
  apply NoDup_Permutation.
  - apply NoDup_filter, NoDup_map_to_list.
  - destruct (m !! key); [apply NoDup_singleton|apply NoDup_nil_2].
  - intros [k v]. rewrite list_elem_of_filter, elem_of_map_to_list. simpl.
    split.
    + intros [-> Hv]. rewrite Hv. apply list_elem_of_singleton. reflexivity.
    + destruct (m !! key) as [v'|] eqn:E.
      * intros [= -> ->]%list_elem_of_singleton. auto.
      * intros H. inversion H.
Qed.

Lemma values_of_enumeration (m : gmap string string) l key :
  l ≡ₚ map_to_list m ->
  map snd (filter (fun kv => kv.1 = key) l)
  = match m !! key with Some v => [v] | None => [] end.
Proof.
  intros Hl.
  assert (filter (fun kv => kv.1 = key) l
          ≡ₚ match m !! key with Some v => [(key, v)] | None => [] end)
    as H by (rewrite Hl; apply filter_key_map_to_list).
  destruct (m !! key) as [v|].
  - apply Permutation_singleton_r in H. rewrite H. reflexivity.
  - apply Permutation_nil_r in H. rewrite H. reflexivity.
Qed.

(** The rule of the merge, key by key, whatever the order of the range. *)
Lemma merge_data_lookup
  (range : forall V : Type, nat -> gmap string V -> list (string * V))
  i (merged data : gmap string string) key :
  enumerates range ->
  merge_data range i merged data !! key
  = match data !! key with
    | Some value => merge_value (merged !! key) value
    | None => merged !! key
    end.
Proof.
  intros Hr. unfold merge_data.
  rewrite foldl_merge_lookup, (values_of_enumeration data _ key (Hr _ i data)).
  destruct (data !! key); reflexivity.
Qed.

Lemma merge_dicts_lookup
  (range : forall V : Type, nat -> gmap string V -> list (string * V))
  i ds (merged : gmap string string) key :
  enumerates range ->
  merge_dicts range i ds merged !! key
  = foldl merge_value (merged !! key) (values_of key ds).
Proof.
  intros Hr. revert i merged.
  induction ds as [|data ds IH]; intros i merged; [reflexivity|].
  simpl. rewrite IH, (merge_data_lookup range i merged data key Hr).
  unfold values_of. simpl. destruct (data !! key); reflexivity.
Qed.

Lemma merge_value_kept e values :
  e <> "" -> foldl merge_value (Some e) values = Some e.
Proof.
  intros He. induction values as [|v values IH]; [reflexivity|].
  simpl. apply String.eqb_neq in He. rewrite He. exact IH.
Qed.

Lemma merge_value_empty values :
  foldl merge_value (Some "") values
  = Some (default "" (head (filter (fun v => v <> "") values))).
Proof.
  induction values as [|v values IH]; [reflexivity|].
  simpl. rewrite filter_cons. destruct (decide (v <> "")) as [Hv|Hv].
  - pose proof Hv as Hb. apply String.eqb_neq in Hb. rewrite Hb. simpl.
    apply merge_value_kept. exact Hv.
  - assert (v = "") as -> by (destruct (decide (v = "")); tauto).
    simpl. exact IH.
Qed.

(** The first value that is not empty wins. *)
Lemma merge_value_first values :
  foldl merge_value None values = first_nonempty values.
Proof.
  unfold first_nonempty. destruct values as [|v values]; [reflexivity|].
  simpl. rewrite filter_cons. destruct (decide (v <> "")) as [Hv|Hv].
  - apply merge_value_kept. exact Hv.
  - assert (v = "") as -> by (destruct (decide (v = "")); tauto).
    rewrite merge_value_empty.
    destruct (filter _ values); reflexivity.
Qed.

Lemma merge_from_parsed
  (range : forall V : Type, nat -> gmap string V -> list (string * V))
  (Unmarshal : string -> option (gmap string string))
  files ds i merged w :
  parsed Unmarshal (fs w) files ds ->
  (merge_from range Unmarshal i files merged w).1
  = Some (merge_dicts range i ds merged).
Proof.
  intros H. revert ds i merged w H.
  induction files as [|file files IH]; intros ds i merged w H.
  - inversion H; subst. reflexivity.
  - inversion H as [|? data ? ds' (content & Hread & Hparse) H']; subst.
    simpl. rewrite Hread, Hparse. apply IH. exact H'.
Qed.

Lemma merge_value_some e values :
  exists e', foldl merge_value (Some e) values = Some e'.
Proof.
  revert e. induction values as [|v values IH]; intros e; simpl.
  - eauto.
  - destruct (String.eqb e "" && negb (String.eqb v "")); apply IH.
Qed.

Lemma values_of_app key ds1 ds2 :
  values_of key (ds1 ++ ds2) = values_of key ds1 ++ values_of key ds2.
Proof. apply omap_app. Qed.

(** Merging the result of a merge with more dictionaries is merging them
    all. *)
Lemma merge_dicts_batch
  (r1 r2 r3 : forall V : Type, nat -> gmap string V -> list (string * V))
  xs ys :
  enumerates r1 -> enumerates r2 -> enumerates r3 ->
  merge_dicts r1 0 (merge_dicts r2 0 xs ∅ :: ys) ∅
  = merge_dicts r3 0 (xs ++ ys) ∅.
Proof.
  intros H1 H2 H3. apply map_eq. intros key.
  rewrite (merge_dicts_lookup r1 _ _ _ key H1).
  rewrite (merge_dicts_lookup r3 _ _ _ key H3).
  rewrite values_of_app, foldl_app, lookup_empty.
  unfold values_of at 1. simpl.
  rewrite (merge_dicts_lookup r2 _ _ _ key H2), lookup_empty.
  fold (values_of key ys).
  destruct (values_of key xs) as [|v vs]; [reflexivity|]. simpl.
  destruct (merge_value_some v vs) as [e He]. rewrite He. reflexivity.
Qed.

(** C5: merging a dictionary into what is merged so far takes the value of
    an unseen key as it is, replaces an empty value by one that is not, and
    keeps a value that is not empty; over the files in order the first value
    that is not empty wins; the two dictionaries of the example give a:y and
    b:x. *)
Theorem first_nonempty_wins
  (range : forall V : Type, nat -> gmap string V -> list (string * V))
  (Unmarshal : string -> option (gmap string string))
  (i : nat) (merged data : gmap string string) (key : string)
  (files : list string) (ds : list (gmap string string)) (w : world) :
  enumerates range ->
  parsed Unmarshal (fs w) files ds ->
  merge_data range i merged data !! key
  = match data !! key, merged !! key with
    | None, existing => existing
    | Some value, None => Some value
    | Some value, Some existingValue =>
        if decide (existingValue = "" /\ value <> "") then Some value
        else Some existingValue
    end
  /\ (mergeJSONFiles range Unmarshal files w).1
     = Some (merge_dicts range 0 ds ∅)
  /\ merge_dicts range 0 ds ∅ !! key = first_nonempty (values_of key ds)
  /\ merge_dicts range 0
       [ {[ "a" := ""; "b" := "x" ]}; {[ "a" := "y"; "b" := "z" ]} ] ∅
     = {[ "a" := "y"; "b" := "x" ]}.
Proof.
  intros Hr Hp. split; [|split; [|split]].
  - rewrite (merge_data_lookup range i merged data key Hr).
    destruct (data !! key) as [v|]; [|reflexivity].
    destruct (merged !! key) as [e|]; [|reflexivity]. simpl.
    destruct (String.eqb_spec e ""), (String.eqb_spec v ""); simpl;
      destruct (decide _); tauto.
  - apply merge_from_parsed. exact Hp.
  - rewrite (merge_dicts_lookup range 0 ds ∅ key Hr), lookup_empty.
    apply merge_value_first.
  - apply map_eq. intros k.
    rewrite (merge_dicts_lookup range 0 _ ∅ k Hr), lookup_empty.
    unfold values_of. simpl.
    destruct (decide (k = "a")) as [->|Ha]; [reflexivity|].
    destruct (decide (k = "b")) as [->|Hb]; [reflexivity|].
    rewrite !lookup_insert_ne, !lookup_singleton_ne by congruence.
    reflexivity.
Qed.

Lemma first_nonempty_wins_witness :
  (mergeJSONFiles (fun V _ m => map_to_list m)
     (Unmarshal_among
        [ {[ "a" := ""; "b" := "x" ]}; {[ "a" := "y"; "b" := "z" ]} ])
     ["common.json"; "common2.json"]
     (World
        {[ "common.json" :=
             Regular (MarshalIndent quote_plain {[ "a" := ""; "b" := "x" ]});
           "common2.json" :=
             Regular (MarshalIndent quote_plain {[ "a" := "y"; "b" := "z" ]})
        ]} [])).1
  = Some {[ "a" := "y"; "b" := "x" ]}.
Proof.
  destruct (first_nonempty_wins (fun V _ m => map_to_list m)
     (Unmarshal_among
        [ {[ "a" := ""; "b" := "x" ]}; {[ "a" := "y"; "b" := "z" ]} ])
     0 ∅ ∅ "a" ["common.json"; "common2.json"]
     [ {[ "a" := ""; "b" := "x" ]}; {[ "a" := "y"; "b" := "z" ]} ]
     (World
        {[ "common.json" :=
             Regular (MarshalIndent quote_plain {[ "a" := ""; "b" := "x" ]});
           "common2.json" :=
             Regular (MarshalIndent quote_plain {[ "a" := "y"; "b" := "z" ]})
        ]} []))
    as (_ & Hmerge & _ & Hexample).
  - intros V n m. reflexivity.
  - repeat constructor; eexists; split; vm_compute; reflexivity.
  - rewrite Hmerge, Hexample. reflexivity.
Defined.

(** C7: merging the dictionaries A and B and then the result with C gives
    the dictionary that merging A, B and C gives, and so for any two batches
    in the order of the files, whatever the order of the ranges; the command
    computes this merge of the dictionaries its files parse to. *)
Theorem merge_batching
  (r1 r2 r3 : forall V : Type, nat -> gmap string V -> list (string * V))
  (Unmarshal : string -> option (gmap string string))
  (A B C : gmap string string) (xs ys : list (gmap string string))
  (files : list string) (w : world) :
  enumerates r1 -> enumerates r2 -> enumerates r3 ->
  parsed Unmarshal (fs w) files (xs ++ ys) ->
  merge_dicts r1 0 [merge_dicts r2 0 [A; B] ∅; C] ∅
  = merge_dicts r3 0 [A; B; C] ∅
  /\ merge_dicts r1 0 (merge_dicts r2 0 xs ∅ :: ys) ∅
     = merge_dicts r3 0 (xs ++ ys) ∅
  /\ (mergeJSONFiles r3 Unmarshal files w).1
     = Some (merge_dicts r1 0 (merge_dicts r2 0 xs ∅ :: ys) ∅).
Proof.
  intros H1 H2 H3 Hp. split; [|split].
  - apply (merge_dicts_batch r1 r2 r3 [A; B] [C]); assumption.
  - apply merge_dicts_batch; assumption.
  - rewrite (merge_dicts_batch r1 r2 r3 xs ys H1 H2 H3).
    apply merge_from_parsed. exact Hp.
Qed.

Lemma merge_batching_witness :
  merge_dicts (fun V _ m => map_to_list m) 0
    [merge_dicts (fun V _ m => map_to_list m) 0
       [ {[ "a" := ""; "b" := "x" ]}; {[ "a" := "y"; "b" := "z" ]} ] ∅;
     {[ "a" := "w"; "c" := "" ]}] ∅
  = merge_dicts (fun V _ m => map_to_list m) 0
      [ {[ "a" := ""; "b" := "x" ]}; {[ "a" := "y"; "b" := "z" ]};
        {[ "a" := "w"; "c" := "" ]} ] ∅.
Proof.
  refine (proj1 (merge_batching (fun V _ m => map_to_list m)
    (fun V _ m => map_to_list m) (fun V _ m => map_to_list m)
    (Unmarshal_among []) {[ "a" := ""; "b" := "x" ]}
    {[ "a" := "y"; "b" := "z" ]} {[ "a" := "w"; "c" := "" ]}
    [] [] [] (World ∅ []) _ _ _ _)).
  - intros V n m. reflexivity.
  - intros V n m. reflexivity.
  - intros V n m. reflexivity.
  - constructor.
Defined.

End Merger.

(** * Facts about the disk *)

Module DiskFacts.

Import Notions I18n.

Lemma left_by_other failure (d : disk) path data p :
  p <> path -> left_by failure d path data !! p = d !! p.
Proof.
  intros Hp. unfold left_by. destruct (failure path); [|reflexivity].
  apply lookup_insert_ne. congruence.
Qed.

(** A call of WriteFile touches no other path, whether it succeeds or not. *)
Lemma WriteFile_other writable failure (d : disk) path data p :
  p <> path -> (WriteFile writable failure d path data).2 !! p = d !! p.
Proof.
  intros Hp. unfold WriteFile. destruct (writable path); simpl.
  - apply lookup_insert_ne. congruence.
  - apply left_by_other. exact Hp.
Qed.

Lemma store_other (d : disk) files path :
  path ∉ files.*1 -> store d files !! path = d !! path.
Proof.
  induction files as [|[name data] files IH] using rev_ind; intros Hp.
  - reflexivity.
  - unfold store in *. rewrite foldl_snoc. simpl.
    rewrite fmap_app in Hp. simpl in Hp.
    rewrite lookup_insert_ne.
    + apply IH. intros H. apply Hp, elem_of_app. auto.
    + intros ->. apply Hp, elem_of_app. right. left.
Qed.

Lemma store_written (d : disk) files name data :
  NoDup files.*1 -> (name, data) ∈ files ->
  store d files !! name = Some (Regular data).
Proof.
  induction files as [|[n c] files IH] using rev_ind; intros Hnd Hin.
  - inversion Hin.
  - unfold store in *. rewrite foldl_snoc. simpl.
    rewrite fmap_app in Hnd. simpl in Hnd.
    apply NoDup_app in Hnd as (Hnd & Hfresh & _).
    apply elem_of_app in Hin as [Hin|Hin%list_elem_of_singleton].
    + rewrite lookup_insert_ne; [apply IH; assumption|].
      intros ->. apply (Hfresh name); [|left].
      apply list_elem_of_fmap. exists (name, data). auto.
    + injection Hin as -> ->. apply lookup_insert_eq.
Qed.

(** Files of different names can be written in any order. *)
Lemma store_Permutation (d : disk) files files' :
  NoDup files.*1 -> files ≡ₚ files' -> store d files = store d files'.
Proof.
  intros Hnd Hperm. apply map_eq. intros path.
  assert (NoDup files'.*1) as Hnd' by (rewrite <- Hperm; exact Hnd).
  destruct (decide (path ∈ files.*1)) as [Hin|Hout].
  - apply list_elem_of_fmap in Hin as ([name data] & -> & Hin). simpl.
    rewrite (store_written d files name data Hnd Hin).
    rewrite Hperm in Hin.
    rewrite (store_written d files' name data Hnd' Hin). reflexivity.
  - rewrite (store_other d files path Hout).
    rewrite Hperm in Hout. rewrite (store_other d files' path Hout).
    reflexivity.
Qed.

Lemma writable_prefix_elem writable files file :
  file ∈ writable_prefix writable files -> file ∈ files.
Proof.
  induction files as [|x files IH]; simpl; [auto|].
  destruct (writable x.1); [|intros H; inversion H].
  intros [->|H]%elem_of_cons; [left|right; auto].
Qed.

Lemma writable_prefix_NoDup writable files :
  NoDup files.*1 -> NoDup (writable_prefix writable files).*1.
Proof.
  induction files as [|x files IH]; simpl; [auto|].
  intros [Hx Hnd]%NoDup_cons. destruct (writable x.1); [|constructor].
  simpl. apply NoDup_cons. split; [|auto].
  intros (y & Hy & Hin)%list_elem_of_fmap. apply Hx.
  apply list_elem_of_fmap. exists y. split; [exact Hy|].
  eapply writable_prefix_elem. exact Hin.
Qed.

Lemma first_unwritable_elem writable files file :
  first_unwritable writable files = Some file ->
  file ∈ files /\ writable file.1 = false.
Proof.
  induction files as [|x files IH]; simpl; [discriminate|].
  destruct (writable x.1) eqn:E.
  - intros H. destruct (IH H). split; [right|]; assumption.
  - intros [= <-]. split; [left|exact E].
Qed.

(** When every file can be written, all of them are. *)
Lemma all_written writable files :
  forallb (fun file : string * string => writable file.1) files = true ->
  writable_prefix writable files = files
  /\ first_unwritable writable files = None.
Proof.
  induction files as [|x files IH]; simpl; [auto|].
  destruct (writable x.1); [|discriminate]. simpl. intros H.
  destruct (IH H) as [-> ->]. auto.
Qed.

(** The loop of generateTranslationFiles writes the files before the first
    that cannot be written, and tries that one. *)
Lemma write_files_attempted writable failure files (d : disk) :
  write_files writable failure files d
  = (forallb (fun file => writable file.1) files,
     attempted writable failure d files).
Proof.
  revert d. induction files as [|[name data] files IH]; intros d.
  - reflexivity.
  - simpl. unfold WriteFile, attempted. simpl.
    destruct (writable name); simpl.
    + rewrite IH. reflexivity.
    + reflexivity.
Qed.

End DiskFacts.

(** * The merge command *)

Module Command.

Import Chars Notions I18n JoinI18n DiskFacts.

Lemma world_eta w : World (fs w) (trace w ++ []) = w.
Proof. destruct w. simpl. rewrite app_nil_r. reflexivity. Qed.

(** The validation loop only calls Stat, on a prefix of the arguments, and
    on all of them when it succeeds. *)
Lemma validate_spec args w :
  exists k,
    validate args w
    = (forallb (valid_input (fs w)) args,
       World (fs w) (trace w ++ map SysStat (take k args)))
    /\ (if forallb (valid_input (fs w)) args then k = length args
        else k <= length args).
Proof.
  revert w. induction args as [|file args IH]; intros w.
  - exists 0. simpl. rewrite world_eta. auto.
  - simpl. unfold valid_input at 1 3.
    destruct (HasSuffix file ".json"); simpl.
    + destruct (IsNotExist (fs w) file); simpl.
      * exists 1. simpl. split; [reflexivity|lia].
      * destruct (IH (World (fs w) (trace w ++ [SysStat file])))
          as (k & Hv & Hk). simpl in Hv, Hk.
        exists (S k). rewrite Hv. simpl. rewrite <- app_assoc. simpl.
        split; [reflexivity|].
        destruct (forallb (valid_input (fs w)) args); lia.
    + exists 0. simpl. rewrite world_eta. split; [reflexivity|lia].
Qed.

(** The loop of mergeJSONFiles only reads, a prefix of the files, and all
    of them when it succeeds. *)
Lemma merge_from_spec
  (range : forall V : Type, nat -> gmap string V -> list (string * V))
  (Unmarshal : string -> option (gmap string string)) files i merged w :
  exists j r,
    merge_from range Unmarshal i files merged w
    = (r, World (fs w) (trace w ++ map SysRead (take j files)))
    /\ (if forallb (parses Unmarshal (fs w)) files
        then j = length files /\ is_Some r
        else j <= length files /\ r = None).
Proof.
  revert i merged w. induction files as [|file files IH]; intros i merged w.
  - exists 0, (Some merged). simpl. rewrite world_eta. eauto.
  - simpl. unfold parses at 1.
    destruct (ReadFile (fs w) file) as [content|]; simpl.
    + destruct (Unmarshal content) as [data|]; simpl.
      * destruct (IH (S i) (merge_data range i merged data)
                    (World (fs w) (trace w ++ [SysRead file])))
          as (j & r & Hm & Hj). simpl in Hm, Hj.
        exists (S j), r. rewrite Hm. simpl. rewrite <- app_assoc. simpl.
        split; [reflexivity|].
        destruct (forallb (parses Unmarshal (fs w)) files);
          destruct Hj; split; auto; lia.
      * exists 1, None. simpl. split; [reflexivity|].
        split; [lia|reflexivity].
    + exists 1, None. simpl. split; [reflexivity|].
      split; [lia|reflexivity].
Qed.

(** C6, as stated, fails: a write that fails once the file is open leaves
    an output file behind, here with the first two bytes of the text; the
    command exits with 1. *)
Lemma failed_write_leaves_output :
  (runJoinI18n (fun V _ m => map_to_list m)
     (Unmarshal_among [ {[ "a" := "y" ]} ]) quote_plain
     (fun _ => false) (fun _ => Some 2) ["a.json"] "out" ""
     (World {[ "a.json" := Regular (MarshalIndent quote_plain {[ "a" := "y" ]}) ]}
        [])).1
  = 1
  /\ fs (runJoinI18n (fun V _ m => map_to_list m)
           (Unmarshal_among [ {[ "a" := "y" ]} ]) quote_plain
           (fun _ => false) (fun _ => Some 2) ["a.json"] "out" ""
           (World
              {[ "a.json" :=
                   Regular (MarshalIndent quote_plain {[ "a" := "y" ]}) ]}
              [])).2
     !! "out.json"
     = Some (Regular ("{" ++ newline)).
Proof. split; vm_compute; reflexivity. Qed.

(** C6, amended: the command checks every path before it reads any file and
    reads every file before it writes; it exits with 0 only when every path
    is valid, every file is read and decoded without error and the write
    succeeds, and with 1 otherwise. After a path that is not valid nothing
    is read or written; after a file that cannot be read or decoded nothing
    is written, and in both cases the disk is as it was. The one write is
    that of the output: when it fails, the output file is left as the failed
    call of WriteFile leaves it, and whatever happens no other path
    changes. *)
Theorem merge_aborts_cleanly
  (range : forall V : Type, nat -> gmap string V -> list (string * V))
  (Unmarshal : string -> option (gmap string string))
  (quote : string -> string) (writable : string -> bool)
  (failure : string -> option nat)
  (args : list string) (outputFile hex : string) (w : world) :
  let valid := forallb (valid_input (fs w)) args in
  let parse := forallb (parses Unmarshal (fs w)) args in
  let output := output_path outputFile hex in
  let out :=
    runJoinI18n range Unmarshal quote writable failure args outputFile hex w
  in
  out.1 = (if valid && parse && writable output then 0 else 1)
  /\ (if valid && parse
      then exists json,
             fs out.2
             = (if writable output
                then <[output := Regular json]> (fs w)
                else left_by failure (fs w) output json)
      else fs out.2 = fs w)
  /\ (forall path, path <> output -> fs out.2 !! path = fs w !! path)
  /\ exists k j writes,
       trace out.2
       = trace w ++ map SysStat (take k args) ++ map SysRead (take j args)
         ++ writes
       /\ (if valid then k = length args else j = 0 /\ writes = [])
       /\ (if valid && parse
           then j = length args /\ exists json, writes = [SysWrite output json]
           else writes = []).
Proof.
  intros valid parse output out. subst out. unfold runJoinI18n.
  destruct (validate_spec args w) as (k & Hv & Hk). rewrite Hv.
  fold valid in Hk |- *. destruct valid; simpl.
  - unfold mergeJSONFiles.
    destruct (merge_from_spec range Unmarshal args 0 ∅
                (World (fs w) (trace w ++ map SysStat (take k args))))
      as (j & r & Hm & Hj). simpl in Hm, Hj. rewrite Hm.
    fold parse in Hj |- *. destruct parse; simpl.
    + destruct Hj as [Hj [merged ->]].
      unfold writeJSONFile, os_WriteFile. cbn [fs trace]. fold output.
      set (json := MarshalIndent quote _).
      pose proof (WriteFile_other writable failure (fs w) output json)
        as Hother.
      unfold WriteFile in *. destruct (writable output); simpl in *.
      * split; [reflexivity|]. split; [eauto|]. split; [exact Hother|].
        exists k, j, [SysWrite output json].
        rewrite <- !app_assoc. eauto.
      * split; [reflexivity|]. split; [eauto|]. split; [exact Hother|].
        exists k, j, [SysWrite output json].
        rewrite <- !app_assoc. eauto.
    + destruct Hj as [Hj ->]. simpl. split; [reflexivity|].
      split; [reflexivity|]. split; [reflexivity|].
      exists k, j, []. rewrite app_nil_r.
      rewrite <- !app_assoc. auto.
  - split; [reflexivity|]. split; [reflexivity|]. split; [reflexivity|].
    exists k, 0, []. simpl. rewrite app_nil_r. auto.
Qed.

End Command.

(** * The Aggregator and Writer *)

Module Writer.

Import Chars Notions I18n DiskFacts.

#[local] Instance string_le_total : Total string_le.
Proof. intros a b. apply String.leb_total. Qed.

Lemma string_le_lt a b : string_le a b -> a <> b -> string_lt a b.
Proof.
  unfold string_le, string_lt, String.leb, String.ltb. intros Hle Hne.
  destruct (String.compare a b) eqn:E; try reflexivity; try discriminate.
  apply String.compare_eq_iff in E. contradiction.
Qed.

(** A sorted list without repetition ascends strictly. *)
Lemma Sorted_strict l : Sorted string_le l -> NoDup l -> Sorted string_lt l.
Proof.
  induction 1 as [|x l Hs IH Hhd]; intros Hnd; constructor.
  - apply IH. apply NoDup_cons in Hnd as [_ Hnd]. exact Hnd.
  - apply NoDup_cons in Hnd as [Hx _].
    destruct Hhd as [|y l Hxy]; constructor.
    apply string_le_lt; [exact Hxy|]. intros ->. apply Hx. left.
Qed.

Lemma keys_of_snoc ns keys e :
  keys_of ns (keys ++ [e])
  = keys_of ns keys ++ (if decide (Namespace e = ns) then [Key e] else []).
Proof.
  unfold keys_of. rewrite filter_app, map_app, filter_cons, filter_nil.
  destruct (decide (Namespace e = ns)); reflexivity.
Qed.

Lemma keys_of_elem ns keys k :
  k ∈ keys_of ns keys <-> exists e, e ∈ keys /\ Namespace e = ns /\ Key e = k.
Proof.
  unfold keys_of.
  change (map Key (filter (fun e => Namespace e = ns) keys))
    with (Key <$> filter (fun e => Namespace e = ns) keys).
  rewrite list_elem_of_fmap. split.
  - intros (e & -> & [Hns He]%list_elem_of_filter). eauto.
  - intros (e & He & Hns & <-). exists e. split; [reflexivity|].
    apply list_elem_of_filter. auto.
Qed.

(** The grouping loop gives each namespace the keys of its entries. *)
Lemma group_keys_lookup keys ns :
  foldl group_key ∅ keys !! ns
  = match keys_of ns keys with [] => None | l => Some l end.
Proof.
  induction keys as [|e keys IH] using rev_ind; [reflexivity|].
  rewrite foldl_snoc, keys_of_snoc. unfold group_key at 1.
  destruct (decide (Namespace e = ns)) as [Heq|Hne].
  - rewrite Heq, lookup_insert_eq, IH.
    destruct (keys_of ns keys); reflexivity.
  - rewrite lookup_insert_ne by exact Hne. rewrite app_nil_r. exact IH.
Qed.

Lemma mark_keys_lookup keysList k :
  foldl mark_key ∅ keysList !! k
  = if decide (k ∈ keysList) then Some true else None.
Proof.
  induction keysList as [|x l IH] using rev_ind.
  - rewrite decide_False by (intros H; inversion H). reflexivity.
  - rewrite foldl_snoc. unfold mark_key at 1.
    destruct (decide (x = k)) as [->|Hne].
    + rewrite lookup_insert_eq, decide_True; [reflexivity|].
      apply elem_of_app. right. left.
    + rewrite lookup_insert_ne by exact Hne. rewrite IH.
      destruct (decide (k ∈ l)) as [Hin|Hin].
      * rewrite decide_True; [reflexivity|]. apply elem_of_app. auto.
      * rewrite decide_False; [reflexivity|].
        intros [H|H%list_elem_of_singleton]%elem_of_app; congruence.
Qed.

Lemma blank_keys_lookup (l : list (string * bool)) k :
  foldl blank_key ∅ l !! k = if decide (k ∈ l.*1) then Some "" else None.
Proof.
  induction l as [|[x b] l IH] using rev_ind.
  - rewrite decide_False by (intros H; inversion H). reflexivity.
  - rewrite foldl_snoc, fmap_app. unfold blank_key at 1. simpl.
    destruct (decide (x = k)) as [->|Hne].
    + rewrite lookup_insert_eq, decide_True; [reflexivity|].
      apply elem_of_app. right. left.
    + rewrite lookup_insert_ne by exact Hne. rewrite IH.
      destruct (decide (k ∈ l.*1)) as [Hin|Hin].
      * rewrite decide_True; [reflexivity|]. apply elem_of_app. auto.
      * rewrite decide_False; [reflexivity|].
        intros [H|H%list_elem_of_singleton]%elem_of_app; congruence.
Qed.

Lemma blank_dictionary_lookup keysList k :
  blank_dictionary keysList !! k
  = if decide (k ∈ keysList) then Some "" else None.
Proof.
  unfold blank_dictionary. destruct (decide (k ∈ keysList)) as [Hin|Hin].
  - apply lookup_gset_to_gmap_Some. split; [|reflexivity].
    apply elem_of_list_to_set. exact Hin.
  - apply lookup_gset_to_gmap_None. rewrite elem_of_list_to_set. exact Hin.
Qed.

(** The dictionary of a namespace does not depend on the order of the
    range over the set of its keys. *)
Lemma translationMap_of_blank
  (range : forall V : Type, nat -> gmap string V -> list (string * V))
  j keysList :
  enumerates range ->
  translationMap_of range j keysList = blank_dictionary keysList.
Proof.
  intros Hr. apply map_eq. intros k. unfold translationMap_of.
  rewrite blank_keys_lookup, blank_dictionary_lookup.
  assert (k ∈ (range bool (S j) (foldl mark_key ∅ keysList)).*1
          <-> k ∈ keysList) as Hiff.
  { rewrite (Hr bool (S j) (foldl mark_key ∅ keysList)).
    rewrite list_elem_of_fmap. split.
    - intros ([k' b] & -> & Hin%elem_of_map_to_list). simpl.
      rewrite mark_keys_lookup in Hin.
      destruct (decide (k' ∈ keysList)); [assumption|discriminate].
    - intros Hin. exists (k, true). split; [reflexivity|].
      apply elem_of_map_to_list. rewrite mark_keys_lookup.
      rewrite decide_True by exact Hin. reflexivity. }
  destruct (decide (k ∈ keysList)) as [Hin|Hin].
  - rewrite decide_True by (apply Hiff; exact Hin). reflexivity.
  - rewrite decide_False by (rewrite Hiff; exact Hin). reflexivity.
Qed.



(** The entries of the grouping map are the namespaces that occur, each with
    the keys of its entries. *)
Lemma grouped_entry keys ns keysList :
  (ns, keysList) ∈ map_to_list (foldl group_key ∅ keys) <->
  keysList = keys_of ns keys /\ keysList <> [].
Proof.
  rewrite elem_of_map_to_list, group_keys_lookup.
  destruct (keys_of ns keys) as [|k l]; split.
  - discriminate.
  - intros [-> H]. congruence.
  - intros [= <-]. split; [reflexivity|discriminate].
  - intros [-> _]. reflexivity.
Qed.

(** The files of a run do not depend on the order of the inner ranges. *)
Lemma rendered_blank
  (range : forall V : Type, nat -> gmap string V -> list (string * V))
  quote keys :
  enumerates range ->
  rendered range quote keys
  = (fun e : string * list string =>
       (e.1, MarshalIndent quote (blank_dictionary e.2)))
    <$> range _ 0 (foldl group_key ∅ keys).
Proof.
  intros Hr. unfold rendered. rewrite <- imap_const. apply imap_ext.
  intros j [ns keysList] _. unfold render. simpl.
  rewrite (translationMap_of_blank range j keysList Hr). reflexivity.
Qed.

Lemma occurs_keys_of ns keys :
  keys_of ns keys <> [] <-> exists e, e ∈ keys /\ Namespace e = ns.
Proof.
  split.
  - destruct (keys_of ns keys) as [|k l] eqn:E; [congruence|]. intros _.
    assert (k ∈ keys_of ns keys) as Hk by (rewrite E; left).
    apply keys_of_elem in Hk as (e & He & Hns & _). eauto.
  - intros (e & He & Hns) E.
    assert (Key e ∈ keys_of ns keys) as Hk by (apply keys_of_elem; eauto).
    rewrite E in Hk. inversion Hk.
Qed.

(** The files of a run: one for each namespace that occurs, with the JSON
    text of the dictionary of its keys. *)
Lemma generated_files
  (range : forall V : Type, nat -> gmap string V -> list (string * V))
  quote Join rootDir keys :
  enumerates range ->
  generated range quote Join rootDir keys
  = (fun e : string * list string =>
       (fileName_of Join rootDir e.1,
        MarshalIndent quote (blank_dictionary e.2)))
    <$> range _ 0 (foldl group_key ∅ keys).
Proof.
  intros Hr. unfold generated. rewrite (rendered_blank range quote keys Hr).
  change (map ?f (?g <$> ?l)) with (f <$> (g <$> l)).
  rewrite <- list_fmap_compose. reflexivity.
Qed.

Lemma generated_elem
  (range : forall V : Type, nat -> gmap string V -> list (string * V))
  quote Join rootDir keys name text :
  enumerates range ->
  (name, text) ∈ generated range quote Join rootDir keys <->
  exists ns,
    (exists e, e ∈ keys /\ Namespace e = ns)
    /\ name = fileName_of Join rootDir ns
    /\ text = MarshalIndent quote (blank_dictionary (keys_of ns keys)).
Proof.
  intros Hr. rewrite (generated_files range quote Join rootDir keys Hr).
  rewrite list_elem_of_fmap. split.
  - intros ([ns keysList] & [= -> ->] & Hin). simpl.
    rewrite (Hr _ 0 _) in Hin. apply grouped_entry in Hin as [-> Hne].
    exists ns. split; [apply occurs_keys_of; exact Hne|auto].
  - intros (ns & Hocc & -> & ->). exists (ns, keys_of ns keys).
    split; [reflexivity|]. rewrite (Hr _ 0 _). apply grouped_entry.
    split; [reflexivity|]. apply occurs_keys_of. exact Hocc.
Qed.

Lemma generated_NoDup
  (range : forall V : Type, nat -> gmap string V -> list (string * V))
  quote Join rootDir keys :
  enumerates range -> separate_files Join rootDir keys ->
  NoDup (generated range quote Join rootDir keys).*1.
Proof.
  intros Hr Hsep. rewrite (generated_files range quote Join rootDir keys Hr).
  rewrite <- list_fmap_compose.
  apply NoDup_fmap_2_strong.
  - intros [ns1 l1] [ns2 l2] H1 H2 Heq. simpl in Heq.
    rewrite (Hr _ 0 _) in H1, H2.
    apply grouped_entry in H1 as [-> Hne1]. apply grouped_entry in H2 as [-> Hne2].
    apply occurs_keys_of in Hne1 as (e1 & He1 & <-).
    apply occurs_keys_of in Hne2 as (e2 & He2 & <-).
    rewrite (Hsep e1 e2 He1 He2 Heq). reflexivity.
  - rewrite (Hr _ 0 _). apply NoDup_map_to_list.
Qed.

Lemma generated_writable
  (range : forall V : Type, nat -> gmap string V -> list (string * V))
  quote Join writable rootDir keys :
  enumerates range -> all_writable Join writable rootDir keys ->
  forallb (fun file : string * string => writable file.1)
    (generated range quote Join rootDir keys) = true.
Proof.
  intros Hr Hw. apply forallb_forall. intros [name text] Hin.
  apply list_elem_of_In, (generated_elem range) in Hin
    as (ns & (e & He & <-) & -> & _); [|exact Hr].
  simpl. apply Hw. exact He.
Qed.

(** When entries of different namespaces go to different files and every
    file can be written, the loop writes them all. *)
Lemma generated_stored
  (range : forall V : Type, nat -> gmap string V -> list (string * V))
  quote Join writable failure rootDir keys (d : disk) :
  enumerates range -> all_writable Join writable rootDir keys ->
  generateTranslationFiles range quote Join writable failure rootDir keys d
  = (true, store d (generated range quote Join rootDir keys)).
Proof.
  intros Hr Hw. unfold generateTranslationFiles.
  rewrite write_files_attempted.
  pose proof (generated_writable range quote Join writable rootDir keys Hr Hw)
    as Hall.
  rewrite Hall. unfold attempted.
  destruct (all_written _ _ Hall) as [_ ->]. reflexivity.
Qed.




End Writer.

(** * Determinism of the extraction *)

Module Determinism.

Import Chars Notions I18n DiskFacts Collector Writer.

Lemma walk_bindings_ext d d' walk :
  Forall (fun p => ReadFile d p = ReadFile d' p) walk ->
  walk_bindings d walk = walk_bindings d' walk.
Proof.
  unfold walk_bindings. induction 1 as [|p walk Hp _ IH]; [reflexivity|].
  simpl. rewrite IH. unfold file_bindings. rewrite Hp. reflexivity.
Qed.

Lemma first_pass_ext
  (range1 range2 : forall V : Type, nat -> gmap string V -> list (string * V))
  d d' walk :
  enumerates range1 -> enumerates range2 ->
  Forall (fun p => ReadFile d p = ReadFile d' p) walk ->
  first_pass range1 d 0 walk ∅ = first_pass range2 d' 0 walk ∅.
Proof.
  intros H1 H2 Hw. apply map_eq. intros x.
  rewrite (first_pass_lookup range1 d walk 0 ∅ x H1).
  rewrite (first_pass_lookup range2 d' walk 0 ∅ x H2).
  rewrite (walk_bindings_ext d d' walk Hw). reflexivity.
Qed.

Lemma second_pass_ext d d' walk m keys :
  Forall (fun p => ReadFile d p = ReadFile d' p) walk ->
  second_pass d walk m keys = second_pass d' walk m keys.
Proof.
  intros Hw. revert keys. induction Hw as [|p walk Hp _ IH]; intros keys.
  - reflexivity.
  - simpl. unfold parseFileWithMapping. rewrite Hp.
    destruct (HasSuffix p ".tsx"); simpl; [|apply IH].
    destruct (ReadFile d' p); apply IH.
Qed.

(** C8, as stated, fails: when two namespaces share a file, here a and
    ./a, the text that the file is left with depends on the order in which
    the loop reaches the namespaces. *)
Lemma shared_file_depends_on_order :
  (generateTranslationFiles (fun V _ m => map_to_list m) quote_plain
     Filepath.Join (fun _ => true) (fun _ => None) "/w"
     (extractTranslationKeys (fun V _ m => map_to_list m)
        {[ "/w/x.tsx" :=
             Regular "const { t: tB } = useTranslation('./a'); tA('k1') tB('k2')" ]}
        ["/w/x.tsx"])
     ∅).2
  !! "/w/.i18n/a.json"
  = Some (Regular (object_text [blank_member quote_plain "k2"]))
  /\ (generateTranslationFiles (fun V _ m => reverse (map_to_list m))
        quote_plain Filepath.Join (fun _ => true) (fun _ => None) "/w"
        (extractTranslationKeys (fun V _ m => reverse (map_to_list m))
           {[ "/w/x.tsx" :=
                Regular "const { t: tB } = useTranslation('./a'); tA('k1') tB('k2')" ]}
           ["/w/x.tsx"])
        ∅).2
     !! "/w/.i18n/a.json"
     = Some (Regular (object_text [blank_member quote_plain "k1"])).
Proof. split; vm_compute; reflexivity. Qed.

(** C8, amended: two runs over the same files, whatever the order of their
    ranges over the maps, extract the same entries and generate for the same
    namespaces, each once, the same JSON text; and when the names of
    different namespaces are different paths and every file can be written,
    the two runs return nil and leave the same disk: the runs then differ
    only in the order in which the files are written. *)
Theorem extraction_is_deterministic
  (range1 range2 : forall V : Type, nat -> gmap string V -> list (string * V))
  (quote : string -> string) (Join : string -> string -> string)
  (writable : string -> bool) (failure : string -> option nat)
  (rootDir : string) (d d' : disk) (walk : list string) :
  enumerates range1 ->
  enumerates range2 ->
  Forall (fun p => ReadFile d p = ReadFile d' p) walk ->
  extractTranslationKeys range1 d walk = extractTranslationKeys range2 d' walk
  /\ rendered range1 quote (extractTranslationKeys range1 d walk)
     ≡ₚ rendered range2 quote (extractTranslationKeys range2 d' walk)
  /\ NoDup (rendered range1 quote (extractTranslationKeys range1 d walk)).*1
  /\ generated range1 quote Join rootDir
       (extractTranslationKeys range1 d walk)
     ≡ₚ generated range2 quote Join rootDir
          (extractTranslationKeys range2 d' walk)
  /\ (separate_files Join rootDir (extractTranslationKeys range1 d walk) ->
      all_writable Join writable rootDir
        (extractTranslationKeys range1 d walk) ->
      forall o : disk,
        generateTranslationFiles range1 quote Join writable failure rootDir
          (extractTranslationKeys range1 d walk) o
        = generateTranslationFiles range2 quote Join writable failure rootDir
            (extractTranslationKeys range2 d' walk) o
        /\ (generateTranslationFiles range1 quote Join writable failure
              rootDir (extractTranslationKeys range1 d walk) o).1
           = true).
Proof.
  intros H1 H2 Hw.
  assert (extractTranslationKeys range1 d walk
          = extractTranslationKeys range2 d' walk) as Hkeys.
  { unfold extractTranslationKeys.
    rewrite (first_pass_ext range1 range2 d d' walk H1 H2 Hw).
    apply second_pass_ext. exact Hw. }
  assert (rendered range1 quote (extractTranslationKeys range1 d walk)
          ≡ₚ rendered range2 quote (extractTranslationKeys range2 d' walk))
    as Hperm.
  { rewrite <- Hkeys.
    rewrite (rendered_blank range1 quote _ H1),
      (rendered_blank range2 quote _ H2).
    apply fmap_Permutation. rewrite (H1 _ 0 _), (H2 _ 0 _). reflexivity. }
  assert (generated range1 quote Join rootDir
            (extractTranslationKeys range1 d walk)
          ≡ₚ generated range2 quote Join rootDir
               (extractTranslationKeys range2 d' walk)) as Hgen.
  { unfold generated. change (map ?f ?l) with (f <$> l).
    apply fmap_Permutation. exact Hperm. }
  split; [exact Hkeys|]. split; [exact Hperm|]. split; [|split].
  - rewrite (rendered_blank range1 quote _ H1).
    assert (forall l : list (string * list string),
              ((fun e : string * list string =>
                  (e.1, MarshalIndent quote (blank_dictionary e.2)))
               <$> l).*1 = l.*1) as Hfst.
    { intros l. induction l as [|x l IH]; simpl; [reflexivity|].
      f_equal. exact IH. }
    rewrite Hfst, (H1 _ 0 _). apply NoDup_fst_map_to_list.
  - exact Hgen.
  - intros Hsep Hall o.
    assert (all_writable Join writable rootDir
              (extractTranslationKeys range2 d' walk)) as Hall2
      by (rewrite <- Hkeys; exact Hall).
    rewrite (generated_stored range1 quote Join writable failure rootDir _ o
               H1 Hall).
    rewrite (generated_stored range2 quote Join writable failure rootDir _ o
               H2 Hall2).
    split; [|reflexivity]. f_equal.
    apply store_Permutation; [|exact Hgen].
    apply generated_NoDup; assumption.
Qed.

Lemma extraction_is_deterministic_witness :
  generateTranslationFiles (fun V _ m => map_to_list m) quote_plain
    Filepath.Join (fun _ => true) (fun _ => None) "/w"
    (extractTranslationKeys (fun V _ m => map_to_list m)
       {[ "/w/a.tsx" := Regular "const { t: tC } = useTranslation('common'); tC('save') tUser('name')" ]}
       ["/w/a.tsx"])
    ∅
  = generateTranslationFiles (fun V _ m => reverse (map_to_list m))
      quote_plain Filepath.Join (fun _ => true) (fun _ => None) "/w"
      (extractTranslationKeys (fun V _ m => reverse (map_to_list m))
         {[ "/w/a.tsx" := Regular "const { t: tC } = useTranslation('common'); tC('save') tUser('name')";
            "/w/.i18n/common.json" := Regular "{}" ]}
         ["/w/a.tsx"])
      ∅.
Proof.
  refine (proj1 (proj2 (proj2 (proj2 (proj2
    (extraction_is_deterministic (fun V _ m => map_to_list m)
       (fun V _ m => reverse (map_to_list m)) quote_plain
       Filepath.Join (fun _ => true) (fun _ => None) "/w"
       {[ "/w/a.tsx" := Regular "const { t: tC } = useTranslation('common'); tC('save') tUser('name')" ]}
       {[ "/w/a.tsx" := Regular "const { t: tC } = useTranslation('common'); tC('save') tUser('name')";
          "/w/.i18n/common.json" := Regular "{}" ]}
       ["/w/a.tsx"] _ _ _)))) _ _ ∅)).
  - intros V n m. reflexivity.
  - intros V n m. apply reverse_Permutation.
  - repeat constructor.
  - intros e1 e2 H1 H2 Heq. vm_compute in H1, H2.
    repeat (apply elem_of_cons in H1 as [->|H1]); try (inversion H1; fail);
      repeat (apply elem_of_cons in H2 as [->|H2]); try (inversion H2; fail);
      try reflexivity; vm_compute in Heq; discriminate Heq.
  - intros e He. reflexivity.
Defined.

End Determinism.

(** * More on the merge *)

Module MergerFacts.

Import Chars Notions I18n JoinI18n Merger.

Lemma values_of_elem key ds v :
  v ∈ values_of key ds <->
  exists data : gmap string string, data ∈ ds /\ data !! key = Some v.
Proof. unfold values_of. apply list_elem_of_omap. Qed.

Lemma first_nonempty_is_Some values :
  is_Some (first_nonempty values) <-> values <> [].
Proof.
  unfold first_nonempty. destruct (filter _ values) as [|v l] eqn:E.
  - destruct values; split; intros H; try congruence; eauto.
    destruct H. discriminate.
  - split; [|eauto]. intros _ ->. discriminate.
Qed.

(** The merge does not depend on the order of the ranges. *)
Lemma merge_dicts_order
  (r1 r2 : forall V : Type, nat -> gmap string V -> list (string * V))
  i j ds (merged : gmap string string) :
  enumerates r1 -> enumerates r2 ->
  merge_dicts r1 i ds merged = merge_dicts r2 j ds merged.
Proof.
  intros H1 H2. apply map_eq. intros key.
  rewrite (merge_dicts_lookup r1 i ds merged key H1).
  rewrite (merge_dicts_lookup r2 j ds merged key H2). reflexivity.
Qed.

(** The merged dictionary has the keys of its inputs and no other. *)
Theorem merge_keys_are_union
  (range : forall V : Type, nat -> gmap string V -> list (string * V))
  (ds : list (gmap string string)) (key : string) :
  enumerates range ->
  is_Some (merge_dicts range 0 ds ∅ !! key)
  <-> exists data : gmap string string, data ∈ ds /\ is_Some (data !! key).
Proof.
  intros Hr. rewrite (merge_dicts_lookup range 0 ds ∅ key Hr), lookup_empty.
  rewrite merge_value_first, first_nonempty_is_Some. split.
  - intros Hne. destruct (values_of key ds) as [|v l] eqn:E; [congruence|].
    assert (v ∈ values_of key ds) as Hv by (rewrite E; left).
    apply values_of_elem in Hv as (data & Hin & Hv). eauto.
  - intros (data & Hin & [v Hv]) E.
    assert (v ∈ values_of key ds) as H by (apply values_of_elem; eauto).
    rewrite E in H. inversion H.
Qed.

Lemma merge_keys_are_union_witness :
  is_Some
    (merge_dicts (fun V _ m => map_to_list m) 0
       [ {[ "a" := "" ]}; {[ "b" := "x" ]} ] ∅ !! "b")
  <-> exists data : gmap string string,
        data ∈ [ ({[ "a" := "" ]} : gmap string string); {[ "b" := "x" ]} ]
        /\ is_Some (data !! "b").
Proof.
  apply (merge_keys_are_union (fun V _ m => map_to_list m)).
  intros V n m. reflexivity.
Defined.

Lemma first_nonempty_app_known a b :
  (forall v, v ∈ b -> v ∈ a) ->
  first_nonempty (a ++ b) = first_nonempty a.
Proof.
  intros Hb. unfold first_nonempty. rewrite filter_app.
  destruct (filter (fun v => v <> "") a) as [|v l] eqn:Ea; [|reflexivity].
  assert (filter (fun v => v <> "") b = []) as ->.
  { destruct (filter (fun v => v <> "") b) as [|v l] eqn:Eb; [reflexivity|].
    assert (v ∈ filter (fun v => v <> "") b) as Hv by (rewrite Eb; left).
    apply list_elem_of_filter in Hv as [Hne Hv]. apply Hb in Hv.
    assert (v ∈ filter (fun v => v <> "") a) as Hv'
      by (apply list_elem_of_filter; auto).
    rewrite Ea in Hv'. inversion Hv'. }
  simpl. destruct a as [|x a]; [|reflexivity].
  destruct b as [|y b]; [reflexivity|].
  assert (y ∈ @nil string) as H by (apply Hb; left). inversion H.
Qed.

(** Merging again dictionaries that are already among those merged changes
    nothing; in particular a merge of the same files twice is the merge of
    the files. *)
Theorem merge_again_changes_nothing
  (r1 r2 : forall V : Type, nat -> gmap string V -> list (string * V))
  (ds again : list (gmap string string)) :
  enumerates r1 -> enumerates r2 ->
  (forall data, data ∈ again -> data ∈ ds) ->
  merge_dicts r1 0 (ds ++ again) ∅ = merge_dicts r2 0 ds ∅.
Proof.
  intros H1 H2 Hsub. apply map_eq. intros key.
  rewrite (merge_dicts_lookup r1 0 _ ∅ key H1).
  rewrite (merge_dicts_lookup r2 0 _ ∅ key H2).
  rewrite lookup_empty, !merge_value_first, values_of_app.
  apply first_nonempty_app_known. intros v Hv.
  apply values_of_elem in Hv as (data & Hin & Hv).
  apply values_of_elem. eauto.
Qed.

Lemma merge_again_changes_nothing_witness :
  merge_dicts (fun V _ m => map_to_list m) 0
    ([ {[ "a" := ""; "b" := "x" ]}; {[ "a" := "y" ]} ]
     ++ [ {[ "a" := "y" ]}; {[ "a" := ""; "b" := "x" ]} ]) ∅
  = merge_dicts (fun V _ m => reverse (map_to_list m)) 0
      [ {[ "a" := ""; "b" := "x" ]}; {[ "a" := "y" ]} ] ∅.
Proof.
  apply merge_again_changes_nothing.
  - intros V n m. reflexivity.
  - intros V n m. apply reverse_Permutation.
  - intros data Hin. apply list_elem_of_In in Hin. apply list_elem_of_In.
    simpl in *. tauto.
Defined.

Lemma lookup_union_match (m1 m2 : gmap string string) k :
  (m1 ∪ m2) !! k
  = match m1 !! k with Some x => Some x | None => m2 !! k end.
Proof. rewrite lookup_union. destruct (m1 !! k), (m2 !! k); reflexivity. Qed.

(** A dictionary whose values are all empty, as the extraction generates
    it, merged with a dictionary of translations, in either order, gives the
    translations, and the empty string for the keys only the first has. *)
Theorem merge_blank_with_translations
  (range : forall V : Type, nat -> gmap string V -> list (string * V))
  (blank translated : gmap string string) :
  enumerates range ->
  map_Forall (fun _ value => value = "") blank ->
  merge_dicts range 0 [blank; translated] ∅ = translated ∪ blank
  /\ merge_dicts range 0 [translated; blank] ∅ = translated ∪ blank.
Proof.
  intros Hr Hblank. split; apply map_eq; intros key;
    rewrite (merge_dicts_lookup range 0 _ ∅ key Hr), lookup_empty,
      lookup_union_match; unfold values_of; simpl;
    destruct (blank !! key) as [b|] eqn:Eb;
    destruct (translated !! key) as [t|] eqn:Et; simpl; try reflexivity.
  - apply Hblank in Eb. subst b. simpl.
    destruct (String.eqb_spec t ""); simpl; congruence.
  - apply Hblank in Eb. subst b. simpl.
    destruct (String.eqb_spec t ""); simpl; [congruence|reflexivity].
Qed.

Lemma merge_blank_with_translations_witness :
  merge_dicts (fun V _ m => map_to_list m) 0
    [ {[ "save" := ""; "new" := "" ]}; {[ "save" := "Save" ]} ] ∅
  = {[ "save" := "Save" ]} ∪ {[ "save" := ""; "new" := "" ]}.
Proof.
  refine (proj1 (merge_blank_with_translations
                   (fun V _ m => map_to_list m)
                   {[ "save" := ""; "new" := "" ]} {[ "save" := "Save" ]}
                   _ _)).
  - intros V n m. reflexivity.
  - intros k v Hv.
    destruct (decide (k = "save")) as [->|Hs].
    + vm_compute in Hv. congruence.
    + destruct (decide (k = "new")) as [->|Hn].
      * vm_compute in Hv. congruence.
      * rewrite lookup_insert_ne, lookup_singleton_ne in Hv by congruence.
        discriminate.
Defined.

End MergerFacts.

(** * More on the merge command *)

Module CommandFacts.

Import Chars Notions I18n JoinI18n Merger MergerFacts Command.

(** ** Suffixes *)

Lemma length_append (s t : string) :
  String.length (s ++ t) = String.length s + String.length t.
Proof.
  induction s as [|a s IH]; simpl; [reflexivity|]. rewrite IH. reflexivity.
Qed.

Lemma substring_whole (t : string) :
  String.substring 0 (String.length t) t = t.
Proof.
  induction t as [|a t IH]; simpl; [reflexivity|]. rewrite IH. reflexivity.
Qed.

Lemma substring_append (s t : string) k :
  String.substring (String.length s) k (s ++ t) = String.substring 0 k t.
Proof. induction s as [|a s IH]; simpl; [reflexivity|exact IH]. Qed.

Lemma HasSuffix_append (s suffix : string) :
  HasSuffix (s ++ suffix) suffix = true.
Proof.
  unfold HasSuffix. rewrite length_append.
  replace (String.length s + String.length suffix - String.length suffix)
    with (String.length s) by lia.
  rewrite substring_append, substring_whole, String.eqb_refl.
  rewrite andb_true_r. apply Nat.leb_le. lia.
Qed.

(** The output of the merge always bears the extension .json: a name given
    with it is taken as it is, any other name, and the random name used when
    none is given, gets it appended. *)
Theorem output_has_json_extension (outputFile hex : string) :
  HasSuffix (output_path outputFile hex) ".json" = true
  /\ output_path outputFile hex
     = (if HasSuffix outputFile ".json" then outputFile
        else if String.eqb outputFile ""
             then
               if HasSuffix (generateRandomFileName hex) ".json"
               then generateRandomFileName hex
               else (generateRandomFileName hex ++ ".json")%string
             else (outputFile ++ ".json")%string).
Proof.
  unfold output_path. destruct (String.eqb_spec outputFile "") as [->|Hne].
  - change (HasSuffix "" ".json") with false. cbv iota.
    destruct (HasSuffix (generateRandomFileName hex) ".json") eqn:E; simpl.
    + split; [exact E|reflexivity].
    + split; [apply HasSuffix_append|reflexivity].
  - destruct (HasSuffix outputFile ".json") eqn:E; simpl.
    + split; [exact E|reflexivity].
    + split; [apply HasSuffix_append|reflexivity].
Qed.

(** ** What is written *)

Lemma ordered_copy_lookup (data : gmap string string) keys k :
  foldl (fun (m : gmap string string) key =>
           <[key := default "" (data !! key)]> m) ∅ keys !! k
  = if decide (k ∈ keys) then Some (default "" (data !! k)) else None.
Proof.
  induction keys as [|x l IH] using rev_ind.
  - rewrite decide_False by (intros H; inversion H). reflexivity.
  - rewrite foldl_snoc. destruct (decide (x = k)) as [->|Hne].
    + rewrite lookup_insert_eq, decide_True; [reflexivity|].
      apply elem_of_app. right. left.
    + rewrite lookup_insert_ne by exact Hne. rewrite IH.
      destruct (decide (k ∈ l)) as [Hin|Hin].
      * rewrite decide_True; [reflexivity|]. apply elem_of_app. auto.
      * rewrite decide_False; [reflexivity|].
        intros [H|H%list_elem_of_singleton]%elem_of_app; congruence.
Qed.

(** The copy writeJSONFile makes of the dictionary, key by key in sorted
    order, is the dictionary. *)
Lemma ordered_copy
  (range : forall V : Type, nat -> gmap string V -> list (string * V))
  n (data : gmap string string) :
  enumerates range ->
  foldl (fun (m : gmap string string) key =>
           <[key := default "" (data !! key)]> m) ∅
    (sort_strings (map fst (range _ n data)))
  = data.
Proof.
  intros Hr. apply map_eq. intros k. rewrite ordered_copy_lookup.
  assert (k ∈ sort_strings (map fst (range _ n data)) <-> is_Some (data !! k))
    as Hiff.
  { unfold sort_strings. rewrite merge_sort_Permutation.
    change (map fst (range _ n data)) with ((range _ n data).*1).
    rewrite (Hr _ n data), list_elem_of_fmap. split.
    - intros ([k' v] & -> & Hin%elem_of_map_to_list). eauto.
    - intros [v Hv]. exists (k, v). split; [reflexivity|].
      apply elem_of_map_to_list. exact Hv. }
  destruct (decide _) as [Hin|Hin].
  - apply Hiff in Hin as [v Hv]. rewrite Hv. reflexivity.
  - destruct (data !! k) as [v|] eqn:E; [|reflexivity].
    exfalso. apply Hin, Hiff. eauto.
Qed.

(** When every path is valid, every file parses and the output can be
    written, the command exits with 0 and the disk differs only at the
    output path, which holds the JSON text of the merge of the dictionaries,
    whatever the order of the ranges; an input of the same path is
    overwritten. *)
Theorem merge_writes_the_merge
  (r1 r2 : forall V : Type, nat -> gmap string V -> list (string * V))
  (Unmarshal : string -> option (gmap string string))
  (quote : string -> string) (writable : string -> bool)
  (failure : string -> option nat)
  (args : list string) (ds : list (gmap string string))
  (outputFile hex : string) (w : world) :
  enumerates r1 -> enumerates r2 ->
  forallb (valid_input (fs w)) args = true ->
  parsed Unmarshal (fs w) args ds ->
  writable (output_path outputFile hex) = true ->
  let out :=
    runJoinI18n r1 Unmarshal quote writable failure args outputFile hex w in
  out.1 = 0
  /\ fs out.2
     = <[output_path outputFile hex :=
           Regular (MarshalIndent quote (merge_dicts r2 0 ds ∅))]> (fs w).
Proof.
  intros H1 H2 Hvalid Hparsed Hw out. subst out. unfold runJoinI18n.
  destruct (validate_spec args w) as (k & Hv & _). rewrite Hv, Hvalid.
  simpl negb. cbv iota. unfold mergeJSONFiles.
  pose proof (merge_from_parsed r1 Unmarshal args ds 0 ∅
                (World (fs w) (trace w ++ map SysStat (take k args)))
                Hparsed) as Hm.
  destruct (merge_from_spec r1 Unmarshal args 0 ∅
              (World (fs w) (trace w ++ map SysStat (take k args))))
    as (j & r & Hspec & _).
  rewrite Hspec in Hm |- *. simpl in Hm. subst r.
  unfold writeJSONFile, os_WriteFile, WriteFile. cbn [fs trace].
  rewrite (ordered_copy r1 (length args) _ H1), Hw.
  rewrite (merge_dicts_order r1 r2 0 0 ds ∅ H1 H2). simpl. auto.
Qed.

Lemma merge_writes_the_merge_witness :
  (runJoinI18n (fun V _ m => map_to_list m)
     (Unmarshal_among [ {[ "a" := "" ]}; {[ "a" := "y" ]} ])
     quote_plain (fun _ => true) (fun _ => None) ["a.json"; "b.json"] "a" ""
     (World
        {[ "a.json" := Regular (MarshalIndent quote_plain {[ "a" := "" ]});
           "b.json" := Regular (MarshalIndent quote_plain {[ "a" := "y" ]})
        ]} [])).1
  = 0.
Proof.
  refine (proj1 (merge_writes_the_merge (fun V _ m => map_to_list m)
    (fun V _ m => map_to_list m)
    (Unmarshal_among [ {[ "a" := "" ]}; {[ "a" := "y" ]} ])
    quote_plain (fun _ => true) (fun _ => None) ["a.json"; "b.json"]
    [ {[ "a" := "" ]}; {[ "a" := "y" ]} ] "a" ""
    (World
       {[ "a.json" := Regular (MarshalIndent quote_plain {[ "a" := "" ]});
          "b.json" := Regular (MarshalIndent quote_plain {[ "a" := "y" ]})
       ]} []) _ _ _ _ _)).
  - intros V n m. reflexivity.
  - intros V n m. reflexivity.
  - vm_compute. reflexivity.
  - repeat constructor; eexists; split; vm_compute; reflexivity.
  - reflexivity.
Defined.

End CommandFacts.

(** * The walk of the tree *)

Module WalkFacts.

Import Chars Regexp Notions I18n KeyResolver Collector.

Lemma WalkDir_dir Join path name es :
  WalkDir Join path (Dir name (Some es))
  = if shouldSkipDir name then ([], false)
    else (path :: (walk_entries Join path es).1,
          (walk_entries Join path es).2).
Proof.
  simpl. destruct (shouldSkipDir name); [reflexivity|].
  assert (forall l,
    (fix walk_all (es0 : list entry) : list string * bool :=
       match es0 with
       | [] => ([], false)
       | e' :: es' =>
           let '(seen, failed) := WalkDir Join (Join path (entry_name e')) e'
           in if failed then (seen, true)
              else let '(seen', failed') := walk_all es' in
                   (seen ++ seen', failed')
       end) l = walk_entries Join path l) as H.
  { induction l as [|e l IH]; simpl; [reflexivity|]. rewrite IH.
    reflexivity. }
  rewrite H. reflexivity.
Qed.

Lemma walk_entries_seen Join path es p :
  p ∈ (walk_entries Join path es).1 ->
  exists e, e ∈ es /\ p ∈ (WalkDir Join (Join path (entry_name e)) e).1.
Proof.
  induction es as [|e es IH]; simpl; [intros H; inversion H|].
  destruct (WalkDir Join (Join path (entry_name e)) e) as [seen failed] eqn:E.
  destruct failed; simpl.
  - intros Hp. exists e. rewrite E. split; [left|exact Hp].
  - destruct (walk_entries Join path es) as [seen' failed']. simpl in *.
    intros [Hp|Hp]%elem_of_app.
    + exists e. rewrite E. split; [left|exact Hp].
    + destruct (IH Hp) as (e' & Hin & Hp'). exists e'. split; [right|]; auto.
Qed.

Lemma walk_entries_all Join path es e p :
  (walk_entries Join path es).2 = false -> e ∈ es ->
  (WalkDir Join (Join path (entry_name e)) e).2 = false
  /\ (p ∈ (WalkDir Join (Join path (entry_name e)) e).1 ->
      p ∈ (walk_entries Join path es).1).
Proof.
  induction es as [|x es IH]; simpl; [intros _ H; inversion H|].
  destruct (WalkDir Join (Join path (entry_name x)) x) as [seen failed] eqn:E.
  destruct failed; simpl; [discriminate|].
  destruct (walk_entries Join path es) as [seen' failed']. simpl in *.
  intros Hf [->|Hin]%elem_of_cons.
  - rewrite E. simpl. split; [reflexivity|]. intros Hp.
    apply elem_of_app. auto.
  - destruct (IH Hf Hin) as [He Hp]. split; [exact He|].
    intros H. apply elem_of_app. auto.
Qed.

Lemma WalkDir_reaches (Join : string -> string -> string) (root : entry)
  (rootDir p : string) :
  (p ∈ (WalkDir Join rootDir root).1 -> reaches Join rootDir root p)
  /\ ((WalkDir Join rootDir root).2 = false ->
      reaches Join rootDir root p -> p ∈ (WalkDir Join rootDir root).1).
Proof.
  revert rootDir p.
  induction root as [name|name|name es IH] using entry_induction;
    intros path p.
  - simpl. split.
    + intros ->%list_elem_of_singleton. constructor.
    + intros _ H. inversion H; subst. left.
  - simpl. destruct (shouldSkipDir name) eqn:Hs; simpl.
    + split; [intros H; inversion H|].
      intros _ H. inversion H; congruence.
    + split; [|discriminate].
      intros ->%list_elem_of_singleton. constructor. exact Hs.
  - rewrite WalkDir_dir. destruct (shouldSkipDir name) eqn:Hs; simpl.
    + split; [intros H; inversion H|].
      intros _ H. inversion H; congruence.
    + rewrite Forall_forall in IH. split.
      * intros [->|Hp]%elem_of_cons; [constructor; exact Hs|].
        apply walk_entries_seen in Hp as (e & Hin & Hp).
        apply (reaches_inside Join path name es e p Hs Hin).
        apply IH; assumption.
      * intros Hf H. inversion H as [| |? ? ? e ? _ Hin Hr]; subst; [left|].
        right.
        destruct (walk_entries_all Join path es e p Hf Hin) as [He Hp].
        apply Hp. apply IH; assumption.
Qed.

(** The walk hands to the callbacks only paths that no refused directory
    lies above, the root included, at any depth; and when the walk meets no
    directory it cannot list, it hands all of them. *)
Theorem walk_prunes (Join : string -> string -> string) (root : entry)
  (rootDir p : string) :
  (p ∈ (WalkDir Join rootDir root).1 -> reaches Join rootDir root p)
  /\ ((WalkDir Join rootDir root).2 = false ->
      reaches Join rootDir root p -> p ∈ (WalkDir Join rootDir root).1).
Proof. apply WalkDir_reaches. Qed.

(** ** From the walk to the entries *)

Lemma second_pass_flat_map d walk m keys :
  second_pass d walk m keys = keys ++ flat_map (file_calls d m) walk.
Proof.
  revert keys. induction walk as [|path walk IH]; intros keys; simpl.
  - rewrite app_nil_r. reflexivity.
  - unfold file_calls at 1, parseFileWithMapping.
    destruct (HasSuffix path ".tsx"); simpl; [|apply IH].
    destruct (ReadFile d path); rewrite IH.
    + rewrite app_assoc. reflexivity.
    + reflexivity.
Qed.

Lemma calls_File filePath contentStr m :
  Forall (fun e => File e = filePath) (calls filePath contentStr m).
Proof.
  rewrite calls_flat_map. apply Forall_flat_map, Forall_forall.
  intros callMatch _. unfold entry_of.
  destruct (callMatch !! 1%nat), (callMatch !! 2%nat); repeat constructor.
Qed.

Lemma extraction_by_file
  (range : forall V : Type, nat -> gmap string V -> list (string * V))
  (d : disk) (walk : list string) :
  extractTranslationKeys range d walk
  = flat_map (file_calls d (first_pass range d 0 walk ∅)) walk
  /\ Forall
       (fun e =>
          File e ∈ walk /\ HasSuffix (File e) ".tsx" = true
          /\ is_Some (ReadFile d (File e)))
       (extractTranslationKeys range d walk).
Proof.
  unfold extractTranslationKeys. rewrite second_pass_flat_map. simpl.
  split; [reflexivity|].
  apply Forall_flat_map, Forall_forall. intros path Hpath.
  unfold file_calls.
  destruct (HasSuffix path ".tsx") eqn:Hs; [|constructor].
  destruct (ReadFile d path) as [content|] eqn:Hr; [|constructor].
  eapply Forall_impl; [apply calls_File|].
  intros e He. simpl in He. rewrite He, Hs, Hr.
  split; [exact Hpath|]. split; eauto.
Qed.

(** The entries of the extraction are those of the paths of the walk, path
    by path, resolved with the one map of the first pass; a path that does
    not end in .tsx or cannot be read adds nothing and does not stop the
    scan; each entry bears the path of its file. *)
Theorem extraction_file_by_file
  (range : forall V : Type, nat -> gmap string V -> list (string * V))
  (d : disk) (walk : list string) :
  extractTranslationKeys range d walk
  = flat_map (file_calls d (first_pass range d 0 walk ∅)) walk
  /\ Forall
       (fun e =>
          File e ∈ walk /\ HasSuffix (File e) ".tsx" = true
          /\ is_Some (ReadFile d (File e)))
       (extractTranslationKeys range d walk).
Proof. apply extraction_by_file. Qed.

Lemma walk_entries_failed Join path es :
  (walk_entries Join path es).2 = true <->
  exists e, e ∈ es /\ (WalkDir Join (Join path (entry_name e)) e).2 = true.
Proof.
  induction es as [|x es IH]; simpl.
  - split; [discriminate|]. intros (e & H & _). inversion H.
  - destruct (WalkDir Join (Join path (entry_name x)) x) as [seen failed] eqn:E.
    destruct failed; simpl.
    + split; [|reflexivity]. intros _. exists x. rewrite E. split; [left|auto].
    + destruct (walk_entries Join path es) as [seen' failed']. simpl in *.
      rewrite IH. split.
      * intros (e & Hin & He). exists e. split; [right|]; assumption.
      * intros (e & [->|Hin]%elem_of_cons & He).
        -- rewrite E in He. discriminate.
        -- eauto.
Qed.

(** The walk ends with an error exactly when it meets a directory that
    cannot be listed. *)
Lemma WalkDir_blocked Join path e :
  (WalkDir Join path e).2 = true <-> blocked e.
Proof.
  revert path.
  induction e as [name|name|name es IH] using entry_induction; intros path.
  - simpl. split; [discriminate|]. intros H. inversion H.
  - simpl. destruct (shouldSkipDir name) eqn:Hs; simpl.
    + split; [discriminate|]. intros H. inversion H; congruence.
    + split; [|reflexivity]. intros _. constructor. exact Hs.
  - rewrite WalkDir_dir. destruct (shouldSkipDir name) eqn:Hs; simpl.
    + split; [discriminate|]. intros H. inversion H; congruence.
    + rewrite walk_entries_failed. rewrite Forall_forall in IH. split.
      * intros (e & Hin & He). apply (blocked_inside name es e Hs Hin).
        apply (IH e Hin (Join path (entry_name e))). exact He.
      * intros H. inversion H as [|? ? e _ Hin Hb]; subst.
        exists e. split; [exact Hin|]. apply (IH e Hin). exact Hb.
Qed.

(** Every entry extracted from a tree bears a path that ends in .tsx and
    that no refused directory lies above; the extraction returns the error,
    and no entry, exactly when the walk meets a directory that cannot be
    listed. *)
Theorem extraction_skips_pruned
  (range : forall V : Type, nat -> gmap string V -> list (string * V))
  (Join : string -> string -> string) (d : disk) (rootDir : string)
  (root : entry) :
  match extractTranslationKeys_in Join range d rootDir root with
  | Some keys =>
      ~ blocked root
      /\ Forall
           (fun e =>
              reaches Join rootDir root (File e)
              /\ HasSuffix (File e) ".tsx" = true)
           keys
  | None => blocked root
  end.
Proof.
  unfold extractTranslationKeys_in.
  pose proof (WalkDir_blocked Join rootDir root) as Hb.
  destruct (WalkDir Join rootDir root) as [walk failed] eqn:E.
  simpl in Hb. destruct failed.
  - apply Hb. reflexivity.
  - split; [intros H; apply Hb in H; discriminate|].
    eapply Forall_impl;
      [apply (proj2 (extraction_by_file range d walk))|].
    intros e (Hin & Hs & _). split; [|exact Hs].
    apply WalkDir_reaches. rewrite E. exact Hin.
Qed.

End WalkFacts.

(** * The ignore file *)

Module GitignoreFacts.

Import Chars Notions I18n DiskFacts.

Lemma Contains_append s1 s2 substr :
  Contains s2 substr = true -> Contains (s1 ++ s2) substr = true.
Proof.
  intros H. induction s1 as [|a s1 IH]; simpl; [exact H|].
  rewrite IH. apply orb_true_r.
Qed.

Lemma ignore_content_Contains gitignoreExists contentStr :
  Contains (ignore_content gitignoreExists contentStr) ".i18n/" = true.
Proof.
  unfold ignore_content. destruct gitignoreExists; simpl negb; cbv iota.
  - apply Contains_append. reflexivity.
  - reflexivity.
Qed.

Lemma string_app_nil_r (s : string) : (s ++ "")%string = s.
Proof.
  induction s as [|a s IH]; [reflexivity|].
  change (String a (s ++ "")%string = String a s). rewrite IH. reflexivity.
Qed.

Lemma string_app_assoc (a b c : string) :
  ((a ++ b) ++ c)%string = (a ++ b ++ c)%string.
Proof.
  induction a as [|x a IH]; [reflexivity|].
  change (String x ((a ++ b) ++ c)%string = String x (a ++ b ++ c)%string).
  rewrite IH. reflexivity.
Qed.

(** What updateGitignore does when it succeeds. *)
Lemma updateGitignore_Some Join writable failure rootDir (d d1 : disk) :
  updateGitignore Join writable failure rootDir d = (true, d1) ->
  (exists c,
     ReadFile d (Join rootDir ".gitignore") = Some c
     /\ Contains c ".i18n/" = true /\ d1 = d)
  \/ (exists gitignoreExists c,
        Contains c ".i18n/" = false
        /\ gitignoreExists = negb (IsNotExist d (Join rootDir ".gitignore"))
        /\ c = default "" (ReadFile d (Join rootDir ".gitignore"))
        /\ (gitignoreExists = true ->
            ReadFile d (Join rootDir ".gitignore") = Some c)
        /\ d1 = <[Join rootDir ".gitignore" :=
                    Regular (ignore_content gitignoreExists c)]> d).
Proof.
  unfold updateGitignore, ReadFile, IsNotExist, WriteFile.
  destruct (d !! Join rootDir ".gitignore") as [[c| |]|] eqn:E; simpl.
  - destruct (Contains c ".i18n/") eqn:Hc.
    + intros [= <-]. left. eauto.
    + destruct (writable _); [|discriminate]. intros [= <-].
      right. exists true, c. auto.
  - discriminate.
  - discriminate.
  - destruct (writable _); [|discriminate]. intros [= <-].
    right. exists false, "". repeat split; try reflexivity. discriminate.
Qed.

(** After updateGitignore has succeeded, the ignore file holds the pattern
    of the output directory, and a second call succeeds without writing,
    whether the file can be written or not: the line is never added
    twice. *)
Theorem gitignore_update_is_idempotent
  (Join : string -> string -> string) (writable writable' : string -> bool)
  (failure failure' : string -> option nat) (rootDir : string)
  (d d1 : disk) :
  updateGitignore Join writable failure rootDir d = (true, d1) ->
  (exists c,
     ReadFile d1 (Join rootDir ".gitignore") = Some c
     /\ Contains c ".i18n/" = true)
  /\ updateGitignore Join writable' failure' rootDir d1 = (true, d1).
Proof.
  intros H.
  assert (exists c,
            ReadFile d1 (Join rootDir ".gitignore") = Some c
            /\ Contains c ".i18n/" = true) as (c & Hread & Hc).
  { apply updateGitignore_Some in H
      as [(c & Hr & Hc & ->)|(b & c & _ & _ & _ & _ & ->)].
    - eauto.
    - exists (ignore_content b c). split.
      + unfold ReadFile. rewrite lookup_insert_eq. reflexivity.
      + apply ignore_content_Contains. }
  split; [eauto|].
  unfold updateGitignore. rewrite Hread.
  assert (IsNotExist d1 (Join rootDir ".gitignore") = false) as ->.
  { unfold ReadFile, IsNotExist in *.
    destruct (d1 !! Join rootDir ".gitignore"); [reflexivity|discriminate]. }
  simpl. rewrite Hc. reflexivity.
Qed.

Lemma gitignore_update_is_idempotent_witness :
  updateGitignore (fun dir name => (dir ++ "/" ++ name)%string)
    (fun _ => false) (fun _ => Some 0) "/w"
    {[ "/w/.gitignore" := Regular ("node_modules" ++ newline ++ ignore_line) ]}
  = (true,
     {[ "/w/.gitignore" :=
          Regular ("node_modules" ++ newline ++ ignore_line) ]}).
Proof.
  refine (proj2 (gitignore_update_is_idempotent
    (fun dir name => (dir ++ "/" ++ name)%string) (fun _ => true)
    (fun _ => false) (fun _ => None) (fun _ => Some 0) "/w"
    {[ "/w/.gitignore" := Regular "node_modules" ]}
    {[ "/w/.gitignore" :=
         Regular ("node_modules" ++ newline ++ ignore_line) ]} _)).
  vm_compute. reflexivity.
Defined.

(** updateGitignore touches no other path, whether it succeeds or not. *)
Lemma updateGitignore_other Join writable failure rootDir (d : disk) path :
  path <> Join rootDir ".gitignore" ->
  (updateGitignore Join writable failure rootDir d).2 !! path = d !! path.
Proof.
  intros Hp. unfold updateGitignore.
  destruct (ReadFile d (Join rootDir ".gitignore")) as [c|];
    destruct (IsNotExist d (Join rootDir ".gitignore")); simpl;
    try reflexivity;
    try (destruct (Contains _ ".i18n/"); [reflexivity|]);
    apply WriteFile_other; exact Hp.
Qed.

(** updateGitignore touches no other path and loses nothing of the ignore
    file: what it leaves is what was there, followed by nothing, by the
    line of the pattern, or by a newline and that line; a file that did not
    exist holds the line alone. *)
Theorem gitignore_update_appends
  (Join : string -> string -> string) (writable : string -> bool)
  (failure : string -> option nat) (rootDir : string) (d d1 : disk) :
  updateGitignore Join writable failure rootDir d = (true, d1) ->
  (forall path, path <> Join rootDir ".gitignore" -> d1 !! path = d !! path)
  /\ (forall c,
        ReadFile d (Join rootDir ".gitignore") = Some c ->
        exists tail,
          ReadFile d1 (Join rootDir ".gitignore") = Some (c ++ tail)%string
          /\ (tail = "" \/ tail = ignore_line
              \/ tail = (newline ++ ignore_line)%string))
  /\ (IsNotExist d (Join rootDir ".gitignore") = true ->
      ReadFile d1 (Join rootDir ".gitignore") = Some ignore_line).
Proof.
  intros H. apply updateGitignore_Some in H
    as [(c & Hr & Hc & ->)|(b & c & Hc & -> & Hdef & Hex & ->)].
  - split; [reflexivity|]. split.
    + intros c' Hc'. exists "". rewrite string_app_nil_r. auto.
    + intros Hm. unfold ReadFile, IsNotExist in *.
      destruct (d !! Join rootDir ".gitignore"); discriminate.
  - split; [intros path Hp; apply lookup_insert_ne; congruence|]. split.
    + intros c' Hc'. rewrite Hc' in Hdef. simpl in Hdef. subst c'.
      assert (IsNotExist d (Join rootDir ".gitignore") = false) as Hm.
      { unfold ReadFile, IsNotExist in *.
        destruct (d !! Join rootDir ".gitignore");
          [reflexivity|discriminate]. }
      rewrite Hm. unfold ReadFile. rewrite lookup_insert_eq.
      unfold ignore_content. simpl negb. cbv iota.
      destruct (HasSuffix c newline); simpl negb; cbv iota.
      * exists ignore_line. auto.
      * exists (newline ++ ignore_line)%string.
        rewrite string_app_assoc. auto.
    + intros Hm. rewrite Hm. unfold ReadFile. rewrite lookup_insert_eq.
      reflexivity.
Qed.

Lemma gitignore_update_appends_witness :
  ReadFile {[ "/w/.gitignore" := Regular ignore_line ]} "/w/.gitignore"
  = Some ignore_line.
Proof.
  refine (proj2 (proj2 (gitignore_update_appends
    (fun dir name => (dir ++ "/" ++ name)%string) (fun _ => true)
    (fun _ => None) "/w"
    ∅ {[ "/w/.gitignore" := Regular ignore_line ]} _)) _).
  - vm_compute. reflexivity.
  - reflexivity.
Defined.

End GitignoreFacts.

(** * The files written by the extraction *)

Module OutputFacts.

Import Chars Notions I18n DiskFacts Writer WalkFacts GitignoreFacts.

Lemma unwritable_split writable files file :
  first_unwritable writable files = Some file ->
  exists later, files = writable_prefix writable files ++ file :: later.
Proof.
  induction files as [|x files IH]; simpl; [discriminate|].
  destruct (writable x.1).
  - intros H. destruct (IH H) as [later E]. exists later. simpl.
    f_equal. exact E.
  - intros [= <-]. exists files. reflexivity.
Qed.

(** generateTranslationFiles writes the files in the order of its loop and
    stops at the first it cannot write: it returns nil exactly when all can
    be written; no file behind the first failure and no other path is
    touched; the file that fails is left as the failed call of WriteFile
    leaves it, as it was or with a part of its text; and when no two files
    bear the same name, every file before the failure holds its text. *)
Theorem files_written_until_failure
  (range : forall V : Type, nat -> gmap string V -> list (string * V))
  (quote : string -> string) (Join : string -> string -> string)
  (writable : string -> bool) (failure : string -> option nat)
  (rootDir : string) (keys : list TranslationKey) (d : disk) :
  let files := generated range quote Join rootDir keys in
  let before := writable_prefix writable files in
  let out :=
    generateTranslationFiles range quote Join writable failure rootDir keys d
  in
  out.1 = forallb (fun file => writable file.1) files
  /\ match first_unwritable writable files with
     | None => before = files /\ out.2 = store d files
     | Some file =>
         (exists later, files = before ++ file :: later)
         /\ writable file.1 = false
         /\ out.2
            = match failure file.1 with
              | None => store d before
              | Some n =>
                  <[file.1 := Regular (String.substring 0 n file.2)]>
                    (store d before)
              end
     end
  /\ (forall path,
        path ∉ before.*1 ->
        (forall file,
           first_unwritable writable files = Some file -> path <> file.1) ->
        out.2 !! path = d !! path)
  /\ (NoDup files.*1 ->
      forall name data,
        (name, data) ∈ before -> out.2 !! name = Some (Regular data)).
Proof.
  intros files before out. subst out. unfold generateTranslationFiles.
  fold files. rewrite write_files_attempted. unfold attempted. fold before.
  cbn [fst snd].
  split; [reflexivity|].
  destruct (first_unwritable writable files) as [file|] eqn:E.
  - destruct (first_unwritable_elem _ _ _ E) as [Hin Hw].
    destruct (unwritable_split _ _ _ E) as [later Hsplit]. fold before in Hsplit.
    split; [|split].
    + split; [eauto|]. split; [exact Hw|reflexivity].
    + intros path Hp Hne. rewrite left_by_other by (apply (Hne file); reflexivity).
      apply store_other. exact Hp.
    + intros Hnd name data Hbefore.
      assert (name <> file.1) as Hne.
      { rewrite Hsplit, fmap_app in Hnd. apply NoDup_app in Hnd as (_ & Hfresh & _).
        intros ->. apply (Hfresh file.1).
        - apply list_elem_of_fmap. exists (file.1, data). auto.
        - simpl. left. }
      rewrite left_by_other by exact Hne.
      apply store_written; [|exact Hbefore].
      apply writable_prefix_NoDup. exact Hnd.
  - assert (before = files) as Hall.
    { subst before. clear -E. induction files as [|x files IH]; simpl in *;
        [reflexivity|]. destruct (writable x.1); [|discriminate].
      f_equal. apply IH. exact E. }
    split; [|split].
    + split; [exact Hall|reflexivity].
    + intros path Hp _. apply store_other. rewrite <- Hall. exact Hp.
    + intros Hnd name data Hbefore. rewrite Hall in Hbefore.
      apply store_written; assumption.
Qed.

(** runI18n, once the working directory is known: it exits with 1 and
    leaves the disk as it is when the walk fails or the output directory
    cannot be made; otherwise it exits with 0 exactly when the ignore file
    is updated and every generated file written; and whatever the outcome
    it changes no path other than the output directory, the ignore file and
    the generated files. *)
Theorem run_touches_only_outputs
  (range : forall V : Type, nat -> gmap string V -> list (string * V))
  (quote : string -> string) (Join : string -> string -> string)
  (writable : string -> bool) (failure : string -> option nat)
  (workDir : string) (mkdir : bool) (root : entry) (d : disk) :
  let out :=
    runI18n range quote Join writable failure (Some workDir) mkdir root d in
  match extractTranslationKeys_in Join range d workDir root with
  | None => out = (1, d)
  | Some keys =>
      let files := generated range quote Join workDir keys in
      match setupI18nDirectory Join mkdir workDir d with
      | None =>
          out = (1, d)
          /\ (mkdir = false
              \/ exists other,
                   d !! Join workDir ".i18n" = Some other
                   /\ other <> Directory)
      | Some d0 =>
          d0 = <[Join workDir ".i18n" := Directory]> d
          /\ out.1
             = (if (updateGitignore Join writable failure workDir d0).1
                   && forallb (fun file => writable file.1) files
                then 0 else 1)
          /\ (forall path,
                path <> Join workDir ".i18n" ->
                path <> Join workDir ".gitignore" -> path ∉ files.*1 ->
                out.2 !! path = d !! path)
      end
  end.
Proof.
  intros out. subst out. unfold runI18n.
  destruct (extractTranslationKeys_in Join range d workDir root)
    as [keys|]; [|reflexivity].
  cbv beta iota zeta.
  set (files := generated range quote Join workDir keys).
  unfold setupI18nDirectory, MkdirAll.
  assert (forall d0 : disk,
    (forall path, path <> Join workDir ".i18n" -> d0 !! path = d !! path) ->
    (let '(updated, d1) := updateGitignore Join writable failure workDir d0 in
     if negb updated then (1, d1)
     else
       let '(written, d2) :=
         generateTranslationFiles range quote Join writable failure workDir
           keys d1 in
       if written then (0, d2) else (1, d2)).1
    = (if (updateGitignore Join writable failure workDir d0).1
          && forallb (fun file => writable file.1) files
       then 0 else 1)
    /\ (forall path,
          path <> Join workDir ".i18n" ->
          path <> Join workDir ".gitignore" -> path ∉ files.*1 ->
          (let '(updated, d1) :=
             updateGitignore Join writable failure workDir d0 in
           if negb updated then (1, d1)
           else
             let '(written, d2) :=
               generateTranslationFiles range quote Join writable failure
                 workDir keys d1 in
             if written then (0, d2) else (1, d2)).2 !! path = d !! path))
    as Hrest.
  { intros d0 Hd0.
    pose proof (updateGitignore_other Join writable failure workDir d0)
      as Hg.
    destruct (updateGitignore Join writable failure workDir d0)
      as [updated d1]. cbn [fst snd] in *.
    destruct updated; cbn [negb andb].
    - unfold generateTranslationFiles. fold files.
      rewrite write_files_attempted.
      assert (forall path,
                path ∉ files.*1 ->
                attempted writable failure d1 files !! path = d1 !! path)
        as Hother.
      { intros path Hp. unfold attempted.
        assert (path ∉ (writable_prefix writable files).*1) as Hp'.
        { intros (y & Hy & Hin)%list_elem_of_fmap. apply Hp.
          apply list_elem_of_fmap. exists y. split; [exact Hy|].
          eapply writable_prefix_elem. exact Hin. }
        destruct (first_unwritable writable files) as [file|] eqn:E.
        - destruct (first_unwritable_elem _ _ _ E) as [Hin _].
          rewrite left_by_other; [apply store_other; exact Hp'|].
          intros ->. apply Hp. apply list_elem_of_fmap. eauto.
        - apply store_other. exact Hp. }
      destruct (forallb (fun file => writable file.1) files); cbn [fst snd];
        (split; [reflexivity|]); intros path H1 H2 H3;
        rewrite (Hother path H3), (Hg path H2); apply Hd0; exact H1.
    - split; [reflexivity|]. intros path H1 H2 H3. cbn [snd].
      rewrite (Hg path H2). apply Hd0. exact H1. }
  destruct (d !! Join workDir ".i18n") as [[c| |]|] eqn:E.
  - split; [reflexivity|]. right. exists (Regular c). split; [reflexivity|].
    discriminate.
  - split; [rewrite insert_id by exact E; reflexivity|].
    apply Hrest. reflexivity.
  - split; [reflexivity|]. right. exists Unreadable. split; [reflexivity|].
    discriminate.
  - destruct mkdir.
    + split; [reflexivity|]. apply Hrest.
      intros path Hp. apply lookup_insert_ne. congruence.
    + split; [reflexivity|]. left. reflexivity.
Qed.

End OutputFacts.

(** * The first revision of the extraction *)

Module FirstFacts.

Import Chars Regexp Notions RegexpFacts PatternFacts I18n KeyResolver
  Collector I18nFirst.

Lemma bodies_word s re : bodies (word s ++ re) = bodies re.
Proof.
  unfold word. induction (bytes s) as [|a l IH]; simpl; [reflexivity|].
  exact IH.
Qed.

Lemma callRegex_submatches tVar contentStr :
  Forall
    (fun callMatch =>
       exists text key, callMatch = [text; key] /\ plain_text key)
    (FindAllStringSubmatch (callRegex tVar) contentStr).
Proof.
  unfold FindAllStringSubmatch. apply Forall_map.
  apply find_all_Forall. intros prev s r H.
  apply match_nodes_groups in H. unfold callRegex in H.
  rewrite bodies_word in H. simpl in H.
  inversion H as [|b1 g1 bs1 gs1 H1 Ht1 E1 E2]; subst.
  inversion Ht1; subst. apply plus_taken in H1 as [Hne Hq].
  exists (str (whole r)), (str g1). unfold submatch.
  rewrite <- E2. simpl. split; [reflexivity|]. split.
  - apply str_nonempty. exact Hne.
  - rewrite list_ascii_of_string_of_list_ascii. exact Hq.
Qed.

Lemma record_keys filePath namespace matches keys :
  foldl (record_key filePath namespace) keys matches
  = keys ++ flat_map (key_entry filePath namespace) matches.
Proof.
  revert keys. induction matches as [|x l IH]; intros keys; simpl.
  - rewrite app_nil_r. reflexivity.
  - rewrite IH. unfold record_key, key_entry.
    destruct (x !! 1%nat); simpl; rewrite <- ?app_assoc; reflexivity.
Qed.

Lemma record_aliases filePath contentStr bindings keys :
  foldl (record_alias filePath contentStr) keys bindings
  = keys ++ flat_map (alias_entries filePath contentStr) bindings.
Proof.
  revert keys. induction bindings as [|b l IH]; intros keys; simpl.
  - rewrite app_nil_r. reflexivity.
  - rewrite IH. unfold record_alias. rewrite record_keys.
    rewrite <- app_assoc. reflexivity.
Qed.

Lemma alias_entries_plain filePath contentStr binding :
  Forall
    (fun e =>
       File e = filePath /\ plain_text (Key e) /\ Namespace e = binding.2)
    (alias_entries filePath contentStr binding).
Proof.
  unfold alias_entries.
  pose proof (callRegex_submatches binding.1 contentStr) as H.
  induction H as [|x l (text & key & -> & Hk) _ IH]; simpl.
  - constructor.
  - constructor; [|exact IH]. simpl. auto.
Qed.

(** parseFile of the first revision finds the calls of the aliases that the
    same file declares and of no other: every entry bears the path of the
    file, a key that is not empty and holds no quote, and the namespace the
    file declares for an alias; a file without a declaration gives no entry;
    and the order of the range over the aliases only permutes the
    entries. *)
Theorem first_revision_declared_only
  (r1 r2 : forall V : Type, nat -> gmap string V -> list (string * V))
  (i j : nat) (filePath contentStr : string) :
  enumerates r1 -> enumerates r2 ->
  Forall
    (fun e =>
       File e = filePath /\ plain_text (Key e)
       /\ exists tVariable,
            declarations contentStr !! tVariable = Some (Namespace e))
    (parsed_keys r1 i filePath contentStr)
  /\ (scanned contentStr = [] -> parsed_keys r1 i filePath contentStr = [])
  /\ parsed_keys r1 i filePath contentStr
     ≡ₚ parsed_keys r2 j filePath contentStr.
Proof.
  intros H1 H2. unfold parsed_keys. rewrite !record_aliases. simpl.
  split; [|split].
  - apply Forall_flat_map, Forall_forall. intros [tVar ns] Hin.
    rewrite (H1 _ i (declarations contentStr)) in Hin.
    apply elem_of_map_to_list in Hin.
    eapply Forall_impl; [apply alias_entries_plain|].
    intros e (Hf & Hk & Hn). simpl in Hn. rewrite Hn. eauto.
  - intros Hs.
    assert (declarations contentStr = ∅) as ->.
    { apply map_eq. intros x. rewrite declarations_lookup, Hs.
      rewrite lookup_empty. reflexivity. }
    pose proof (H1 _ i (∅ : gmap string string)) as Hp.
    rewrite map_to_list_empty in Hp. apply Permutation_nil_r in Hp.
    rewrite Hp. reflexivity.
  - apply Permutation_flat_map.
    rewrite (H1 _ i _), (H2 _ j _). reflexivity.
Qed.

Lemma first_revision_declared_only_witness :
  parsed_keys (fun V _ m => map_to_list m) 0 "a.tsx"
    "const { t: tC } = useTranslation('common'); tC('save') tUser('name')"
  ≡ₚ parsed_keys (fun V _ m => reverse (map_to_list m)) 0 "a.tsx"
       "const { t: tC } = useTranslation('common'); tC('save') tUser('name')".
Proof.
  refine (proj2 (proj2 (first_revision_declared_only
    (fun V _ m => map_to_list m) (fun V _ m => reverse (map_to_list m))
    0 0 "a.tsx"
    "const { t: tC } = useTranslation('common'); tC('save') tUser('name')"
    _ _))).
  - intros V n m. reflexivity.
  - intros V n m. apply reverse_Permutation.
Defined.

End FirstFacts.

(** * Declarations and calls in different files *)

Module CrossFile.

Import Chars Regexp Notions I18n KeyResolver Collector WalkFacts.

(** A call that stands at a word boundary, outside the quoted argument of a
    call that is still open, is resolved by the declaration of its alias
    scanned last in the whole walk, in whatever file that declaration
    stands, before or after the file of the call. *)
Theorem declaration_elsewhere_resolves
  (range : forall V : Type, nat -> gmap string V -> list (string * V))
  (d : disk) (walk : list string) (path namespace : string)
  (pre alias ws1 ws2 : list ascii) (q1 : ascii) (key : list ascii)
  (q2 : ascii) (ws3 post : list ascii) :
  enumerates range ->
  path ∈ walk ->
  HasSuffix path ".tsx" = true ->
  ReadFile d path
  = Some (str (pre ++ call_text alias ws1 ws2 q1 key q2 ws3 ++ post)) ->
  open_key pre = false ->
  word_before (last pre) = false ->
  call_form alias ws1 ws2 q1 key q2 ws3 ->
  last_binding (str alias) (walk_bindings d walk) = Some namespace ->
  mkTranslationKey (str key) namespace path
  ∈ extractTranslationKeys range d walk.
Proof.
  intros Hr Hpath Hs Hread Hpre Hlast Hform Hbind.
  rewrite (proj1 (extraction_by_file range d walk)).
  apply list_elem_of_In, in_flat_map. exists path.
  split; [apply list_elem_of_In; exact Hpath|].
  unfold file_calls. rewrite Hs, Hread.
  destruct (calls_reached path (first_pass range d 0 walk ∅) _ _ _ _ _ _ _ _
              post Hpre Hlast Hform) as [earlier ->].
  apply in_or_app. right. left. f_equal. unfold resolve.
  rewrite (first_pass_lookup range d walk 0 ∅ (str alias) Hr), Hbind.
  reflexivity.
Qed.

Lemma declaration_elsewhere_resolves_witness :
  mkTranslationKey "save" "common" "a.tsx"
  ∈ extractTranslationKeys (fun V _ m => map_to_list m)
      {[ "a.tsx" := Regular "return tC('save')";
         "b.tsx" := Regular "const { t: tC } = useTranslation('common')" ]}
      ["a.tsx"; "b.tsx"].
Proof.
  apply (declaration_elsewhere_resolves (fun V _ m => map_to_list m)
           {[ "a.tsx" := Regular "return tC('save')";
              "b.tsx" :=
                Regular "const { t: tC } = useTranslation('common')" ]}
           ["a.tsx"; "b.tsx"] "a.tsx" "common"
           (bytes "return ") (bytes "tC") [] [] "'"%char (bytes "save")
           "'"%char [] []).
  - intros V n m. reflexivity.
  - left.
  - reflexivity.
  - vm_compute. reflexivity.
  - reflexivity.
  - reflexivity.
  - constructor; try reflexivity; try discriminate.
    exists "C"%char, []. repeat split; reflexivity.
  - vm_compute. reflexivity.
Defined.

End CrossFile.

(** * The text of the merged file *)

Module MergedText.

Import Chars Notions I18n JoinI18n DiskFacts Writer CommandFacts.

(** The JSON text of a dictionary that is not empty lists its keys in
    strictly ascending lexical order, each once with its value. *)
Lemma MarshalIndent_sorted quote (data : gmap string string) :
  data <> ∅ ->
  exists sorted,
    Sorted string_lt sorted
    /\ (forall k, k ∈ sorted <-> is_Some (data !! k))
    /\ MarshalIndent quote data
       = object_text (map (member quote data) sorted).
Proof.
  intros Hne.
  set (sorted := sort_strings (map fst (map_to_list data))).
  assert (sorted ≡ₚ (map_to_list data).*1) as Hperm
    by apply merge_sort_Permutation.
  assert (forall k, k ∈ sorted <-> is_Some (data !! k)) as Hiff.
  { intros k. rewrite Hperm, list_elem_of_fmap. split.
    - intros ([k' v] & -> & Hin%elem_of_map_to_list). eauto.
    - intros [v Hv]. exists (k, v). split; [reflexivity|].
      apply elem_of_map_to_list. exact Hv. }
  exists sorted. split; [|split; [exact Hiff|]].
  - apply Sorted_strict; [apply Sorted_merge_sort, string_le_total|].
    rewrite Hperm. apply NoDup_fst_map_to_list.
  - unfold MarshalIndent. fold sorted.
    assert (sorted <> []) as Hs.
    { intros E. apply Hne. apply map_empty. intros k.
      destruct (data !! k) as [v|] eqn:Ev; [|reflexivity].
      assert (k ∈ sorted) as H by (apply Hiff; eauto).
      rewrite E in H. inversion H. }
    clearbody sorted. destruct sorted; [congruence|reflexivity].
Qed.

(** writeJSONFile asks WriteFile for one write, that of the JSON text of
    the dictionary: the keys in strictly ascending lexical order, each once
    with its value, whatever the order of the range, and a pair of braces
    for the empty dictionary. When the write succeeds the file holds that
    text; when it fails the file is as it was or holds a part of that text
    from its start; no other path changes. *)
Theorem merged_file_is_sorted
  (range : forall V : Type, nat -> gmap string V -> list (string * V))
  (quote : string -> string) (writable : string -> bool)
  (failure : string -> option nat) (n : nat)
  (filename : string) (data : gmap string string) (w : world) :
  enumerates range ->
  let out := writeJSONFile range quote writable failure n filename data w in
  out.1 = writable filename
  /\ trace out.2
     = trace w ++ [SysWrite filename (MarshalIndent quote data)]
  /\ fs out.2
     = (if writable filename
        then <[filename := Regular (MarshalIndent quote data)]> (fs w)
        else
          match failure filename with
          | None => fs w
          | Some k =>
              <[filename :=
                  Regular (String.substring 0 k (MarshalIndent quote data))]>
                (fs w)
          end)
  /\ (forall path, path <> filename -> fs out.2 !! path = fs w !! path)
  /\ MarshalIndent quote ∅ = "{}"
  /\ (data <> ∅ ->
      exists sorted,
        Sorted string_lt sorted
        /\ (forall k, k ∈ sorted <-> is_Some (data !! k))
        /\ MarshalIndent quote data
           = object_text (map (member quote data) sorted)).
Proof.
  intros Hr out. subst out.
  unfold writeJSONFile, os_WriteFile.
  rewrite (ordered_copy range n data Hr).
  pose proof (WriteFile_other writable failure (fs w) filename
                (MarshalIndent quote data)) as Hother.
  unfold WriteFile, left_by in *.
  destruct (writable filename); cbn [fst snd fs trace] in *;
    (split; [reflexivity|]); (split; [reflexivity|]);
    (split; [reflexivity|]); (split; [exact Hother|]);
    (split; [reflexivity|]); apply MarshalIndent_sorted.
Qed.

Lemma merged_file_is_sorted_witness :
  (writeJSONFile (fun V _ m => reverse (map_to_list m)) quote_plain
     (fun _ => true) (fun _ => None) 0 "out.json"
     {[ "b" := "x"; "a" := "y" ]} (World ∅ [])).1
  = true.
Proof.
  refine (proj1 (merged_file_is_sorted
    (fun V _ m => reverse (map_to_list m)) quote_plain (fun _ => true)
    (fun _ => None) 0 "out.json" {[ "b" := "x"; "a" := "y" ]}
    (World ∅ []) _)).
  intros V n m. apply reverse_Permutation.
Defined.

End MergedText.
